(** * LiveSession: the voice session controller of Textgpt

    A shallow embedding of [src/LiveSession.tsx]: the refs and React state of
    the [LiveSession] component, its teardown ([cleanup]), the two tool
    handlers ([generateImageFromVoice], [generateCodeFromVoice]), the session
    start ([startSession]) and the transport callbacks ([onopen], [onmessage],
    [onclose], [onerror]).

    Conventions of the model.
    - A callback is a computation in the monad [M]: it reads and writes the
      component state ([World]), emits the calls it makes on browser and SDK
      objects as a list of [Event]s in program order, and either returns or
      throws.  State written before a throw stays written, as in JavaScript.
    - [await e] is sequencing: the rest of the async function runs after [e]
      has settled.  A rejected promise that is awaited is a throw.  The
      [await] of [startSession] is modelled a second time as a suspension,
      with the two halves of the function as separate steps, where the
      callbacks that run in between matter.
    - What the browser, the SDK and the helper modules answer is read from an
      [Env] record, one per callback invocation; this includes whether a
      call of [loadFromHistory] or [saveToHistory] throws.
    - Times are on the clock of the output [AudioContext].  That context runs
      at 24000 Hz, [currentTime] advances in whole render quanta and the
      duration of a buffer is its frame count over the rate, so the scheduler
      only sees whole numbers of sample frames; the model counts frames in
      [Z].
    - [console.log] and [console.error] calls and the canvas visualizer are
      left out; they do not touch the state below except for [animRef],
      which is kept.  Of the JSX, the parts that depend on the state are
      modelled as a function of the state. *)

From Stdlib Require Import ZArith List String Ascii Lia.
From stdpp Require Import gmap strings list.

Local Open Scope string_scope.
Local Open Scope list_scope.

(** ** Data model *)

(** Identity of a browser or SDK object (a context, a node, a stream, the
    session promise). *)
Definition Handle := nat.

(** [useState<'disconnected' | 'connecting' | 'connected' | 'error'>]. *)
Inductive Status := Disconnected | Connecting | Connected | Error.

(** [{ url: string; prompt: string }]; the prompt comes from
    [fc.args['prompt']] and is [None] when that key is missing. *)
Record LiveImage := { url : string; prompt : option string }.

(** [CodeFile] of [../types]. *)
Record CodeFile := { filename : string; content : string; language : string }.

(** An entry of the stored chat log: [{ role, text }]; the text of the user
    entry is the tool argument and is [None] when that was missing. *)
Record ChatEntry := { role : string; text : option string }.

(** The [useRef] cells of the component. *)
Record Refs := {
  sessionRef : option Handle;
  audioContextRef : option Handle;
  inputContextRef : option Handle;
  streamRef : option Handle;
  processorRef : option Handle;
  sourceRef : option Handle;
  nextStartTimeRef : Z;
  scheduledSources : gset nat;
  animRef : nat
}.

(** The [useState] cells of the component. *)
Record Ui := {
  isConnected : bool;
  isSpeaking : bool;
  status : Status;
  liveImage : option LiveImage;
  isProcessingTool : bool;
  toolStatus : string
}.

(** Modelled from the spec: the two storage namespaces behind
    [loadFromHistory] and [saveToHistory] of [../utils/history], which is not
    part of the sources at hand.  The spec gives them a load / merge / save
    contract over lists: a namespace holds a list or nothing, loading an
    absent namespace yields the default, saving replaces the content.
    Whether a call can throw is not said; it is left to the environment
    ([historyThrows] below), and a call that throws changes nothing. *)
Record Storage := {
  files_store : option (list CodeFile);   (* FILES_KEY = 'textgpt_code_files' *)
  chat_store : option (list ChatEntry)    (* CHAT_KEY = 'textgpt_code_chat' *)
}.

Record World := {
  refs : Refs;
  ui : Ui;
  storage : Storage;
  nextId : nat                            (* next fresh object identity *)
}.

(** Calls made on objects outside the component. *)
Inductive Event :=
| EvSessionClose (h : Handle)             (* sessionRef.current.then(s => s.close()) *)
| EvProcessorDisconnect (h : Handle)      (* processorRef.current.disconnect() *)
| EvSourceDisconnect (h : Handle)         (* sourceRef.current.disconnect() *)
| EvStreamStop (h : Handle)               (* getTracks().forEach(track => track.stop()) *)
| EvInputContextClose (h : Handle)        (* inputContextRef.current.close() *)
| EvAudioContextClose (h : Handle)        (* audioContextRef.current.close() *)
| EvCancelAnimationFrame (n : nat)        (* cancelAnimationFrame(animRef.current) *)
| EvPlaybackStop (src : nat)              (* s.stop() on a scheduled source *)
| EvPlaybackStart (src : nat) (start duration : Z)  (* source.start(t) *)
| EvGenerateContent (model : string) (prompt : option string)
| EvSendToolResponse (name id result : string)
| EvGetUserMedia
| EvLiveConnect (h : Handle)
| EvCaptureArmed (source processor : Handle).

Inductive Exn :=
| ExnCapture                              (* getUserMedia rejected *)
| ExnApi                                  (* GoogleGenAI constructor or request failed *)
| ExnSyntax                               (* JSON.parse *)
| ExnType                                 (* property read on null *)
| ExnDecode                               (* base64ToUint8Array / decodeAudioData *)
| ExnStorage.                             (* loadFromHistory / saveToHistory *)

(** ** The monad of callbacks: state, emitted calls, exceptions *)

Inductive Res (A : Type) :=
| Ret (a : A)
| Throw (e : Exn).
Arguments Ret {A} a.
Arguments Throw {A} e.

Record Out (A : Type) := MkOut {
  res : Res A;
  world : World;
  events : list Event
}.
Arguments MkOut {A} _ _ _.
Arguments res {A} _.
Arguments world {A} _.
Arguments events {A} _.

Definition M (A : Type) : Type := World -> Out A.

Definition m_ret {A} (a : A) : M A := fun w => MkOut (Ret a) w [].

Definition m_bind {A B} (f : A -> M B) (m : M A) : M B := fun w =>
  let o := m w in
  match res o with
  | Ret a => let o' := f a (world o) in
             MkOut (res o') (world o') (events o ++ events o')
  | Throw e => MkOut (Throw e) (world o) (events o)
  end.

#[global] Instance M_ret : MRet M := @m_ret.
#[global] Instance M_bind : MBind M := @m_bind.

Definition throw {A} (e : Exn) : M A := fun w => MkOut (Throw e) w [].

Definition emit (e : Event) : M unit := fun w => MkOut (Ret tt) w [e].

Definition get_refs : M Refs := fun w => MkOut (Ret (refs w)) w [].

Definition get_storage : M Storage := fun w => MkOut (Ret (storage w)) w [].

Definition modify_refs (f : Refs -> Refs) : M unit := fun w =>
  MkOut (Ret tt)
        {| refs := f (refs w); ui := ui w; storage := storage w; nextId := nextId w |} [].

Definition modify_ui (f : Ui -> Ui) : M unit := fun w =>
  MkOut (Ret tt)
        {| refs := refs w; ui := f (ui w); storage := storage w; nextId := nextId w |} [].

Definition modify_storage (f : Storage -> Storage) : M unit := fun w =>
  MkOut (Ret tt)
        {| refs := refs w; ui := ui w; storage := f (storage w); nextId := nextId w |} [].

(** A fresh object identity ([new AudioContext], [createBufferSource], ...). *)
Definition fresh : M Handle := fun w =>
  MkOut (Ret (nextId w))
        {| refs := refs w; ui := ui w; storage := storage w; nextId := S (nextId w) |} [].

(** [try { body } catch (e) { handler }]. *)
Definition try_catch {A} (body : M A) (handler : Exn -> M A) : M A := fun w =>
  let o := body w in
  match res o with
  | Ret a => o
  | Throw e => let o' := handler e (world o) in
               MkOut (res o') (world o') (events o ++ events o')
  end.

(** [try { body } finally { fin }]: [fin] runs on both exits and the exit of
    [body] is kept unless [fin] throws itself. *)
Definition try_finally {A} (body : M A) (fin : M unit) : M A := fun w =>
  let o := body w in
  let o' := fin (world o) in
  MkOut (match res o' with Ret _ => res o | Throw e => Throw e end)
        (world o') (events o ++ events o').

(** [for (const x of l) { body }]. *)
Fixpoint for_of {A} (l : list A) (body : A -> M unit) : M unit :=
  match l with
  | [] => mret tt
  | x :: l' => body x ;; for_of l' body
  end.

(** ** Writes to the refs *)

Definition set_sessionRef (v : option Handle) (r : Refs) : Refs :=
  {| sessionRef := v; audioContextRef := audioContextRef r;
     inputContextRef := inputContextRef r; streamRef := streamRef r;
     processorRef := processorRef r; sourceRef := sourceRef r;
     nextStartTimeRef := nextStartTimeRef r;
     scheduledSources := scheduledSources r; animRef := animRef r |}.

Definition set_audioContextRef (v : option Handle) (r : Refs) : Refs :=
  {| sessionRef := sessionRef r; audioContextRef := v;
     inputContextRef := inputContextRef r; streamRef := streamRef r;
     processorRef := processorRef r; sourceRef := sourceRef r;
     nextStartTimeRef := nextStartTimeRef r;
     scheduledSources := scheduledSources r; animRef := animRef r |}.

Definition set_inputContextRef (v : option Handle) (r : Refs) : Refs :=
  {| sessionRef := sessionRef r; audioContextRef := audioContextRef r;
     inputContextRef := v; streamRef := streamRef r;
     processorRef := processorRef r; sourceRef := sourceRef r;
     nextStartTimeRef := nextStartTimeRef r;
     scheduledSources := scheduledSources r; animRef := animRef r |}.

Definition set_streamRef (v : option Handle) (r : Refs) : Refs :=
  {| sessionRef := sessionRef r; audioContextRef := audioContextRef r;
     inputContextRef := inputContextRef r; streamRef := v;
     processorRef := processorRef r; sourceRef := sourceRef r;
     nextStartTimeRef := nextStartTimeRef r;
     scheduledSources := scheduledSources r; animRef := animRef r |}.

Definition set_processorRef (v : option Handle) (r : Refs) : Refs :=
  {| sessionRef := sessionRef r; audioContextRef := audioContextRef r;
     inputContextRef := inputContextRef r; streamRef := streamRef r;
     processorRef := v; sourceRef := sourceRef r;
     nextStartTimeRef := nextStartTimeRef r;
     scheduledSources := scheduledSources r; animRef := animRef r |}.

Definition set_sourceRef (v : option Handle) (r : Refs) : Refs :=
  {| sessionRef := sessionRef r; audioContextRef := audioContextRef r;
     inputContextRef := inputContextRef r; streamRef := streamRef r;
     processorRef := processorRef r; sourceRef := v;
     nextStartTimeRef := nextStartTimeRef r;
     scheduledSources := scheduledSources r; animRef := animRef r |}.

Definition set_nextStartTimeRef (v : Z) (r : Refs) : Refs :=
  {| sessionRef := sessionRef r; audioContextRef := audioContextRef r;
     inputContextRef := inputContextRef r; streamRef := streamRef r;
     processorRef := processorRef r; sourceRef := sourceRef r;
     nextStartTimeRef := v;
     scheduledSources := scheduledSources r; animRef := animRef r |}.

Definition set_scheduledSources (v : gset nat) (r : Refs) : Refs :=
  {| sessionRef := sessionRef r; audioContextRef := audioContextRef r;
     inputContextRef := inputContextRef r; streamRef := streamRef r;
     processorRef := processorRef r; sourceRef := sourceRef r;
     nextStartTimeRef := nextStartTimeRef r;
     scheduledSources := v; animRef := animRef r |}.

(** ** Writes to the React state *)

Definition setIsConnected (v : bool) : M unit := modify_ui (fun u =>
  {| isConnected := v; isSpeaking := isSpeaking u; status := status u;
     liveImage := liveImage u; isProcessingTool := isProcessingTool u;
     toolStatus := toolStatus u |}).

Definition setIsSpeaking (v : bool) : M unit := modify_ui (fun u =>
  {| isConnected := isConnected u; isSpeaking := v; status := status u;
     liveImage := liveImage u; isProcessingTool := isProcessingTool u;
     toolStatus := toolStatus u |}).

Definition setStatus (v : Status) : M unit := modify_ui (fun u =>
  {| isConnected := isConnected u; isSpeaking := isSpeaking u; status := v;
     liveImage := liveImage u; isProcessingTool := isProcessingTool u;
     toolStatus := toolStatus u |}).

Definition setLiveImage (v : option LiveImage) : M unit := modify_ui (fun u =>
  {| isConnected := isConnected u; isSpeaking := isSpeaking u; status := status u;
     liveImage := v; isProcessingTool := isProcessingTool u;
     toolStatus := toolStatus u |}).

Definition setIsProcessingTool (v : bool) : M unit := modify_ui (fun u =>
  {| isConnected := isConnected u; isSpeaking := isSpeaking u; status := status u;
     liveImage := liveImage u; isProcessingTool := v;
     toolStatus := toolStatus u |}).

Definition setToolStatus (v : string) : M unit := modify_ui (fun u =>
  {| isConnected := isConnected u; isSpeaking := isSpeaking u; status := status u;
     liveImage := liveImage u; isProcessingTool := isProcessingTool u;
     toolStatus := v |}).

(** ** Teardown *)

(** One guarded release of [cleanup]:
    [if (ref.current) { ref.current.release(); ref.current = null; }]. *)
Definition release (get : Refs -> option Handle) (call : Handle -> Event)
    (clear : Refs -> Refs) : M unit :=
  r ← get_refs;
  match get r with
  | Some h => emit (call h) ;; modify_refs clear
  | None => mret tt
  end.

Definition cleanup : M unit :=
  release sessionRef EvSessionClose (set_sessionRef None) ;;
  release processorRef EvProcessorDisconnect (set_processorRef None) ;;
  release sourceRef EvSourceDisconnect (set_sourceRef None) ;;
  release streamRef EvStreamStop (set_streamRef None) ;;
  release inputContextRef EvInputContextClose (set_inputContextRef None) ;;
  release audioContextRef EvAudioContextClose (set_audioContextRef None) ;;
  r ← get_refs;
  (if Nat.eqb (animRef r) 0 then mret tt
   else emit (EvCancelAnimationFrame (animRef r))) ;;
  for_of (elements (scheduledSources r)) (fun s => emit (EvPlaybackStop s)) ;;
  modify_refs (set_scheduledSources ∅) ;;
  setIsConnected false ;;
  setStatus Disconnected ;;
  setIsSpeaking false ;;
  setLiveImage None ;;
  setIsProcessingTool false.

(** ** What the environment answers *)

(** A part of a [generateContent] response; [inlineData] holds the
    [inlineData.data] payload when the part has inline data. *)
Record Part := { inlineData : option string }.

Record GenerateContentResponse := {
  resp_parts : option (list Part);        (* response.candidates?.[0]?.content?.parts *)
  resp_text : option string               (* response.text *)
}.

(** The [files] property of the parsed model answer, as far as the handler
    tells its values apart: falsy (missing, null, ...), truthy but not an
    array, or an array, whose elements are taken at their declared type
    [CodeFile]. *)
Inductive FilesProp :=
| FilesFalsy
| FilesNotArray
| FilesArray (fs : list CodeFile).

(** The value of [JSON.parse(jsonStr)]: [null], on which a property read
    throws, or a value with its [files] and [explanation] properties. *)
Inductive Parsed :=
| ParsedNull
| ParsedValue (files : FilesProp) (explanation : option string).

(** A decoded [AudioBuffer]; only its duration is used. *)
Record AudioBuffer := { duration : Z }.

(** The four calls of [../utils/history] that [generateCodeFromVoice]
    makes, in the order in which it makes them. *)
Inductive HistoryCall :=
| LoadFiles                               (* loadFromHistory(FILES_KEY, []) *)
| SaveFiles                               (* saveToHistory(FILES_KEY, updatedFiles) *)
| LoadChat                                (* loadFromHistory(CHAT_KEY, []) *)
| SaveChat.                               (* saveToHistory(CHAT_KEY, updatedChat) *)

Record Env := {
  (* audioContextRef.current.currentTime when the callback reads it *)
  currentTime : Z;
  (* navigator.mediaDevices.getUserMedia resolves (true) or rejects *)
  getUserMedia : bool;
  (* new GoogleGenAI({ apiKey }) succeeds (true) or throws *)
  newGoogleGenAI : bool;
  (* ai.models.generateContent by model and prompt text; None: it rejects *)
  generateContent : string -> option string -> option GenerateContentResponse;
  (* JSON.parse; None: SyntaxError *)
  JSON_parse : string -> option Parsed;
  (* decodeAudioData(base64ToUint8Array(data), ctx, 24000, 1) of
     ../utils/audioUtils; None: the data is malformed and decoding throws *)
  decodeAudioData : string -> option AudioBuffer;
  (* whether a call of ../utils/history throws (true) or completes *)
  historyThrows : HistoryCall -> bool;
  (* whether the connection requested by ai.live.connect opens; the
     transport tells through the onopen or the onerror callback *)
  transportOpens : bool
}.

(** A function call of [msg.toolCall.functionCalls]: [{ name, id, args }]
    (prefixed, [id] being the identity function here).  The arguments are a
    mapping that is always there, as in the data model of the specification;
    a key may be missing from it. *)
Record FunctionCall := {
  fc_name : string;
  fc_id : string;
  fc_args : gmap string string
}.

(** The parts of a [LiveServerMessage] that [onmessage] reads. *)
Record LiveServerMessage := {
  toolCall : option (list FunctionCall);  (* msg.toolCall?.functionCalls *)
  (* msg.serverContent?.modelTurn?.parts?.[0]?.inlineData?.data *)
  audioData : option string;
  turnComplete : bool                     (* msg.serverContent?.turnComplete *)
}.

(** ** JavaScript odds and ends *)

(** Truthiness of a string: non-empty. *)
Definition truthy (s : string) : bool := negb (String.eqb s EmptyString).

(** [`${x}`] for a possibly undefined string. *)
Definition template (x : option string) : string :=
  match x with Some s => s | None => "undefined" end.

Definition newline : string := String "010"%char EmptyString.
Definition dquote : string := String "034"%char EmptyString.

(** [Map.prototype.set] on a [Map] kept as its entries in insertion order: an
    existing key keeps its place and takes the new value, a new key goes to
    the end. *)
Fixpoint Map_set {V} (k : string) (v : V) (m : list (string * V)) : list (string * V) :=
  match m with
  | [] => [(k, v)]
  | (k', v') :: m' =>
      if String.eqb k k' then (k, v) :: m' else (k', v') :: Map_set k v m'
  end.

(** [new Map(entries)]. *)
Definition Map_new {V} (entries : list (string * V)) : list (string * V) :=
  fold_left (fun m e => Map_set (fst e) (snd e) m) entries [].

(** [Array.from(m.values())]. *)
Definition Map_values {V} (m : list (string * V)) : list V := map snd m.

(** ** Storage access *)

(** Modelled from the spec: a call of [../utils/history] throws, before it
    has read or written anything, when the environment says so. *)
Definition history_call (env : Env) (c : HistoryCall) : M unit :=
  if historyThrows env c then throw ExnStorage else mret tt.

(** Modelled from the spec: [loadFromHistory(FILES_KEY, [])]. *)
Definition loadFromHistory_files (env : Env) : M (list CodeFile) :=
  history_call env LoadFiles ;;
  s ← get_storage; mret (default [] (files_store s)).

(** Modelled from the spec: [loadFromHistory(CHAT_KEY, [])]. *)
Definition loadFromHistory_chat (env : Env) : M (list ChatEntry) :=
  history_call env LoadChat ;;
  s ← get_storage; mret (default [] (chat_store s)).

(** Modelled from the spec: [saveToHistory(FILES_KEY, v)]. *)
Definition saveToHistory_files (env : Env) (v : list CodeFile) : M unit :=
  history_call env SaveFiles ;;
  modify_storage (fun s => {| files_store := Some v; chat_store := chat_store s |}).

(** Modelled from the spec: [saveToHistory(CHAT_KEY, v)]. *)
Definition saveToHistory_chat (env : Env) (v : list ChatEntry) : M unit :=
  history_call env SaveChat ;;
  modify_storage (fun s => {| files_store := files_store s; chat_store := Some v |}).

(** ** Calls into the SDK and the browser *)

Definition new_GoogleGenAI (env : Env) : M unit :=
  if newGoogleGenAI env then mret tt else throw ExnApi.

(** [await ai.models.generateContent({ model, contents, config })]. *)
Definition models_generateContent (env : Env) (model : string) (prompt : option string)
    : M GenerateContentResponse :=
  emit (EvGenerateContent model prompt) ;;
  match generateContent env model prompt with
  | Some response => mret response
  | None => throw ExnApi
  end.

Definition parse (env : Env) (jsonStr : string) : M Parsed :=
  match JSON_parse env jsonStr with
  | Some v => mret v
  | None => throw ExnSyntax
  end.

(** [result.files]. *)
Definition get_files (result : Parsed) : M FilesProp :=
  match result with
  | ParsedNull => throw ExnType
  | ParsedValue files _ => mret files
  end.

(** [result.explanation || "Code generated via Voice Mode."], read once
    [result] is known not to be null. *)
Definition explanation_or_default (result : Parsed) : string :=
  match result with
  | ParsedValue _ (Some e) => if truthy e then e else "Code generated via Voice Mode."
  | _ => "Code generated via Voice Mode."
  end.

Definition decode (env : Env) (data : string) : M AudioBuffer :=
  match decodeAudioData env data with
  | Some b => mret b
  | None => throw ExnDecode
  end.

(** ** The tool handlers *)

(** The loop over [parts] of [generateImageFromVoice]: the data URL of the
    first part with inline data, or the initial [''] . *)
Fixpoint first_image (parts : list Part) : string :=
  match parts with
  | [] => EmptyString
  | part :: rest =>
      match inlineData part with
      | Some data => "data:image/png;base64," +:+ data
      | None => first_image rest
      end
  end.

Definition generateImageFromVoice (env : Env) (prompt : option string) : M string :=
  setToolStatus "Generating image..." ;;
  setIsProcessingTool true ;;
  try_finally
    (try_catch
       (new_GoogleGenAI env ;;
        response ← models_generateContent env "gemini-2.5-flash-image" prompt;
        let imageUrl :=
          match resp_parts response with
          | Some parts => first_image parts
          | None => EmptyString
          end in
        if truthy imageUrl then
          setLiveImage (Some {| url := imageUrl; prompt := prompt |}) ;;
          mret "Image generated and displayed successfully."
        else mret "Failed to generate image.")
       (fun _ => mret "Error occurred while generating image."))
    (setIsProcessingTool false).

(** The prompt sent by [generateCodeFromVoice]. *)
Definition code_prompt (description : option string) (existingFiles : list CodeFile) : string :=
  let prompt :=
    "Create code for: " +:+ template description
      +:+ ". Generate multiple files if needed. Return JSON." in
  if (0 <? length existingFiles)%nat then
    prompt +:+ newline +:+ newline +:+ "Current File Structure: "
      +:+ String.concat ", " (map filename existingFiles)
      +:+ ". " +:+ newline +:+ "Update or create files as needed."
  else prompt.

(** The merge of [generateCodeFromVoice]: a [Map] from the stored files,
    every generated file [set] into it, then its values. *)
Definition merge_files (existingFiles newFiles : list CodeFile) : list CodeFile :=
  let newFilesMap := Map_new (map (fun f => (filename f, f)) existingFiles) in
  Map_values (fold_left (fun m f => Map_set (filename f) f m) newFiles newFilesMap).

Definition code_success (description : option string) : string :=
  "Code generated successfully for " +:+ dquote +:+ template description
    +:+ dquote +:+ ". Files saved to Code Studio.".

(** The body of the [try] block of [generateCodeFromVoice]. *)
Definition generateCode_try (env : Env) (description : option string) : M string :=
  new_GoogleGenAI env ;;
  existingFiles ← loadFromHistory_files env;
  response ← models_generateContent env "gemini-3-flash-preview"
               (Some (code_prompt description existingFiles));
  match resp_text response with
  | None => mret "Failed to generate code."
  | Some jsonStr =>
      if truthy jsonStr then
        result ← parse env jsonStr;
        files ← get_files result;
        match files with
        | FilesArray newFiles =>
            saveToHistory_files env (merge_files existingFiles newFiles) ;;
            existingChat ← loadFromHistory_chat env;
            saveToHistory_chat env
              (existingChat ++
                 [ {| role := "user"; text := description |};
                   {| role := "model"; text := Some (explanation_or_default result) |} ]) ;;
            mret (code_success description)
        | _ => mret "Code generation failed format check."
        end
      else mret "Failed to generate code."
  end.

Definition generateCodeFromVoice (env : Env) (description : option string) : M string :=
  setToolStatus "Writing code..." ;;
  setIsProcessingTool true ;;
  try_finally
    (try_catch (generateCode_try env description)
       (fun _ => mret "Error occurred while generating code."))
    (setIsProcessingTool false).

(** ** Session start and transport callbacks *)

Definition startSession (env : Env) : M unit :=
  try_catch
    (setStatus Connecting ;;
     out ← fresh;
     modify_refs (set_audioContextRef (Some out)) ;;
     inp ← fresh;
     modify_refs (set_inputContextRef (Some inp)) ;;
     modify_refs (set_nextStartTimeRef (currentTime env)) ;;
     emit EvGetUserMedia ;;
     stream ← (if getUserMedia env then fresh else throw ExnCapture);
     modify_refs (set_streamRef (Some stream)) ;;
     new_GoogleGenAI env ;;
     sessionPromise ← fresh;
     emit (EvLiveConnect sessionPromise) ;;
     modify_refs (set_sessionRef (Some sessionPromise)))
    (fun _ => cleanup ;; setStatus Error).

Definition onopen : M unit :=
  setStatus Connected ;;
  setIsConnected true ;;
  r ← get_refs;
  match inputContextRef r with
  | None => mret tt
  | Some _ =>
      source ← fresh;
      modify_refs (set_sourceRef (Some source)) ;;
      processor ← fresh;
      modify_refs (set_processorRef (Some processor)) ;;
      emit (EvCaptureArmed source processor)
  end.

(** The body of the loop over [msg.toolCall.functionCalls]. *)
Definition handle_function_call (env : Env) (fc : FunctionCall) : M unit :=
  result ←
    (if String.eqb (fc_name fc) "generate_image" then
       generateImageFromVoice env (fc_args fc !! "prompt")
     else if String.eqb (fc_name fc) "generate_code" then
       generateCodeFromVoice env (fc_args fc !! "description")
     else mret "Tool execution failed");
  emit (EvSendToolResponse (fc_name fc) (fc_id fc) result).

(** The ['ended'] listener of a scheduled source. *)
Definition onended (source : nat) : M unit :=
  modify_refs (fun r => set_scheduledSources (scheduledSources r ∖ {[source]}) r) ;;
  r ← get_refs;
  if bool_decide (size (scheduledSources r) = 0) then setIsSpeaking false
  else mret tt.

(** The body of [if (audioData && audioContextRef.current)]. *)
Definition play (env : Env) (data : string) : M unit :=
  setIsSpeaking true ;;
  modify_refs (fun r =>
    set_nextStartTimeRef (Z.max (nextStartTimeRef r) (currentTime env)) r) ;;
  audioBuffer ← decode env data;
  source ← fresh;
  r ← get_refs;
  emit (EvPlaybackStart source (nextStartTimeRef r) (duration audioBuffer)) ;;
  modify_refs (fun r =>
    set_nextStartTimeRef (nextStartTimeRef r + duration audioBuffer) r) ;;
  modify_refs (fun r => set_scheduledSources ({[source]} ∪ scheduledSources r) r).

(** [if (msg.toolCall) { for (const fc of ...) { ... } }]. *)
Definition dispatch_tool_calls (env : Env) (msg : LiveServerMessage) : M unit :=
  match toolCall msg with
  | Some functionCalls => for_of functionCalls (handle_function_call env)
  | None => mret tt
  end.

(** [if (audioData && audioContextRef.current) { ... }]. *)
Definition schedule_audio (env : Env) (msg : LiveServerMessage) : M unit :=
  r ← get_refs;
  match audioData msg, audioContextRef r with
  | Some data, Some _ => if truthy data then play env data else mret tt
  | _, _ => mret tt
  end.

(** [if (msg.serverContent?.turnComplete) { setIsSpeaking(false); }]. *)
Definition finish_turn (msg : LiveServerMessage) : M unit :=
  if turnComplete msg then setIsSpeaking false else mret tt.

Definition onmessage (env : Env) (msg : LiveServerMessage) : M unit :=
  dispatch_tool_calls env msg ;;
  schedule_audio env msg ;;
  finish_turn msg.

Definition onclose : M unit := cleanup.

Definition onerror : M unit := cleanup ;; setStatus Error.

(** ** Delivery of events to a running session *)

(** What reaches the component once a session is started: a server message
    (with what the environment answers while it is handled), the end of a
    scheduled source, the close or error signal of the transport, and the
    End Session button. *)
Inductive Inbound :=
| InMessage (env : Env) (msg : LiveServerMessage)
| InEnded (source : nat)
| InClose
| InError
| InStop.

Definition deliver (i : Inbound) : M unit :=
  match i with
  | InMessage env msg => onmessage env msg
  | InEnded source => onended source
  | InClose => onclose
  | InError => onerror
  | InStop => cleanup
  end.

(** What the transport does with the callbacks it was given, once
    [startSession] has returned: [onopen] when the connection opens,
    [onerror] when it does not. *)
Definition connection_settles (env : Env) : M unit :=
  if transportOpens env then onopen else onerror.

(** Callbacks run one after the other, each to its end; a callback that
    throws is the caller's unhandled rejection and the next one still runs. *)
Fixpoint run (inbound : list Inbound) (w : World) : World * list Event :=
  match inbound with
  | [] => (w, [])
  | i :: rest =>
      let o := deliver i w in
      let r := run rest (world o) in
      (fst r, events o ++ snd r)
  end.

(** [stop()] called [n] times. *)
Fixpoint stop_times (n : nat) (w : World) : World * list Event :=
  match n with
  | O => (w, [])
  | S n' =>
      let o := cleanup w in
      let r := stop_times n' (world o) in
      (fst r, events o ++ snd r)
  end.

(** * Vocabulary of the properties *)

(** ** Outcomes of a callback *)

(** [m] run on [w] returns [a], leaves [w'] and makes the calls [evs]. *)
Definition runs {A} (m : M A) (w : World) (a : A) (w' : World) (evs : list Event) : Prop :=
  m w = MkOut (Ret a) w' evs.

(** [m] run on [w] throws [e], leaves [w'] and has made the calls [evs]. *)
Definition throws {A} (m : M A) (w : World) (e : Exn) (w' : World) (evs : list Event) : Prop :=
  m w = MkOut (Throw e) w' evs.

(** A computation that never throws. *)
Definition total {A} (m : M A) : Prop :=
  forall w, exists a, res (m w) = Ret a.

(** The part of the state the session controller and the playback scheduler
    work on: the refs and the connection, speaking and status flags. *)
Definition session_view (w : World) : Refs * bool * bool * Status :=
  (refs w, isConnected (ui w), isSpeaking (ui w), status (ui w)).

(** The calls a tool dispatch makes: requests to the model and the sending of
    the result. *)
Definition tool_event (e : Event) : bool :=
  match e with
  | EvGenerateContent _ _ | EvSendToolResponse _ _ _ => true
  | _ => false
  end.

(** The requests to the model. *)
Definition request_event (e : Event) : bool :=
  match e with
  | EvGenerateContent _ _ => true
  | _ => false
  end.

(** The sending of a tool result. *)
Definition is_send (e : Event) : bool :=
  match e with
  | EvSendToolResponse _ _ _ => true
  | _ => false
  end.

(** A computation that leaves the session view alone and only makes calls of
    the kind [P]. *)
Definition quiet {A} (P : Event -> bool) (m : M A) : Prop :=
  forall w, session_view (world (m w)) = session_view w /\
            Forall (fun e => P e = true) (events (m w)).

(** The calls that release a resource owned by the session: the transport
    session, the processor, the source node, the capture stream, the two
    audio contexts and the scheduled playback sources.  (The animation frame
    belongs to the visualizer.) *)
Definition owned_release (e : Event) : bool :=
  match e with
  | EvSessionClose _ | EvProcessorDisconnect _ | EvSourceDisconnect _
  | EvStreamStop _ | EvInputContextClose _ | EvAudioContextClose _
  | EvPlaybackStop _ => true
  | _ => false
  end.

(** The playback start made by a call, as (start time, duration). *)
Definition start_of (e : Event) : option (Z * Z) :=
  match e with
  | EvPlaybackStart _ s d => Some (s, d)
  | _ => None
  end.

(** The playback starts among some calls, in order. *)
Definition starts (evs : list Event) : list (Z * Z) := omap start_of evs.

(** The tool results sent among some calls, as (name, id). *)
Definition sent (e : Event) : option (string * string) :=
  match e with
  | EvSendToolResponse name id _ => Some (name, id)
  | _ => None
  end.

(** ** States of the teardown *)

(** The release calls owed for the resources a state holds, one per held
    resource, in the order [cleanup] goes through them. *)
Definition held (r : Refs) : list Event :=
  option_list (EvSessionClose <$> sessionRef r)
  ++ option_list (EvProcessorDisconnect <$> processorRef r)
  ++ option_list (EvSourceDisconnect <$> sourceRef r)
  ++ option_list (EvStreamStop <$> streamRef r)
  ++ option_list (EvInputContextClose <$> inputContextRef r)
  ++ option_list (EvAudioContextClose <$> audioContextRef r)
  ++ (EvPlaybackStop <$> elements (scheduledSources r)).

(** No resource is held. *)
Definition released (r : Refs) : Prop :=
  sessionRef r = None /\ processorRef r = None /\ sourceRef r = None /\
  streamRef r = None /\ inputContextRef r = None /\ audioContextRef r = None /\
  scheduledSources r = ∅.

(** The state [cleanup] leaves behind, which is also the state the component
    is mounted in: nothing held, every flag down, status [Disconnected]. *)
Definition torn_down (w : World) : Prop :=
  released (refs w) /\
  isConnected (ui w) = false /\ status (ui w) = Disconnected /\
  isSpeaking (ui w) = false /\ liveImage (ui w) = None /\
  isProcessingTool (ui w) = false.

(** The state of a freshly mounted component. *)
Definition initial_world : World :=
  {| refs := {| sessionRef := None; audioContextRef := None;
                inputContextRef := None; streamRef := None;
                processorRef := None; sourceRef := None;
                nextStartTimeRef := 0; scheduledSources := ∅; animRef := 0 |};
     ui := {| isConnected := false; isSpeaking := false; status := Disconnected;
              liveImage := None; isProcessingTool := false;
              toolStatus := EmptyString |};
     storage := {| files_store := None; chat_store := None |};
     nextId := 0 |}.

(** The calls [cleanup] makes, in order. *)
Definition cleanup_calls (r : Refs) : list Event :=
  option_list (EvSessionClose <$> sessionRef r)
  ++ option_list (EvProcessorDisconnect <$> processorRef r)
  ++ option_list (EvSourceDisconnect <$> sourceRef r)
  ++ option_list (EvStreamStop <$> streamRef r)
  ++ option_list (EvInputContextClose <$> inputContextRef r)
  ++ option_list (EvAudioContextClose <$> audioContextRef r)
  ++ (if Nat.eqb (animRef r) 0 then [] else [EvCancelAnimationFrame (animRef r)])
  ++ (EvPlaybackStop <$> elements (scheduledSources r)).

(** The state after [cleanup]. *)
Definition cleaned (w : World) : World :=
  {| refs := {| sessionRef := None; audioContextRef := None;
                inputContextRef := None; streamRef := None;
                processorRef := None; sourceRef := None;
                nextStartTimeRef := nextStartTimeRef (refs w);
                scheduledSources := ∅; animRef := animRef (refs w) |};
     ui := {| isConnected := false; isSpeaking := false; status := Disconnected;
              liveImage := None; isProcessingTool := false;
              toolStatus := toolStatus (ui w) |};
     storage := storage w;
     nextId := nextId w |}.

(** The state after [onerror]: torn down, status [Error]. *)
Definition errored (w : World) : World :=
  {| refs := refs (cleaned w);
     ui := {| isConnected := false; isSpeaking := false; status := Error;
              liveImage := None; isProcessingTool := false;
              toolStatus := toolStatus (ui w) |};
     storage := storage w;
     nextId := nextId w |}.

(** ** States and properties of the playback *)

(** The chunk of a message that [onmessage] goes on to play in state [w]. *)
Definition chunk_of (msg : LiveServerMessage) (w : World) : option string :=
  match audioData msg, audioContextRef (refs w) with
  | Some data, Some _ => if truthy data then Some data else None
  | _, _ => None
  end.

(** The state after [play] has scheduled a decoded chunk [b]: speaking, the
    source (the next fresh identity) in the scheduled set, the cursor at the
    end of the chunk. *)
Definition after_play (env : Env) (b : AudioBuffer) (w : World) : World :=
  {| refs :=
       set_scheduledSources ({[nextId w]} ∪ scheduledSources (refs w))
         (set_nextStartTimeRef
            (Z.max (nextStartTimeRef (refs w)) (currentTime env) + duration b)
            (refs w));
     ui := {| isConnected := isConnected (ui w); isSpeaking := true;
              status := status (ui w); liveImage := liveImage (ui w);
              isProcessingTool := isProcessingTool (ui w);
              toolStatus := toolStatus (ui w) |};
     storage := storage w;
     nextId := S (nextId w) |}.

(** The state in which [play] stops when decoding throws: speaking, the
    cursor moved up to the clock, nothing else touched. *)
Definition after_failed_play (env : Env) (w : World) : World :=
  {| refs :=
       set_nextStartTimeRef
         (Z.max (nextStartTimeRef (refs w)) (currentTime env)) (refs w);
     ui := {| isConnected := isConnected (ui w); isSpeaking := true;
              status := status (ui w); liveImage := liveImage (ui w);
              isProcessingTool := isProcessingTool (ui w);
              toolStatus := toolStatus (ui w) |};
     storage := storage w;
     nextId := nextId w |}.

(** The state after the ['ended'] listener of [source] has run. *)
Definition after_ended (source : nat) (w : World) : World :=
  let remaining := scheduledSources (refs w) ∖ {[source]} in
  {| refs := set_scheduledSources remaining (refs w);
     ui := if bool_decide (size remaining = 0) then
             {| isConnected := isConnected (ui w); isSpeaking := false;
                status := status (ui w); liveImage := liveImage (ui w);
                isProcessingTool := isProcessingTool (ui w);
                toolStatus := toolStatus (ui w) |}
           else ui w;
     storage := storage w;
     nextId := nextId w |}.

(** Every start is at or after the end of the one before it, the first one
    at or after [c]. *)
Fixpoint gapless_from (c : Z) (l : list (Z * Z)) : Prop :=
  match l with
  | [] => True
  | (s, d) :: l' => (c <= s)%Z /\ gapless_from (s + d) l'
  end.

(** The speaking flag is only up while something is scheduled. *)
Definition speaking_implies_playing (w : World) : Prop :=
  isSpeaking (ui w) = true -> scheduledSources (refs w) <> ∅.

(** The speaking flag is up exactly while something is scheduled. *)
Definition speaking_iff_playing (w : World) : Prop :=
  isSpeaking (ui w) = true <-> scheduledSources (refs w) <> ∅.

(** The audio data of a delivered message, if any, decodes. *)
Definition decodable (i : Inbound) : Prop :=
  match i with
  | InMessage env msg =>
      forall data, audioData msg = Some data -> decodeAudioData env data <> None
  | _ => True
  end.

(** A delivered event does not carry the turn-complete flag. *)
Definition no_turn_complete (i : Inbound) : Prop :=
  match i with
  | InMessage _ msg => turnComplete msg = false
  | _ => True
  end.

(** A delivered event brings nothing to play: it is not a message, or its
    message has no audio data or empty data. *)
Definition carries_no_chunk (i : Inbound) : Prop :=
  match i with
  | InMessage _ msg => forall data, audioData msg = Some data -> truthy data = false
  | _ => True
  end.

(** ** Traces of the tool dispatch *)

(** The calls made for one function call: requests of its handler, then the
    one send of the result under its name and id. *)
Definition segment_of (fc : FunctionCall) (seg : list Event) : Prop :=
  exists reqs result,
    seg = reqs ++ [EvSendToolResponse (fc_name fc) (fc_id fc) result] /\
    Forall (fun e => request_event e = true) reqs.

(** The request that the handler of a function call makes to its model:
    the image handler with the prompt of the call, the code handler with the
    prompt built from the description of the call and some stored files.
    A call of another name has no handler and no request. *)
Definition request_of (fc : FunctionCall) (e : Event) : Prop :=
  (fc_name fc = "generate_image" /\
   e = EvGenerateContent "gemini-2.5-flash-image" (fc_args fc !! "prompt")) \/
  (fc_name fc = "generate_code" /\
   exists existingFiles,
     e = EvGenerateContent "gemini-3-flash-preview"
           (Some (code_prompt (fc_args fc !! "description") existingFiles))).

(** The calls made for one function call handled on its own: at most one
    request, which is the request of the handler of this very call, and
    then the one send of the result under the name and id of the call. *)
Definition call_segment (fc : FunctionCall) (seg : list Event) : Prop :=
  exists result,
    seg = [EvSendToolResponse (fc_name fc) (fc_id fc) result] \/
    exists request,
      request_of fc request /\
      seg = [request; EvSendToolResponse (fc_name fc) (fc_id fc) result].

(** A tool result is sent after a chunk has been started: the chunk did not
    wait for that handler. *)
Fixpoint result_after_start (evs : list Event) : bool :=
  match evs with
  | [] => false
  | EvPlaybackStart _ _ _ :: rest => existsb is_send rest || result_after_start rest
  | _ :: rest => result_after_start rest
  end.

(** A handler sends its request while an earlier one has not delivered its
    result yet: two handlers are in flight together.  [running] tells whether
    a request is waiting for its result. *)
Fixpoint handlers_overlap (running : bool) (evs : list Event) : bool :=
  match evs with
  | [] => false
  | EvGenerateContent _ _ :: rest => running || handlers_overlap true rest
  | EvSendToolResponse _ _ _ :: rest => handlers_overlap false rest
  | _ :: rest => handlers_overlap running rest
  end.

(** ** States and properties of the code generation *)

(** The file of a given name in a list, first match; in a list without
    duplicate names, the one file of that name. *)
Definition file_named (name : string) (files : list CodeFile) : option CodeFile :=
  List.find (fun f => String.eqb name (filename f)) files.

(** The last file of a given name in a list: the one a later write leaves. *)
Definition last_named (name : string) (files : list CodeFile) : option CodeFile :=
  file_named name (rev files).

(** [Map.prototype.get]. *)
Definition Map_get {V} (k : string) (m : list (string * V)) : option V :=
  snd <$> List.find (fun e => String.eqb k (fst e)) m.

(** Every entry is filed under the name of its file, and no key occurs
    twice. *)
Definition well_keyed (m : list (string * CodeFile)) : Prop :=
  Forall (fun e => fst e = filename (snd e)) m /\ NoDup (fst <$> m).

(** The state a tool handler works in, between its first two writes and its
    [finally]. *)
Definition tool_started (label : string) (w : World) : World :=
  {| refs := refs w;
     ui := {| isConnected := isConnected (ui w); isSpeaking := isSpeaking (ui w);
              status := status (ui w); liveImage := liveImage (ui w);
              isProcessingTool := true; toolStatus := label |};
     storage := storage w; nextId := nextId w |}.

(** The state after the [finally] of a tool handler. *)
Definition tool_finished (w : World) : World :=
  {| refs := refs w;
     ui := {| isConnected := isConnected (ui w); isSpeaking := isSpeaking (ui w);
              status := status (ui w); liveImage := liveImage (ui w);
              isProcessingTool := false; toolStatus := toolStatus (ui w) |};
     storage := storage w; nextId := nextId w |}.

(** The state after a successful code generation has written both
    namespaces. *)
Definition code_saved (description : option string) (newFiles : list CodeFile)
    (result : Parsed) (w : World) : World :=
  {| refs := refs w; ui := ui w;
     storage :=
       {| files_store :=
            Some (merge_files (default [] (files_store (storage w))) newFiles);
          chat_store :=
            Some (default [] (chat_store (storage w)) ++
                    [ {| role := "user"; text := description |};
                      {| role := "model";
                         text := Some (explanation_or_default result) |} ]) |};
     nextId := nextId w |}.

(** The conditions under which [generateCodeFromVoice] gets as far as its
    first write, with the files [newFiles] to merge: client, read of the
    stored files, request, text, parse and format check all pass. *)
Definition codegen_reaches_save (env : Env) (description : option string)
    (existingFiles newFiles : list CodeFile) (result : Parsed) : Prop :=
  exists response jsonStr explanation,
    newGoogleGenAI env = true /\
    historyThrows env LoadFiles = false /\
    generateContent env "gemini-3-flash-preview"
      (Some (code_prompt description existingFiles)) = Some response /\
    resp_text response = Some jsonStr /\ truthy jsonStr = true /\
    JSON_parse env jsonStr = Some result /\
    result = ParsedValue (FilesArray newFiles) explanation.

(** The ways [generateCodeFromVoice] fails before it has written anything,
    with the text it then returns: the client cannot be built, the read of
    the stored files throws, the request is rejected, the answer has no text
    or an empty one, the text does not parse, it parses to [null], its
    [files] is not an array, or the write of the merged files throws. *)
Inductive CodegenFailure (env : Env) (description : option string)
    (existingFiles : list CodeFile) : string -> Prop :=
| FailClient :
    newGoogleGenAI env = false ->
    CodegenFailure env description existingFiles "Error occurred while generating code."
| FailLoadFiles :
    newGoogleGenAI env = true -> historyThrows env LoadFiles = true ->
    CodegenFailure env description existingFiles "Error occurred while generating code."
| FailRequest :
    newGoogleGenAI env = true -> historyThrows env LoadFiles = false ->
    generateContent env "gemini-3-flash-preview"
      (Some (code_prompt description existingFiles)) = None ->
    CodegenFailure env description existingFiles "Error occurred while generating code."
| FailNoText response :
    newGoogleGenAI env = true -> historyThrows env LoadFiles = false ->
    generateContent env "gemini-3-flash-preview"
      (Some (code_prompt description existingFiles)) = Some response ->
    resp_text response = None ->
    CodegenFailure env description existingFiles "Failed to generate code."
| FailEmptyText response jsonStr :
    newGoogleGenAI env = true -> historyThrows env LoadFiles = false ->
    generateContent env "gemini-3-flash-preview"
      (Some (code_prompt description existingFiles)) = Some response ->
    resp_text response = Some jsonStr -> truthy jsonStr = false ->
    CodegenFailure env description existingFiles "Failed to generate code."
| FailSyntax response jsonStr :
    newGoogleGenAI env = true -> historyThrows env LoadFiles = false ->
    generateContent env "gemini-3-flash-preview"
      (Some (code_prompt description existingFiles)) = Some response ->
    resp_text response = Some jsonStr -> truthy jsonStr = true ->
    JSON_parse env jsonStr = None ->
    CodegenFailure env description existingFiles "Error occurred while generating code."
| FailNull response jsonStr :
    newGoogleGenAI env = true -> historyThrows env LoadFiles = false ->
    generateContent env "gemini-3-flash-preview"
      (Some (code_prompt description existingFiles)) = Some response ->
    resp_text response = Some jsonStr -> truthy jsonStr = true ->
    JSON_parse env jsonStr = Some ParsedNull ->
    CodegenFailure env description existingFiles "Error occurred while generating code."
| FailFormat response jsonStr files explanation :
    newGoogleGenAI env = true -> historyThrows env LoadFiles = false ->
    generateContent env "gemini-3-flash-preview"
      (Some (code_prompt description existingFiles)) = Some response ->
    resp_text response = Some jsonStr -> truthy jsonStr = true ->
    JSON_parse env jsonStr = Some (ParsedValue files explanation) ->
    (forall newFiles, files <> FilesArray newFiles) ->
    CodegenFailure env description existingFiles "Code generation failed format check."
| FailSaveFiles newFiles result :
    codegen_reaches_save env description existingFiles newFiles result ->
    historyThrows env SaveFiles = true ->
    CodegenFailure env description existingFiles "Error occurred while generating code.".

(** The handler fails between its two writes: the merged files have been
    saved, and then the read or the write of the chat log throws. *)
Definition codegen_fails_after_save (env : Env) (description : option string)
    (existingFiles newFiles : list CodeFile) (result : Parsed) : Prop :=
  codegen_reaches_save env description existingFiles newFiles result /\
  historyThrows env SaveFiles = false /\
  (historyThrows env LoadChat = true \/ historyThrows env SaveChat = true).

(** The conditions under which [generateCodeFromVoice] succeeds with the
    files [newFiles]: it gets to its first write, and neither that write nor
    the read and the write of the chat log throw. *)
Definition codegen_succeeds (env : Env) (description : option string)
    (existingFiles newFiles : list CodeFile) (result : Parsed) : Prop :=
  codegen_reaches_save env description existingFiles newFiles result /\
  historyThrows env SaveFiles = false /\
  historyThrows env LoadChat = false /\
  historyThrows env SaveChat = false.

(** The state after the merged files have been saved and the chat log has
    not. *)
Definition files_saved (newFiles : list CodeFile) (w : World) : World :=
  {| refs := refs w; ui := ui w;
     storage :=
       {| files_store :=
            Some (merge_files (default [] (files_store (storage w))) newFiles);
          chat_store := chat_store (storage w) |};
     nextId := nextId w |}.

(** ** Sample inputs *)

(** A JavaScript file. *)
Definition sample_file (name body : string) : CodeFile :=
  {| filename := name; content := body; language := "js" |}.

(** An environment in which everything works: the clock reads [now], the
    microphone opens, requests answer with one inline image and a JSON text,
    that text parses to one file and audio data decodes to half a second
    (12000 frames) unless it is the string [bad]. *)
Definition sample_env (now : Z) : Env :=
  {| currentTime := now;
     getUserMedia := true;
     newGoogleGenAI := true;
     generateContent := fun _ _ =>
       Some {| resp_parts := Some [ {| inlineData := Some "AAAA" |} ];
               resp_text := Some "{...}" |};
     JSON_parse := fun _ =>
       Some (ParsedValue (FilesArray [sample_file "a.js" "new"]) (Some "Done."));
     decodeAudioData := fun data =>
       if String.eqb data "bad" then None else Some {| duration := 12000 |};
     historyThrows := fun _ => false;
     transportOpens := true |}.

(** An environment in which every request to the model is rejected. *)
Definition failing_tools_env : Env :=
  {| currentTime := 0; getUserMedia := true; newGoogleGenAI := true;
     generateContent := fun _ _ => None;
     JSON_parse := fun _ => None;
     decodeAudioData := fun _ => Some {| duration := 12000 |};
     historyThrows := fun _ => false;
     transportOpens := true |}.

(** The microphone opens and the client is built, but the connection that
    [ai.live.connect] asks for never opens. *)
Definition transport_fails_env : Env :=
  {| currentTime := 0; getUserMedia := true; newGoogleGenAI := true;
     generateContent := fun _ _ => None;
     JSON_parse := fun _ => None;
     decodeAudioData := fun _ => None;
     historyThrows := fun _ => false;
     transportOpens := false |}.

(** The microphone is refused. *)
Definition no_microphone_env : Env :=
  {| currentTime := 0; getUserMedia := false; newGoogleGenAI := true;
     generateContent := fun _ _ => None;
     JSON_parse := fun _ => None;
     decodeAudioData := fun _ => None;
     historyThrows := fun _ => false;
     transportOpens := true |}.

(** The model answers with text that does not parse. *)
Definition bad_json_env : Env :=
  {| currentTime := 0; getUserMedia := true; newGoogleGenAI := true;
     generateContent := fun _ _ =>
       Some {| resp_parts := None; resp_text := Some "not json" |};
     JSON_parse := fun _ => None;
     decodeAudioData := fun _ => None;
     historyThrows := fun _ => false;
     transportOpens := true |}.

(** Everything works but the write of the chat log, which throws (as
    [localStorage.setItem] does when the quota is exceeded). *)
Definition chat_save_fails_env : Env :=
  {| currentTime := 0; getUserMedia := true; newGoogleGenAI := true;
     generateContent := fun _ _ =>
       Some {| resp_parts := None; resp_text := Some "{...}" |};
     JSON_parse := fun _ =>
       Some (ParsedValue (FilesArray [sample_file "a.js" "new"]) (Some "Done."));
     decodeAudioData := fun _ => None;
     historyThrows := fun c => match c with SaveChat => true | _ => false end;
     transportOpens := true |}.

(** A connected session: started and opened from the initial state. *)
Definition connected_world : World :=
  world (onopen (world (startSession (sample_env 0) initial_world))).

(** A message that only carries a chunk. *)
Definition audio_message (data : string) : LiveServerMessage :=
  {| toolCall := None; audioData := Some data; turnComplete := false |}.

(** A message that only ends the turn. *)
Definition turn_complete_message : LiveServerMessage :=
  {| toolCall := None; audioData := None; turnComplete := true |}.

(** A chunk that does not decode, in a message that also ends the turn. *)
Definition bad_chunk_message : LiveServerMessage :=
  {| toolCall := None; audioData := Some "bad"; turnComplete := true |}.

(** A connected session with two chunks scheduled. *)
Definition playing_world : World :=
  fst (run [InMessage (sample_env 0) (audio_message "pcm1");
            InMessage (sample_env 0) (audio_message "pcm2")] connected_world).

(** Stored files for the merge examples. *)
Definition stored_world : World :=
  {| refs := refs connected_world; ui := ui connected_world;
     storage := {| files_store := Some [sample_file "a.js" "old";
                                        sample_file "b.js" "keep"];
                   chat_store := Some [ {| role := "user"; text := Some "hi" |} ] |};
     nextId := nextId connected_world |}.

(** Two chunks, the end of the model's turn, then the end of the first
    source (identity 6 in [connected_world]). *)
Definition turn_complete_then_ended : list Inbound :=
  [InMessage (sample_env 0) (audio_message "pcm1");
   InMessage (sample_env 0) (audio_message "pcm2");
   InMessage (sample_env 0) turn_complete_message;
   InEnded 6].

(** A call of the image tool. *)
Definition image_call (id prompt : string) : FunctionCall :=
  {| fc_name := "generate_image"; fc_id := id;
     fc_args := {[ "prompt" := prompt ]} |}.

(** A call of a tool that does not exist. *)
Definition video_call (id : string) : FunctionCall :=
  {| fc_name := "generate_video"; fc_id := id; fc_args := ∅ |}.

(** One message with two tool calls and a chunk. *)
Definition calls_and_chunk : LiveServerMessage :=
  {| toolCall := Some [image_call "x1" "a cat"; image_call "x2" "a dog"];
     audioData := Some "pcm"; turnComplete := false |}.

(** * The rest of the component *)

(** ** The declared tools *)

(** [Type] of the SDK, as far as the declarations use it. *)
Inductive SchemaType := TypeObject | TypeString.

(** One entry of [parameters.properties]. *)
Record SchemaProperty := {
  prop_key : string;
  prop_type : SchemaType;
  prop_description : string
}.

(** A [FunctionDeclaration]: [{ name, description, parameters: { type,
    properties, required } }]. *)
Record FunctionDeclaration := {
  decl_name : string;
  decl_description : string;
  decl_type : SchemaType;
  decl_properties : list SchemaProperty;
  decl_required : list string
}.

Definition generateImageTool : FunctionDeclaration :=
  {| decl_name := "generate_image";
     decl_description :=
       "Generate an image based on a text prompt. Use this when the user asks to create, generate, draw, or make an image/picture/photo.";
     decl_type := TypeObject;
     decl_properties :=
       [ {| prop_key := "prompt"; prop_type := TypeString;
            prop_description := "The detailed description of the image to generate." |} ];
     decl_required := ["prompt"] |}.

Definition generateCodeTool : FunctionDeclaration :=
  {| decl_name := "generate_code";
     decl_description :=
       "Generate code for a web application, website, or script. Use this when the user asks to build, code, create an app, or write software.";
     decl_type := TypeObject;
     decl_properties :=
       [ {| prop_key := "description"; prop_type := TypeString;
            prop_description :=
              "The detailed description of the application or code functionality requested." |} ];
     decl_required := ["description"] |}.

(** [tools: [{ functionDeclarations: [generateImageTool, generateCodeTool] }]]
    of the [config] given to [ai.live.connect]. *)
Definition functionDeclarations : list FunctionDeclaration :=
  [generateImageTool; generateCodeTool].

(** ** What the component renders *)

(** The one button under the visualizer: the start button, with its
    [disabled] attribute and its label, or the End Session button. *)
Inductive Button :=
| StartButton (disabled : bool) (label : string)
| EndButton.

(** The parts of the JSX that depend on the state. *)
Record View := {
  (* isConnected ? <Activity/> (highlighted while speaking) : <MicOff/> *)
  view_activity : option bool;
  (* liveImage && <card with the image, its prompt and a close button> *)
  view_image : option LiveImage;
  (* isProcessingTool && <banner>{toolStatus || 'Processing...'}</banner> *)
  view_banner : option string;
  view_button : Button;
  (* status === 'error' && <p>Connection failed. ...</p> *)
  view_error : bool
}.

Definition render (u : Ui) : View :=
  {| view_activity := if isConnected u then Some (isSpeaking u) else None;
     view_image := liveImage u;
     view_banner :=
       if isProcessingTool u then
         Some (if truthy (toolStatus u) then toolStatus u else "Processing...")
       else None;
     view_button :=
       if negb (isConnected u) then
         match status u with
         | Connecting => StartButton true "Connecting..."
         | _ => StartButton false "Start Conversation"
         end
       else EndButton;
     view_error := match status u with Error => true | _ => false end |}.

(** [startSession] up to its [await]: the status, the two audio contexts,
    the cursor and the call of [getUserMedia], inside the [try].  The
    function is suspended there, and other callbacks can run before it goes
    on. *)
Definition startSession_begin (env : Env) : M unit :=
  try_catch
    (setStatus Connecting ;;
     out ← fresh;
     modify_refs (set_audioContextRef (Some out)) ;;
     inp ← fresh;
     modify_refs (set_inputContextRef (Some inp)) ;;
     modify_refs (set_nextStartTimeRef (currentTime env)) ;;
     emit EvGetUserMedia)
    (fun _ => cleanup ;; setStatus Error).

(** [startSession] from its [await] on, once the promise of [getUserMedia]
    has settled: the stream, the client and the connection, inside the same
    [try]. *)
Definition startSession_resume (env : Env) : M unit :=
  try_catch
    (stream ← (if getUserMedia env then fresh else throw ExnCapture);
     modify_refs (set_streamRef (Some stream)) ;;
     new_GoogleGenAI env ;;
     sessionPromise ← fresh;
     emit (EvLiveConnect sessionPromise) ;;
     modify_refs (set_sessionRef (Some sessionPromise)))
    (fun _ => cleanup ;; setStatus Error).

(** A click on the button as rendered from the state: on the start button,
    unless it is disabled, the call of [startSession], which returns to the
    browser at its [await]; on End Session, [cleanup]. *)
Definition click_button (env : Env) : M unit := fun w =>
  match view_button (render (ui w)) with
  | StartButton false _ => startSession_begin env w
  | StartButton true _ => MkOut (Ret tt) w []
  | EndButton => cleanup w
  end.

(** A click on the close button of the image card, which is there only while
    an image is shown: [setLiveImage(null)]. *)
Definition click_close_image : M unit := fun w =>
  match view_image (render (ui w)) with
  | Some _ => setLiveImage None w
  | None => MkOut (Ret tt) w []
  end.

(** Everything that can happen to a mounted component: the user clicks, the
    promise of [getUserMedia] that a [startSession] waits for settles, the
    transport opens, or an event reaches the component.  Which starts are
    waiting is not tracked: a settlement may come at any point, which only
    adds sequences to those the browser can produce. *)
Inductive Action :=
| ClickButton (env : Env)
| MicrophoneSettles (env : Env)
| ClickCloseImage
| TransportOpen
| Deliver (i : Inbound).

Definition perform (a : Action) : M unit :=
  match a with
  | ClickButton env => click_button env
  | MicrophoneSettles env => startSession_resume env
  | ClickCloseImage => click_close_image
  | TransportOpen => onopen
  | Deliver i => deliver i
  end.

(** Actions one after the other, each one from where it is called to where
    it returns or is suspended. *)
Fixpoint session_run (actions : list Action) (w : World) : World * list Event :=
  match actions with
  | [] => (w, [])
  | a :: rest =>
      let o := perform a w in
      let r := session_run rest (world o) in
      (fst r, events o ++ snd r)
  end.

(** ** Vocabulary of the further properties *)

(** The three texts [generateImageFromVoice] returns. *)
Definition image_success : string := "Image generated and displayed successfully.".
Definition image_missing : string := "Failed to generate image.".
Definition image_error : string := "Error occurred while generating image.".

(** The state after [onopen]: connected, and the capture armed with two
    fresh nodes when the input context is there. *)
Definition opened (w : World) : World :=
  {| refs :=
       match inputContextRef (refs w) with
       | None => refs w
       | Some _ =>
           set_processorRef (Some (S (nextId w)))
             (set_sourceRef (Some (nextId w)) (refs w))
       end;
     ui := {| isConnected := true; isSpeaking := isSpeaking (ui w);
              status := Connected; liveImage := liveImage (ui w);
              isProcessingTool := isProcessingTool (ui w);
              toolStatus := toolStatus (ui w) |};
     storage := storage w;
     nextId := match inputContextRef (refs w) with
               | None => nextId w
               | Some _ => S (S (nextId w))
               end |}.

(** The connection flag agrees with the status. *)
Definition flags_agree (w : World) : Prop :=
  isConnected (ui w) = true <-> status (ui w) = Connected.

(** The state in which [startSession] is suspended: two new handles (output
    context, input context), the cursor at the clock, status [Connecting]. *)
Definition begun (env : Env) (w : World) : World :=
  {| refs :=
       set_nextStartTimeRef (currentTime env)
         (set_inputContextRef (Some (1 + nextId w)%nat)
            (set_audioContextRef (Some (nextId w)) (refs w)));
     ui := {| isConnected := isConnected (ui w); isSpeaking := isSpeaking (ui w);
              status := Connecting; liveImage := liveImage (ui w);
              isProcessingTool := isProcessingTool (ui w);
              toolStatus := toolStatus (ui w) |};
     storage := storage w;
     nextId := (2 + nextId w)%nat |}.

(** The state after [startSession] has gone on from its [await] with the
    microphone and the client: two new handles (stream, session promise). *)
Definition resumed (w : World) : World :=
  {| refs :=
       set_sessionRef (Some (1 + nextId w)%nat)
         (set_streamRef (Some (nextId w)) (refs w));
     ui := ui w;
     storage := storage w;
     nextId := (2 + nextId w)%nat |}.

(** The sources started, stopped by the teardown, and reported as ended. *)
Definition started_source (e : Event) : option nat :=
  match e with EvPlaybackStart src _ _ => Some src | _ => None end.

Definition stopped_source (e : Event) : option nat :=
  match e with EvPlaybackStop src => Some src | _ => None end.

Definition ended_source (i : Inbound) : option nat :=
  match i with InEnded src => Some src | _ => None end.

(** Every buffer the environment decodes for a delivered message has a
    duration that is not negative. *)
Definition sound_durations (i : Inbound) : Prop :=
  match i with
  | InMessage env _ =>
      forall data b, decodeAudioData env data = Some b -> (0 <= duration b)%Z
  | _ => True
  end.

(** The names of a list in the order of their first occurrence, leaving out
    those in [seen]: the order in which a [Map] keeps keys set one after the
    other. *)
Fixpoint first_occurrences (seen : list string) (names : list string) : list string :=
  match names with
  | [] => []
  | n :: rest =>
      if bool_decide (n ∈ seen) then first_occurrences seen rest
      else n :: first_occurrences (n :: seen) rest
  end.

(** The result texts sent among some calls. *)
Definition sent_result (e : Event) : option string :=
  match e with EvSendToolResponse _ _ result => Some result | _ => None end.

(** The state after a [startSession] that got the microphone and the client:
    four new handles (output context, input context, stream, session
    promise), the cursor at the clock, status [Connecting]. *)
Definition started (env : Env) (w : World) : World :=
  {| refs :=
       set_sessionRef (Some (3 + nextId w)%nat)
         (set_streamRef (Some (2 + nextId w)%nat)
            (set_nextStartTimeRef (currentTime env)
               (set_inputContextRef (Some (1 + nextId w)%nat)
                  (set_audioContextRef (Some (nextId w)) (refs w)))));
     ui := {| isConnected := isConnected (ui w); isSpeaking := isSpeaking (ui w);
              status := Connecting; liveImage := liveImage (ui w);
              isProcessingTool := isProcessingTool (ui w);
              toolStatus := toolStatus (ui w) |};
     storage := storage w;
     nextId := (4 + nextId w)%nat |}.

(** A computation that leaves a given part of the state as it found it. *)
Definition preserves {A B} (part : World -> B) (m : M A) : Prop :=
  forall w, part (world (m w)) = part w.

(** The action is a message with a call of the code tool. *)
Definition calls_code_tool (a : Action) : Prop :=
  match a with
  | Deliver (InMessage _ msg) =>
      exists fc, fc ∈ default [] (toolCall msg) /\ fc_name fc = "generate_code"
  | _ => False
  end.

(** A message with one call of the image tool, for the examples. *)
Definition image_only_message : LiveServerMessage :=
  {| toolCall := Some [image_call "x1" "a cat"]; audioData := Some "pcm";
     turnComplete := true |}.

(** * Properties *)

(** ** Reduction of the monad *)

(** Unfold the sequencing of callbacks and compute. *)
Ltac m_simpl :=
  unfold mbind, M_bind, m_bind, mret, M_ret, m_ret; cbn.

Lemma for_of_emit {A} (f : A -> Event) (l : list A) (w : World) :
  for_of l (fun x => emit (f x)) w = MkOut (Ret tt) w (f <$> l).
Proof.
  induction l as [|x l IH]; [reflexivity|].
  cbn [for_of]. m_simpl. rewrite IH. reflexivity.
Qed.

Lemma filter_owned_stops (l : list nat) :
  List.filter owned_release (EvPlaybackStop <$> l) = EvPlaybackStop <$> l.
Proof. induction l as [|x l IH]; cbn; [reflexivity | now rewrite IH]. Qed.

(** ** Stepping through a callback *)

Lemma runs_bind {A B} (m : M A) (f : A -> M B) w a w1 e1 b w2 e2 :
  runs m w a w1 e1 -> runs (f a) w1 b w2 e2 -> runs (m ≫= f) w b w2 (e1 ++ e2).
Proof. unfold runs. intros H1 H2. m_simpl. rewrite H1. cbn. rewrite H2. reflexivity. Qed.

Lemma bind_out {A B} (m : M A) (f : A -> M B) w :
  (m ≫= f) w =
  match res (m w) with
  | Ret a => MkOut (res (f a (world (m w)))) (world (f a (world (m w))))
               (events (m w) ++ events (f a (world (m w))))
  | Throw e => MkOut (Throw e) (world (m w)) (events (m w))
  end.
Proof. reflexivity. Qed.

Lemma runs_ret {A} (a : A) w : runs (mret a) w a w [].
Proof. reflexivity. Qed.

Lemma runs_emit e w : runs (emit e) w tt w [e].
Proof. reflexivity. Qed.

Lemma runs_get_refs w : runs get_refs w (refs w) w [].
Proof. reflexivity. Qed.

Lemma runs_modify_refs f w :
  runs (modify_refs f) w tt
       {| refs := f (refs w); ui := ui w; storage := storage w; nextId := nextId w |} [].
Proof. reflexivity. Qed.

Lemma runs_modify_ui f w :
  runs (modify_ui f) w tt
       {| refs := refs w; ui := f (ui w); storage := storage w; nextId := nextId w |} [].
Proof. reflexivity. Qed.

Lemma runs_for_of_emit {A} (f : A -> Event) (l : list A) w :
  runs (for_of l (fun x => emit (f x))) w tt w (f <$> l).
Proof. apply for_of_emit. Qed.

Lemma runs_release get call clear w :
  (get (refs w) = None -> clear (refs w) = refs w) ->
  runs (release get call clear) w tt
       {| refs := clear (refs w); ui := ui w; storage := storage w; nextId := nextId w |}
       (option_list (call <$> get (refs w))).
Proof.
  intros Hclear. unfold runs, release. m_simpl.
  destruct (get (refs w)) as [h|] eqn:Hget; cbn; [reflexivity|].
  rewrite Hclear by reflexivity. now destruct w.
Qed.

(** ** Teardown *)

Lemma filter_owned_option (call : Handle -> Event) (o : option Handle) :
  (forall h, owned_release (call h) = true) ->
  List.filter owned_release (option_list (call <$> o)) = option_list (call <$> o).
Proof. intros H. destruct o as [h|]; cbn; [now rewrite H | reflexivity]. Qed.

Lemma cleanup_runs (w : World) : runs cleanup w tt (cleaned w) (cleanup_calls (refs w)).
Proof.
  destruct w as [[s a i st p so nst sch an] u sto n].
  assert (Hanim : runs (if Nat.eqb an 0 then mret tt
                        else emit (EvCancelAnimationFrame an))
                    {| refs := {| sessionRef := None; audioContextRef := None;
                                  inputContextRef := None; streamRef := None;
                                  processorRef := None; sourceRef := None;
                                  nextStartTimeRef := nst; scheduledSources := sch;
                                  animRef := an |};
                       ui := u; storage := sto; nextId := n |} tt
                    {| refs := {| sessionRef := None; audioContextRef := None;
                                  inputContextRef := None; streamRef := None;
                                  processorRef := None; sourceRef := None;
                                  nextStartTimeRef := nst; scheduledSources := sch;
                                  animRef := an |};
                       ui := u; storage := sto; nextId := n |}
                    (if Nat.eqb an 0 then [] else [EvCancelAnimationFrame an])).
  { destruct an; reflexivity. }
  enough (H : exists w' evs,
             runs cleanup
               {| refs := {| sessionRef := s; audioContextRef := a;
                             inputContextRef := i; streamRef := st;
                             processorRef := p; sourceRef := so;
                             nextStartTimeRef := nst; scheduledSources := sch;
                             animRef := an |};
                  ui := u; storage := sto; nextId := n |} tt w' evs /\
             w' = cleaned
               {| refs := {| sessionRef := s; audioContextRef := a;
                             inputContextRef := i; streamRef := st;
                             processorRef := p; sourceRef := so;
                             nextStartTimeRef := nst; scheduledSources := sch;
                             animRef := an |};
                  ui := u; storage := sto; nextId := n |} /\
             evs = cleanup_calls
               {| sessionRef := s; audioContextRef := a;
                  inputContextRef := i; streamRef := st;
                  processorRef := p; sourceRef := so;
                  nextStartTimeRef := nst; scheduledSources := sch;
                  animRef := an |})
    by (destruct H as (? & ? & H & -> & ->); exact H).
  eexists _, _. split; [|split].
  - unfold cleanup, setIsConnected, setStatus, setIsSpeaking, setLiveImage,
      setIsProcessingTool.
    repeat (eapply runs_bind;
            [ first [ apply runs_release; cbn; intros ->; reflexivity
                    | apply runs_get_refs
                    | exact Hanim
                    | apply runs_for_of_emit
                    | apply runs_modify_refs
                    | apply runs_modify_ui ] | cbn ]).
    apply runs_modify_ui.
  - reflexivity.
  - unfold cleanup_calls. cbn. rewrite ?app_nil_r. reflexivity.
Qed.

Lemma cleanup_spec (w : World) :
  res (cleanup w) = Ret tt /\
  world (cleanup w) = cleaned w /\
  events (cleanup w) = cleanup_calls (refs w) /\
  List.filter owned_release (events (cleanup w)) = held (refs w).
Proof.
  rewrite (cleanup_runs w). cbn [res world events]. repeat split.
  unfold cleanup_calls, held. rewrite !List.filter_app, filter_owned_stops.
  rewrite !filter_owned_option by reflexivity.
  destruct (Nat.eqb (animRef (refs w)) 0); reflexivity.
Qed.

Lemma cleaned_torn_down (w : World) : torn_down (cleaned w).
Proof. repeat split. Qed.

Lemma torn_down_cleaned (w : World) : torn_down w -> cleaned w = w.
Proof.
  destruct w as [[s a i st p so nst sch an] [c sp stt li pt ts] sto n].
  unfold torn_down, released, cleaned; cbn.
  intros [(-> & -> & -> & -> & -> & -> & ->) (-> & -> & -> & -> & ->)].
  reflexivity.
Qed.

Lemma held_released (r : Refs) : released r -> held r = [].
Proof.
  destruct r as [s a i st p so nst sch an]. unfold released, held; cbn.
  intros (-> & -> & -> & -> & -> & -> & ->). now rewrite elements_empty.
Qed.

Lemma NoDup_held (r : Refs) : NoDup (held r).
Proof.
  assert (Hstops : NoDup (EvPlaybackStop <$> elements (scheduledSources r))).
  { apply NoDup_fmap_2; [intros x y; congruence | apply NoDup_elements]. }
  assert (Hnot : forall e, owned_release e = true ->
            (forall s, e <> EvPlaybackStop s) ->
            e ∉ EvPlaybackStop <$> elements (scheduledSources r)).
  { intros e _ He Hin. apply list_elem_of_fmap in Hin as (s & -> & _).
    now apply (He s). }
  destruct r as [s a i st p so nst sch an]; unfold held; cbn in *.
  destruct s, a, i, st, p, so; cbn;
    repeat (apply NoDup_cons; split;
            [rewrite ?elem_of_cons; intros Hin;
             repeat (destruct Hin as [Hin|Hin]; [discriminate|]);
             revert Hin; apply Hnot; [reflexivity | discriminate] | ]);
    exact Hstops.
Qed.

Lemma stop_times_torn_down (n : nat) (w : World) :
  torn_down w ->
  fst (stop_times n w) = w /\ List.filter owned_release (snd (stop_times n w)) = [].
Proof.
  intros Hw. induction n as [|n [IHw IHe]]; [split; reflexivity|].
  destruct (cleanup_spec w) as (_ & Hworld & _ & Hev).
  cbn [stop_times fst snd]. rewrite Hworld, (torn_down_cleaned w Hw).
  split; [exact IHw|].
  rewrite List.filter_app, Hev, IHe, (held_released _ (proj1 Hw)). reflexivity.
Qed.

(** C4. Teardown is idempotent.  From any state, however partially set up,
    [cleanup] returns normally; calling it [n >= 1] times ends in the state
    one call ends in, which is torn down with status [Disconnected]; over all
    [n] calls the release calls made are exactly those owed for the resources
    held at the start, each once; and on a torn-down state [cleanup] changes
    nothing and releases nothing. *)
Theorem C4_stop_idempotent (w : World) (n : nat) :
  (1 <= n)%nat ->
  res (cleanup w) = Ret tt /\
  fst (stop_times n w) = world (cleanup w) /\
  torn_down (fst (stop_times n w)) /\
  status (ui (fst (stop_times n w))) = Disconnected /\
  List.filter owned_release (snd (stop_times n w)) = held (refs w) /\
  NoDup (held (refs w)) /\
  (torn_down w ->
   world (cleanup w) = w /\ List.filter owned_release (events (cleanup w)) = []).
Proof.
  intros Hn. destruct n as [|n]; [lia|].
  destruct (cleanup_spec w) as (Hres & Hworld & _ & Hev).
  destruct (stop_times_torn_down n (cleaned w) (cleaned_torn_down w)) as [Hw' Hev'].
  cbn [stop_times fst snd]. rewrite Hworld, Hw'.
  repeat split; try reflexivity.
  - exact Hres.
  - rewrite List.filter_app, Hev, Hev'. apply app_nil_r.
  - apply NoDup_held.
  - rewrite torn_down_cleaned; auto.
  - rewrite Hev. apply held_released, H.
Qed.

Lemma C4_stop_idempotent_witness :
  (1 <= 3)%nat /\
  fst (stop_times 3 playing_world) = world (cleanup playing_world) /\
  List.filter owned_release (snd (stop_times 3 playing_world))
    = held (refs playing_world).
Proof.
  split; [lia|].
  destruct (C4_stop_idempotent playing_world 3) as (_ & H1 & _ & _ & H2 & _);
    [lia|]. split; assumption.
Defined.

(** ** Tool dispatch leaves the session alone and never throws *)

Section Frame.
Context {A B : Type} (P : Event -> bool).

Lemma quiet_ret (a : A) : quiet P (mret a : M A).
Proof. intros w. split; [reflexivity | constructor]. Qed.

Lemma quiet_throw (e : Exn) : quiet P (throw e : M A).
Proof. intros w. split; [reflexivity | constructor]. Qed.

Lemma quiet_bind (m : M A) (f : A -> M B) :
  quiet P m -> (forall a, quiet P (f a)) -> quiet P (m ≫= f).
Proof.
  intros Hm Hf w. destruct (Hm w) as [Hv He]. rewrite bind_out.
  destruct (res (m w)) as [a|e]; cbn; [|split; assumption].
  destruct (Hf a (world (m w))) as [Hv' He']. split.
  - now rewrite Hv'.
  - apply Forall_app; split; assumption.
Qed.

Lemma quiet_try_catch (body : M A) (handler : Exn -> M A) :
  quiet P body -> (forall e, quiet P (handler e)) -> quiet P (try_catch body handler).
Proof.
  intros Hm Hf w. destruct (Hm w) as [Hv He]. unfold try_catch.
  destruct (res (body w)) as [a|e]; cbn; [split; assumption|].
  destruct (Hf e (world (body w))) as [Hv' He']. split.
  - now rewrite Hv'.
  - apply Forall_app; split; assumption.
Qed.

Lemma quiet_try_finally (body : M A) (fin : M unit) :
  quiet P body -> quiet P fin -> quiet P (try_finally body fin).
Proof.
  intros Hm Hf w. destruct (Hm w) as [Hv He]. unfold try_finally; cbn.
  destruct (Hf (world (body w))) as [Hv' He']. split.
  - now rewrite Hv'.
  - apply Forall_app; split; assumption.
Qed.

Lemma quiet_weaken (Q : Event -> bool) (m : M A) :
  (forall e, P e = true -> Q e = true) -> quiet P m -> quiet Q m.
Proof.
  intros HPQ Hm w. destruct (Hm w) as [Hv He]. split; [assumption|].
  eapply Forall_impl; [exact He | exact HPQ].
Qed.

Lemma total_ret (a : A) : total (mret a : M A).
Proof. intros w. now exists a. Qed.

Lemma total_bind (m : M A) (f : A -> M B) :
  total m -> (forall a, total (f a)) -> total (m ≫= f).
Proof.
  intros Hm Hf w. destruct (Hm w) as [a Ha]. rewrite bind_out, Ha.
  destruct (Hf a (world (m w))) as [b Hb]. now exists b.
Qed.

Lemma total_try_catch (body : M A) (handler : Exn -> M A) :
  (forall e, total (handler e)) -> total (try_catch body handler).
Proof.
  intros Hf w. unfold try_catch.
  destruct (res (body w)) as [a|e] eqn:Hr; [now exists a|].
  destruct (Hf e (world (body w))) as [b Hb]. now exists b.
Qed.

Lemma total_try_finally (body : M A) (fin : M unit) :
  total body -> total fin -> total (try_finally body fin).
Proof.
  intros Hm Hf w. unfold try_finally; cbn.
  destruct (Hm w) as [a Ha]. destruct (Hf (world (body w))) as [[] Hb].
  exists a. now rewrite Hb.
Qed.

End Frame.

Lemma quiet_emit P (e : Event) : P e = true -> quiet P (emit e).
Proof. intros He w. split; [reflexivity | now repeat constructor]. Qed.

Lemma quiet_get_storage P : quiet P get_storage.
Proof. intros w. split; [reflexivity | constructor]. Qed.

Lemma quiet_modify_storage P (f : Storage -> Storage) : quiet P (modify_storage f).
Proof. intros w. split; [reflexivity | constructor]. Qed.

Lemma quiet_setLiveImage P (v : option LiveImage) : quiet P (setLiveImage v).
Proof. intros w. split; [reflexivity | constructor]. Qed.

Lemma quiet_setIsProcessingTool P (v : bool) : quiet P (setIsProcessingTool v).
Proof. intros w. split; [reflexivity | constructor]. Qed.

Lemma quiet_setToolStatus P (v : string) : quiet P (setToolStatus v).
Proof. intros w. split; [reflexivity | constructor]. Qed.

Lemma total_modify_ui (f : Ui -> Ui) : total (modify_ui f).
Proof. intros w. now exists tt. Qed.

Lemma total_emit (e : Event) : total (emit e).
Proof. intros w. now exists tt. Qed.

Create HintDb frame.
#[local] Hint Resolve quiet_ret quiet_throw quiet_get_storage quiet_modify_storage
  quiet_setLiveImage quiet_setIsProcessingTool quiet_setToolStatus
  total_ret total_modify_ui total_emit : frame.

(** Walk through a handler body, one construct at a time. *)
Ltac frame_step :=
  match goal with
  | |- forall _, _ => intro
  | |- quiet _ (_ ≫= _) => apply quiet_bind
  | |- quiet _ (try_catch _ _) => apply quiet_try_catch
  | |- quiet _ (try_finally _ _) => apply quiet_try_finally
  | |- quiet _ (emit _) => apply quiet_emit; reflexivity
  | |- total (_ ≫= _) => apply total_bind
  | |- total (try_catch _ _) => apply total_try_catch
  | |- total (try_finally _ _) => apply total_try_finally
  | |- quiet _ (match ?x with _ => _ end) => destruct x
  | |- total (match ?x with _ => _ end) => destruct x
  | |- _ => solve [auto with frame]
  end.

Ltac frame := cbv zeta; repeat frame_step.

Lemma quiet_generateImageFromVoice env prompt :
  quiet request_event (generateImageFromVoice env prompt).
Proof.
  unfold generateImageFromVoice, new_GoogleGenAI, models_generateContent. frame.
Qed.

Lemma total_generateImageFromVoice env prompt : total (generateImageFromVoice env prompt).
Proof. unfold generateImageFromVoice, setToolStatus, setIsProcessingTool. frame. Qed.

Lemma quiet_generateCodeFromVoice env description :
  quiet request_event (generateCodeFromVoice env description).
Proof.
  unfold generateCodeFromVoice, generateCode_try, new_GoogleGenAI,
    models_generateContent, loadFromHistory_files, loadFromHistory_chat, saveToHistory_files,
    saveToHistory_chat, history_call, parse, get_files.
  frame.
Qed.

Lemma total_generateCodeFromVoice env description :
  total (generateCodeFromVoice env description).
Proof.
  unfold generateCodeFromVoice, generateCode_try, setToolStatus, setIsProcessingTool.
  frame.
Qed.

(** The handler chosen for a function call, or the default result. *)
Lemma quiet_handler env fc :
  quiet request_event
    (if String.eqb (fc_name fc) "generate_image" then
       generateImageFromVoice env (fc_args fc !! "prompt")
     else if String.eqb (fc_name fc) "generate_code" then
       generateCodeFromVoice env (fc_args fc !! "description")
     else mret "Tool execution failed").
Proof.
  repeat case_match; auto using quiet_generateImageFromVoice,
    quiet_generateCodeFromVoice with frame.
Qed.

Lemma total_handler env fc :
  total
    (if String.eqb (fc_name fc) "generate_image" then
       generateImageFromVoice env (fc_args fc !! "prompt")
     else if String.eqb (fc_name fc) "generate_code" then
       generateCodeFromVoice env (fc_args fc !! "description")
     else mret "Tool execution failed").
Proof.
  repeat case_match; auto using total_generateImageFromVoice,
    total_generateCodeFromVoice with frame.
Qed.

(** One function call: the handler's requests, then the one send of its
    result under the name and id of the call. *)
Lemma handle_function_call_out env fc w :
  exists result w1 reqs,
    runs (handle_function_call env fc) w tt w1
         (reqs ++ [EvSendToolResponse (fc_name fc) (fc_id fc) result]) /\
    Forall (fun e => request_event e = true) reqs /\
    session_view w1 = session_view w.
Proof.
  destruct (total_handler env fc w) as [result Hr].
  destruct (quiet_handler env fc w) as [Hv He].
  unfold runs, handle_function_call. rewrite bind_out, Hr. cbn.
  eexists result, _, _. repeat split; assumption.
Qed.

Lemma quiet_handle_function_call env fc : quiet tool_event (handle_function_call env fc).
Proof.
  intros w. destruct (handle_function_call_out env fc w) as (r & w1 & reqs & Hrun & He & Hv).
  unfold runs in Hrun. rewrite Hrun. cbn. split; [assumption|].
  apply Forall_app. split.
  - eapply Forall_impl; [exact He|]. now intros [].
  - now repeat constructor.
Qed.

Lemma total_handle_function_call env fc : total (handle_function_call env fc).
Proof.
  intros w. destruct (handle_function_call_out env fc w) as (r & w1 & reqs & Hrun & _).
  unfold runs in Hrun. rewrite Hrun. now exists tt.
Qed.

Lemma quiet_for_of {A} P (l : list A) (body : A -> M unit) :
  (forall x, quiet P (body x)) -> quiet P (for_of l body).
Proof.
  intros Hb. induction l as [|x l IH]; cbn [for_of]; [apply quiet_ret|].
  apply quiet_bind; auto.
Qed.

Lemma total_for_of {A} (l : list A) (body : A -> M unit) :
  (forall x, total (body x)) -> total (for_of l body).
Proof.
  intros Hb. induction l as [|x l IH]; cbn [for_of]; [apply total_ret|].
  apply total_bind; auto.
Qed.

(** ** The playback scheduler *)

Lemma play_ok env data b w :
  decodeAudioData env data = Some b ->
  runs (play env data) w tt (after_play env b w)
       [EvPlaybackStart (nextId w)
          (Z.max (nextStartTimeRef (refs w)) (currentTime env)) (duration b)].
Proof.
  intros Hb. destruct w as [r u sto n]. unfold runs, play, decode. rewrite Hb.
  reflexivity.
Qed.

Lemma play_bad env data w :
  decodeAudioData env data = None ->
  play env data w = MkOut (Throw ExnDecode) (after_failed_play env w) [].
Proof.
  intros Hb. destruct w as [r u sto n]. unfold play, decode. rewrite Hb.
  reflexivity.
Qed.

Lemma schedule_audio_chunk env msg w :
  schedule_audio env msg w =
  match chunk_of msg w with
  | Some data => play env data w
  | None => MkOut (Ret tt) w []
  end.
Proof.
  unfold schedule_audio, chunk_of. m_simpl.
  destruct (audioData msg) as [data|], (audioContextRef (refs w)) as [ctx|];
    try reflexivity.
  destruct (truthy data); [|reflexivity].
  now destruct (play env data w) as [[]].
Qed.

Lemma finish_turn_out msg w :
  finish_turn msg w =
  MkOut (Ret tt)
    (if turnComplete msg then
       {| refs := refs w;
          ui := {| isConnected := isConnected (ui w); isSpeaking := false;
                   status := status (ui w); liveImage := liveImage (ui w);
                   isProcessingTool := isProcessingTool (ui w);
                   toolStatus := toolStatus (ui w) |};
          storage := storage w; nextId := nextId w |}
     else w) [].
Proof. unfold finish_turn. now destruct (turnComplete msg). Qed.

Lemma dispatch_tool_calls_runs env msg w :
  exists w1 evs,
    runs (dispatch_tool_calls env msg) w tt w1 evs /\
    session_view w1 = session_view w /\
    Forall (fun e => tool_event e = true) evs.
Proof.
  assert (Hq : quiet tool_event (dispatch_tool_calls env msg)).
  { unfold dispatch_tool_calls. destruct (toolCall msg);
      [apply quiet_for_of, quiet_handle_function_call | apply quiet_ret]. }
  assert (Ht : total (dispatch_tool_calls env msg)).
  { unfold dispatch_tool_calls. destruct (toolCall msg);
      [apply total_for_of, total_handle_function_call | apply total_ret]. }
  destruct (Hq w) as [Hv He], (Ht w) as [[] Hr]. unfold runs.
  destruct (dispatch_tool_calls env msg w) as [r w1 evs]; cbn in *.
  exists w1, evs. now subst r.
Qed.

Lemma starts_tool_events evs :
  Forall (fun e => tool_event e = true) evs -> starts evs = [].
Proof.
  induction 1 as [|e evs He _ IH]; [reflexivity|].
  unfold starts in *. cbn. rewrite IH. now destruct e.
Qed.

(** [onmessage], one block after the other: the tool calls always return and
    lead to [w1]; then the chunk, if any, is played from [w1]. *)
Lemma onmessage_out env msg w :
  exists w1 evs,
    runs (dispatch_tool_calls env msg) w tt w1 evs /\
    session_view w1 = session_view w /\
    Forall (fun e => tool_event e = true) evs /\
    onmessage env msg w =
    match chunk_of msg w1 with
    | None => MkOut (Ret tt) (world (finish_turn msg w1)) evs
    | Some data =>
        match decodeAudioData env data with
        | Some b =>
            MkOut (Ret tt) (world (finish_turn msg (after_play env b w1)))
              (evs ++ [EvPlaybackStart (nextId w1)
                         (Z.max (nextStartTimeRef (refs w1)) (currentTime env))
                         (duration b)])
        | None => MkOut (Throw ExnDecode) (after_failed_play env w1) evs
        end
    end.
Proof.
  destruct (dispatch_tool_calls_runs env msg w) as (w1 & evs & Hrun & Hv & He).
  exists w1, evs. repeat split; try assumption.
  pose proof Hrun as Hd. unfold runs in Hd.
  unfold onmessage. rewrite bind_out, Hd. cbn [res world events].
  rewrite bind_out, schedule_audio_chunk.
  destruct (chunk_of msg w1) as [data|]; cbn [res world events].
  - destruct (decodeAudioData env data) as [b|] eqn:Hb.
    + pose proof (play_ok env data b w1 Hb) as Hp. unfold runs in Hp.
      rewrite Hp. cbn [res world events].
      rewrite finish_turn_out. cbn [res world events].
      now rewrite app_nil_r.
    + rewrite (play_bad env data w1 Hb). cbn [res world events].
      now rewrite app_nil_r.
  - rewrite finish_turn_out. cbn [res world events]. now rewrite app_nil_r.
Qed.

Lemma session_view_refs w1 w : session_view w1 = session_view w -> refs w1 = refs w.
Proof. unfold session_view. congruence. Qed.

Lemma session_view_inv w1 w :
  session_view w1 = session_view w ->
  refs w1 = refs w /\ isConnected (ui w1) = isConnected (ui w) /\
  isSpeaking (ui w1) = isSpeaking (ui w) /\ status (ui w1) = status (ui w).
Proof. unfold session_view. intros H. now injection H. Qed.

Lemma chunk_of_view msg w1 w :
  session_view w1 = session_view w -> chunk_of msg w1 = chunk_of msg w.
Proof. intros H. unfold chunk_of. now rewrite (session_view_refs _ _ H). Qed.

Lemma finish_turn_refs msg w : refs (world (finish_turn msg w)) = refs w.
Proof. rewrite finish_turn_out. cbn. now destruct (turnComplete msg). Qed.

(** What one message does to the cursor: either nothing is started and the
    cursor does not go back, or one source is started at the larger of cursor
    and clock and the cursor is put at its end. *)
Lemma onmessage_cursor env msg w :
  let o := onmessage env msg w in
  let c := nextStartTimeRef (refs w) in
  (starts (events o) = [] /\ (c <= nextStartTimeRef (refs (world o)))%Z) \/
  (exists d, starts (events o) = [(Z.max c (currentTime env), d)] /\
             nextStartTimeRef (refs (world o)) = (Z.max c (currentTime env) + d)%Z).
Proof.
  cbv zeta. destruct (onmessage_out env msg w) as (w1 & evs & _ & Hv & He & ->).
  apply session_view_refs in Hv as Hr. rewrite <- Hr.
  apply starts_tool_events in He.
  destruct (chunk_of msg w1) as [data|]; [destruct (decodeAudioData env data) as [b|]|];
    cbn [events world].
  - right. exists (duration b). unfold starts in *. rewrite omap_app, He.
    split; [reflexivity|]. now rewrite finish_turn_refs.
  - left. split; [assumption|]. cbn. lia.
  - left. split; [assumption|]. rewrite finish_turn_refs. lia.
Qed.

Lemma onended_out source w :
  onended source w = MkOut (Ret tt) (after_ended source w) [].
Proof.
  destruct w as [r [c sp stt li pt ts] sto n]. unfold onended, after_ended.
  m_simpl. destruct (bool_decide _); reflexivity.
Qed.

Lemma onerror_out w :
  onerror w = MkOut (Ret tt) (errored w) (cleanup_calls (refs w)).
Proof.
  unfold onerror. rewrite bind_out. pose proof (cleanup_runs w) as Hc.
  unfold runs in Hc. rewrite Hc. cbn. now rewrite app_nil_r.
Qed.

Lemma starts_cleanup_calls r : starts (cleanup_calls r) = [].
Proof.
  unfold starts, cleanup_calls. rewrite !omap_app, !omap_option_list.
  destruct (sessionRef r), (processorRef r), (sourceRef r), (streamRef r),
    (inputContextRef r), (audioContextRef r), (Nat.eqb (animRef r) 0); cbn;
    induction (elements (scheduledSources r)); auto.
Qed.

(** What one delivered event does to the cursor. *)
Lemma deliver_cursor i w :
  let o := deliver i w in
  let c := nextStartTimeRef (refs w) in
  (starts (events o) = [] /\ (c <= nextStartTimeRef (refs (world o)))%Z) \/
  (exists s d, starts (events o) = [(s, d)] /\ (c <= s)%Z /\
               nextStartTimeRef (refs (world o)) = (s + d)%Z).
Proof.
  destruct i as [env msg|source| | |]; cbn [deliver]; cbv zeta.
  - destruct (onmessage_cursor env msg w) as [H|(d & H1 & H2)]; [now left|].
    right. eexists _, d. repeat split; [exact H1 | lia | exact H2].
  - left. rewrite onended_out. cbn. split; [reflexivity | lia].
  - left. unfold onclose. pose proof (cleanup_runs w) as Hc. unfold runs in Hc.
    rewrite Hc. cbn. split; [apply starts_cleanup_calls | lia].
  - left. rewrite onerror_out. cbn. split; [apply starts_cleanup_calls | lia].
  - left. pose proof (cleanup_runs w) as Hc. unfold runs in Hc.
    rewrite Hc. cbn. split; [apply starts_cleanup_calls | lia].
Qed.

Lemma gapless_from_le c c' l : (c <= c')%Z -> gapless_from c' l -> gapless_from c l.
Proof. destruct l as [|[s d] l]; cbn; [auto|]. intros Hc [Hs Hl]. split; [lia|auto]. Qed.

Lemma run_gapless inbound w :
  gapless_from (nextStartTimeRef (refs w)) (starts (snd (run inbound w))).
Proof.
  revert w. induction inbound as [|i rest IH]; intros w; [exact I|].
  cbn [run snd]. unfold starts. rewrite omap_app. fold (starts (events (deliver i w))).
  fold (starts (snd (run rest (world (deliver i w))))).
  specialize (IH (world (deliver i w))).
  destruct (deliver_cursor i w) as [[-> Hc]|(s & d & -> & Hs & Hc)]; cbn.
  - eapply gapless_from_le; eassumption.
  - split; [assumption|]. now rewrite <- Hc.
Qed.

Lemma gapless_lookup c l i s d s' d' :
  gapless_from c l ->
  l !! i = Some (s, d) -> l !! S i = Some (s', d') -> (s + d <= s')%Z.
Proof.
  revert c i. induction l as [|[s0 d0] l IH]; intros c i Hg Hi Hj; [discriminate|].
  destruct Hg as [_ Hg]. destruct i as [|i]; cbn in Hi, Hj.
  - injection Hi as -> ->. destruct l as [|[s1 d1] l]; [discriminate|].
    injection Hj as -> ->. apply Hg.
  - eapply IH; eassumption.
Qed.

(** C1. Gapless, non-overlapping playback.  (1) A message whose chunk is
    played and decodes to [b] starts exactly one source, at
    [max (cursor, clock)] with the cursor and the clock as the handler reads
    them, which is not before the clock, and leaves the cursor at the end of
    that chunk.  (2) Over any sequence of events handled in arrival order in
    one session, each start is at or after the start of the one before plus
    its duration. *)
Theorem C1_gapless_schedule :
  (forall env msg w data b,
     chunk_of msg w = Some data ->
     decodeAudioData env data = Some b ->
     let o := onmessage env msg w in
     let s := Z.max (nextStartTimeRef (refs w)) (currentTime env) in
     res o = Ret tt /\
     starts (events o) = [(s, duration b)] /\
     nextStartTimeRef (refs (world o)) = (s + duration b)%Z /\
     (currentTime env <= s)%Z /\ (nextStartTimeRef (refs w) <= s)%Z)
  /\
  (forall inbound w i s d s' d',
     starts (snd (run inbound w)) !! i = Some (s, d) ->
     starts (snd (run inbound w)) !! S i = Some (s', d') ->
     (s + d <= s')%Z).
Proof.
  split.
  - intros env msg w data b Hchunk Hb. cbv zeta.
    destruct (onmessage_out env msg w) as (w1 & evs & _ & Hv & He & ->).
    rewrite (chunk_of_view _ _ _ Hv), Hchunk, Hb. cbn [res world events].
    apply session_view_refs in Hv as Hr. apply starts_tool_events in He.
    rewrite finish_turn_refs, <- Hr. unfold starts in *. rewrite omap_app, He.
    repeat split; lia.
  - intros inbound w i s d s' d'. apply gapless_lookup with (c := nextStartTimeRef (refs w)).
    apply run_gapless.
Qed.

Lemma C1_gapless_schedule_witness :
  starts (events (onmessage (sample_env 0) (audio_message "pcm1") connected_world))
    = [(0, 12000)%Z] /\
  (0 + 12000 <= 12000)%Z.
Proof.
  destruct C1_gapless_schedule as [Hone Hrun]. split.
  - destruct (Hone (sample_env 0) (audio_message "pcm1") connected_world "pcm1"
                {| duration := 12000 |}) as (_ & Hs & _); [reflexivity..|].
    exact Hs.
  - apply (Hrun [InMessage (sample_env 0) (audio_message "pcm1");
                 InMessage (sample_env 0) (audio_message "pcm2")]
             connected_world 0%nat 0%Z 12000%Z 12000%Z 12000%Z);
      vm_compute; reflexivity.
Defined.

(** ** Tool dispatch *)

Lemma runs_inj {A} (m : M A) w a w1 e1 b w2 e2 :
  runs m w a w1 e1 -> runs m w b w2 e2 -> a = b /\ w1 = w2 /\ e1 = e2.
Proof. unfold runs. intros -> H. now injection H. Qed.

Lemma for_of_segments env calls w :
  exists w1 segs,
    runs (for_of calls (handle_function_call env)) w tt w1 (concat segs) /\
    Forall2 segment_of calls segs /\
    session_view w1 = session_view w.
Proof.
  revert w. induction calls as [|fc calls IH]; intros w.
  - exists w, []. repeat split. constructor.
  - destruct (handle_function_call_out env fc w) as (r & w1 & reqs & Hrun & He & Hv).
    destruct (IH w1) as (w2 & segs & Hrun' & Hsegs & Hv').
    exists w2, ((reqs ++ [EvSendToolResponse (fc_name fc) (fc_id fc) r]) :: segs).
    repeat split.
    + cbn [for_of concat]. eapply runs_bind; eassumption.
    + constructor; [now exists reqs, r | assumption].
    + congruence.
Qed.

Lemma dispatch_segments env msg w :
  exists w1 segs,
    runs (dispatch_tool_calls env msg) w tt w1 (concat segs) /\
    Forall2 segment_of (default [] (toolCall msg)) segs /\
    session_view w1 = session_view w.
Proof.
  unfold dispatch_tool_calls. destruct (toolCall msg) as [calls|]; cbn [default].
  - apply for_of_segments.
  - exists w, []. repeat split. constructor.
Qed.

Lemma sent_requests reqs :
  Forall (fun e => request_event e = true) reqs -> omap sent reqs = [].
Proof.
  induction 1 as [|e reqs He _ IH]; [reflexivity|].
  cbn. rewrite IH. now destruct e.
Qed.

Lemma sent_segments calls segs :
  Forall2 segment_of calls segs ->
  omap sent (concat segs) = (fun fc => (fc_name fc, fc_id fc)) <$> calls.
Proof.
  induction 1 as [|fc seg calls segs (reqs & r & -> & He) _ IH]; [reflexivity|].
  cbn [concat]. rewrite !omap_app, IH, (sent_requests _ He). reflexivity.
Qed.

(** The calls of a whole message: the segments of its function calls in
    order, then at most the start of its chunk. *)
Lemma onmessage_events env msg w :
  exists segs audio,
    events (onmessage env msg w) = concat segs ++ audio /\
    Forall2 segment_of (default [] (toolCall msg)) segs /\
    (audio = [] \/ exists src s d, audio = [EvPlaybackStart src s d]).
Proof.
  destruct (onmessage_out env msg w) as (w1 & evs & Hrun & _ & _ & ->).
  destruct (dispatch_segments env msg w) as (w1' & segs & Hrun' & Hsegs & _).
  destruct (runs_inj _ _ _ _ _ _ _ _ Hrun Hrun') as (_ & _ & ->).
  exists segs.
  destruct (chunk_of msg w1) as [data|]; [destruct (decodeAudioData env data) as [b|]|];
    cbn [events].
  - eexists. split; [reflexivity|]. split; [assumption|]. right. eauto.
  - exists []. rewrite app_nil_r. auto.
  - exists []. rewrite app_nil_r. auto.
Qed.

(** C2. Tool correlation.  For a message with function calls [calls], whatever
    the handlers and the rest of the message do (requests rejected, answers
    unusable, the chunk failing to decode), the tool results sent are, in
    order, one per call, each under the name and the id of its call; so with
    ids that differ from call to call there is exactly one send for the id of
    each call. *)
Theorem C2_one_result_per_call env msg w calls :
  toolCall msg = Some calls ->
  let evs := events (onmessage env msg w) in
  omap sent evs = (fun fc => (fc_name fc, fc_id fc)) <$> calls /\
  (NoDup (fc_id <$> calls) ->
   forall fc, fc ∈ calls ->
     count_occ String.string_dec (snd <$> omap sent evs) (fc_id fc) = 1%nat).
Proof.
  intros Hcalls. cbv zeta.
  destruct (onmessage_events env msg w) as (segs & audio & -> & Hsegs & Haudio).
  rewrite Hcalls in Hsegs. cbn [default] in Hsegs.
  assert (Hsent : omap sent (concat segs ++ audio)
                  = (fun fc => (fc_name fc, fc_id fc)) <$> calls).
  { rewrite omap_app, (sent_segments _ _ Hsegs).
    destruct Haudio as [->|(src & s & d & ->)]; cbn; apply app_nil_r. }
  split; [exact Hsent|].
  intros Hnodup fc Hfc. rewrite Hsent, <- list_fmap_compose.
  apply NoDup_count_occ'; [apply NoDup_ListNoDup; exact Hnodup|].
  apply list_elem_of_In, list_elem_of_fmap. now exists fc.
Qed.

Lemma C2_one_result_per_call_witness :
  omap sent (events (onmessage failing_tools_env calls_and_chunk connected_world))
    = [("generate_image", "x1"); ("generate_image", "x2")].
Proof.
  apply (C2_one_result_per_call failing_tools_env calls_and_chunk connected_world
           [image_call "x1" "a cat"; image_call "x2" "a dog"]).
  reflexivity.
Defined.

(** C6. Unknown tool names.  A function call whose name is neither
    [generate_image] nor [generate_code] returns normally, changes nothing
    and sends exactly one result, under its name and id, with the text
    [Tool execution failed]. *)
Theorem C6_unknown_tool env fc w :
  fc_name fc <> "generate_image" ->
  fc_name fc <> "generate_code" ->
  handle_function_call env fc w =
  MkOut (Ret tt) w [EvSendToolResponse (fc_name fc) (fc_id fc) "Tool execution failed"].
Proof.
  intros Himg Hcode. unfold handle_function_call.
  apply String.eqb_neq in Himg, Hcode. rewrite Himg, Hcode. reflexivity.
Qed.

Lemma C6_unknown_tool_witness :
  handle_function_call (sample_env 0) (video_call "x3") connected_world =
  MkOut (Ret tt) connected_world
    [EvSendToolResponse "generate_video" "x3" "Tool execution failed"].
Proof.
  apply (C6_unknown_tool (sample_env 0) (video_call "x3") connected_world);
    discriminate.
Defined.

Lemma result_after_start_tools pre audio :
  Forall (fun e => tool_event e = true) pre ->
  (audio = [] \/ exists src s d, audio = [EvPlaybackStart src s d]) ->
  result_after_start (pre ++ audio) = false.
Proof.
  intros Hpre Haudio. induction Hpre as [|e pre He _ IH].
  - destruct Haudio as [->|(src & s & d & ->)]; reflexivity.
  - destruct e; try discriminate He; exact IH.
Qed.

(** ** The speaking flag *)

Lemma size_zero_empty (X : gset nat) : size X = 0%nat <-> X = ∅.
Proof. rewrite size_empty_iff. now unfold_leibniz. Qed.

Lemma after_play_playing env b w : scheduledSources (refs (after_play env b w)) <> ∅.
Proof. cbn. set_solver. Qed.

Lemma message_world env msg w :
  decodable (InMessage env msg) ->
  exists w1, session_view w1 = session_view w /\
    (world (onmessage env msg w) = world (finish_turn msg w1) \/
     exists b, world (onmessage env msg w) = world (finish_turn msg (after_play env b w1))).
Proof.
  intros Hdec. destruct (onmessage_out env msg w) as (w1 & evs & _ & Hv & _ & ->).
  exists w1. split; [assumption|].
  destruct (chunk_of msg w1) as [data|] eqn:Hchunk; [|now left].
  destruct (decodeAudioData env data) as [b|] eqn:Hb; [right; now exists b|].
  exfalso. apply (Hdec data); [|assumption].
  unfold chunk_of in Hchunk. destruct (audioData msg) as [data'|]; [|discriminate].
  destruct (audioContextRef (refs w1)); [|discriminate].
  destruct (truthy data'); congruence.
Qed.

Lemma finish_turn_speaking msg w :
  isSpeaking (ui (world (finish_turn msg w))) =
  if turnComplete msg then false else isSpeaking (ui w).
Proof. rewrite finish_turn_out. cbn. now destruct (turnComplete msg). Qed.

Lemma finish_turn_ui msg w :
  isConnected (ui (world (finish_turn msg w))) = isConnected (ui w) /\
  status (ui (world (finish_turn msg w))) = status (ui w).
Proof. rewrite finish_turn_out. cbn. now destruct (turnComplete msg). Qed.

Lemma chunk_of_none msg w :
  audioData msg = None \/ audioData msg = Some EmptyString \/
  audioContextRef (refs w) = None ->
  chunk_of msg w = None.
Proof.
  unfold chunk_of. intros [->|[->| ->]]; [reflexivity| |].
  - now destruct (audioContextRef (refs w)).
  - now destruct (audioData msg).
Qed.

Lemma onmessage_without_chunk env msg w :
  chunk_of msg w = None ->
  res (onmessage env msg w) = Ret tt /\
  starts (events (onmessage env msg w)) = [] /\
  refs (world (onmessage env msg w)) = refs w /\
  isSpeaking (ui (world (onmessage env msg w)))
    = (if turnComplete msg then false else isSpeaking (ui w)) /\
  status (ui (world (onmessage env msg w))) = status (ui w) /\
  isConnected (ui (world (onmessage env msg w))) = isConnected (ui w).
Proof.
  intros Hnone.
  destruct (onmessage_out env msg w) as (w1 & evs & _ & Hv & He & ->).
  rewrite (chunk_of_view _ _ _ Hv), Hnone. cbn [res world events].
  apply session_view_inv in Hv as (Hr & Hc & Hs & Hst).
  destruct (finish_turn_ui msg w1) as [Hfc Hfs].
  rewrite finish_turn_refs, finish_turn_speaking, Hfc, Hfs, Hr, Hc, Hs, Hst.
  repeat split. now apply starts_tool_events.
Qed.

(** An event that brings nothing to play never raises the flag. *)
Lemma deliver_stays_silent i w :
  carries_no_chunk i -> isSpeaking (ui w) = false ->
  isSpeaking (ui (world (deliver i w))) = false.
Proof.
  intros Hno Hdown. destruct i as [env msg|source| | |]; cbn [deliver]; cbn in Hno.
  - assert (Hnone : chunk_of msg w = None).
    { unfold chunk_of. destruct (audioData msg) as [data|]; [|reflexivity].
      rewrite (Hno data eq_refl). now destruct (audioContextRef (refs w)). }
    destruct (onmessage_without_chunk env msg w Hnone) as (_ & _ & _ & -> & _).
    now destruct (turnComplete msg).
  - rewrite onended_out. cbn. now destruct (bool_decide _).
  - unfold onclose. now rewrite (proj1 (proj2 (cleanup_spec w))).
  - now rewrite onerror_out.
  - now rewrite (proj1 (proj2 (cleanup_spec w))).
Qed.

Lemma run_stays_silent inbound w :
  Forall carries_no_chunk inbound -> isSpeaking (ui w) = false ->
  isSpeaking (ui (fst (run inbound w))) = false.
Proof.
  intros Hno. revert w. induction Hno as [|i rest Hi _ IH]; intros w Hdown;
    [exact Hdown|].
  cbn [run fst]. apply IH. now apply deliver_stays_silent.
Qed.

Lemma deliver_speaking_implies i w :
  decodable i -> speaking_implies_playing w ->
  speaking_implies_playing (world (deliver i w)).
Proof.
  unfold speaking_implies_playing. intros Hdec Hw.
  destruct i as [env msg|source| | |]; cbn [deliver].
  - destruct (message_world env msg w Hdec) as (w1 & Hv & [->|[b ->]]);
      rewrite finish_turn_speaking, finish_turn_refs.
    + apply session_view_inv in Hv as (Hr & _ & Hs & _). rewrite Hr, Hs.
      destruct (turnComplete msg); [discriminate | exact Hw].
    + intros _. apply after_play_playing.
  - rewrite onended_out. cbn. destruct (bool_decide _) eqn:Hsz; cbn; [discriminate|].
    intros _ Hempty. apply bool_decide_eq_false in Hsz. apply Hsz.
    now apply size_zero_empty.
  - unfold onclose. rewrite (proj1 (proj2 (cleanup_spec w))). discriminate.
  - rewrite onerror_out. discriminate.
  - rewrite (proj1 (proj2 (cleanup_spec w))). discriminate.
Qed.

Lemma deliver_speaking_iff i w :
  decodable i -> no_turn_complete i -> speaking_iff_playing w ->
  speaking_iff_playing (world (deliver i w)).
Proof.
  unfold speaking_iff_playing. intros Hdec Hturn Hw.
  destruct i as [env msg|source| | |]; cbn [deliver]; cbn in Hturn.
  - destruct (message_world env msg w Hdec) as (w1 & Hv & [->|[b ->]]);
      rewrite finish_turn_speaking, finish_turn_refs, Hturn.
    + apply session_view_inv in Hv as (Hr & _ & Hs & _). now rewrite Hr, Hs.
    + split; [intros _; apply after_play_playing | reflexivity].
  - rewrite onended_out. cbn. destruct (bool_decide _) eqn:Hsz; cbn.
    + apply bool_decide_eq_true, size_zero_empty in Hsz. rewrite Hsz.
      split; [discriminate | congruence].
    + apply bool_decide_eq_false in Hsz. rewrite size_zero_empty in Hsz.
      split; [intros _; exact Hsz|]. intros _. apply Hw.
      intros Hempty. apply Hsz. rewrite Hempty. apply empty_difference_L.
  - unfold onclose. rewrite (proj1 (proj2 (cleanup_spec w))). cbn.
    split; [discriminate | congruence].
  - rewrite onerror_out. cbn. split; [discriminate | congruence].
  - rewrite (proj1 (proj2 (cleanup_spec w))). cbn.
    split; [discriminate | congruence].
Qed.

(** C5 (as the code has it). [isSpeaking] is a stored flag: raised when a
    chunk is played, lowered when an ['ended'] listener leaves the scheduled
    set empty, on teardown and on turn-complete.  So, while every chunk
    decodes: (1) after every event, the flag is up only if the set is
    non-empty; (2) over events without turn-complete, the flag is up exactly
    when the set is non-empty; (3) a message with turn-complete leaves the
    flag down whatever the set holds; (4) and after it the flag stays down
    over all the events that bring nothing to play, whatever they do to the
    set: an ['ended'] listener that leaves sources in the set does not raise
    it again. *)
Theorem C5_speaking_flag :
  (forall inbound w,
     Forall decodable inbound -> speaking_implies_playing w ->
     speaking_implies_playing (fst (run inbound w))) /\
  (forall inbound w,
     Forall decodable inbound -> Forall no_turn_complete inbound ->
     speaking_iff_playing w ->
     speaking_iff_playing (fst (run inbound w))) /\
  (forall env msg w,
     decodable (InMessage env msg) -> turnComplete msg = true ->
     isSpeaking (ui (world (onmessage env msg w))) = false) /\
  (forall env msg rest w,
     decodable (InMessage env msg) -> turnComplete msg = true ->
     Forall carries_no_chunk rest ->
     isSpeaking (ui (fst (run (InMessage env msg :: rest) w))) = false).
Proof.
  assert (Hforced : forall env msg w,
            decodable (InMessage env msg) -> turnComplete msg = true ->
            isSpeaking (ui (world (onmessage env msg w))) = false).
  { intros env msg w Hdec Hmsg.
    destruct (message_world env msg w Hdec) as (w1 & _ & [->|[b ->]]);
      now rewrite finish_turn_speaking, Hmsg. }
  split; [|split; [|split]].
  - intros inbound w Hdec. revert w.
    induction Hdec as [|i rest Hi _ IH]; intros w Hw; [exact Hw|].
    cbn [run fst]. apply IH. now apply deliver_speaking_implies.
  - intros inbound w Hdec. revert w.
    induction Hdec as [|i rest Hi _ IH]; intros w Hturn Hw; [exact Hw|].
    inversion Hturn; subst. cbn [run fst].
    apply IH; [assumption|]. now apply deliver_speaking_iff.
  - exact Hforced.
  - intros env msg rest w Hdec Hmsg Hrest. cbn [run fst deliver].
    apply run_stays_silent; [exact Hrest | now apply Hforced].
Qed.

Lemma C5_speaking_flag_witness :
  speaking_iff_playing
    (fst (run [InMessage (sample_env 0) (audio_message "pcm1"); InEnded 6]
              connected_world)) /\
  isSpeaking (ui (world (onmessage (sample_env 0) turn_complete_message playing_world)))
    = false /\
  isSpeaking
    (ui (fst (run [InMessage (sample_env 0) turn_complete_message; InEnded 6]
                  (fst (run [InMessage (sample_env 0) (audio_message "pcm1");
                             InMessage (sample_env 0) (audio_message "pcm2")]
                            connected_world)))))
    = false.
Proof.
  destruct C5_speaking_flag as (_ & Hiff & Hturn & Hstays). split; [|split].
  - apply Hiff.
    + repeat constructor. intros data [= <-]. discriminate.
    + repeat constructor.
    + split; [discriminate | intros H; now contradict H].
  - apply Hturn; [intros data [=] | reflexivity].
  - apply Hstays; [intros data [=] | reflexivity | repeat constructor].
Defined.

(** C5, the claim as stated, fails: after two chunks, the end of the turn and
    the end of the first source, the scheduled set has just changed and is
    not empty, yet the flag is down. *)
Lemma C5_counterexample :
  ~ speaking_iff_playing (fst (run turn_complete_then_ended connected_world)).
Proof.
  intros [_ Hup].
  assert (Hflag : isSpeaking (ui (fst (run turn_complete_then_ended connected_world)))
                  = false) by (vm_compute; reflexivity).
  rewrite Hup in Hflag; [discriminate|].
  intros Hempty.
  assert (Hsize : size (scheduledSources
                          (refs (fst (run turn_complete_then_ended connected_world))))
                  = 1%nat) by (vm_compute; reflexivity).
  rewrite Hempty, size_empty in Hsize. discriminate.
Qed.

(** ** Decode failure *)

(** C7 (as the code has it). When the chunk of a message does not decode, the
    chunk is dropped: no source is started, and of the refs only the cursor
    moves, up to the clock; connection flag and status are untouched and the
    events that follow are delivered from that state.  But the exception
    leaves the handler, after [isSpeaking] was raised and before the
    turn-complete step. *)
Theorem C7_decode_failure env msg w data :
  chunk_of msg w = Some data ->
  decodeAudioData env data = None ->
  let o := onmessage env msg w in
  res o = Throw ExnDecode /\
  starts (events o) = [] /\
  refs (world o) =
    set_nextStartTimeRef
      (Z.max (nextStartTimeRef (refs w)) (currentTime env)) (refs w) /\
  isConnected (ui (world o)) = isConnected (ui w) /\
  status (ui (world o)) = status (ui w) /\
  isSpeaking (ui (world o)) = true /\
  (forall rest,
     run (InMessage env msg :: rest) w =
     (fst (run rest (world o)), events o ++ snd (run rest (world o)))).
Proof.
  intros Hchunk Hb. cbv zeta.
  destruct (onmessage_out env msg w) as (w1 & evs & _ & Hv & He & Hout).
  rewrite (chunk_of_view _ _ _ Hv), Hchunk, Hb in Hout. rewrite Hout.
  apply session_view_inv in Hv as (Hr & Hc & _ & Hs).
  cbn [res world events after_failed_play refs ui isConnected status isSpeaking].
  rewrite Hr, Hc, Hs, (starts_tool_events _ He).
  repeat split. intros rest. cbn [run deliver fst snd]. now rewrite Hout.
Qed.

Lemma C7_decode_failure_witness :
  res (onmessage (sample_env 0) bad_chunk_message connected_world) = Throw ExnDecode /\
  starts (events (onmessage (sample_env 0) bad_chunk_message connected_world)) = [].
Proof.
  destruct (C7_decode_failure (sample_env 0) bad_chunk_message connected_world "bad")
    as (Hres & Hstarts & _); [reflexivity | reflexivity |].
  split; assumption.
Defined.

(** C7, the claim as stated, fails: on a chunk that does not decode the
    handler does not return, the exception leaves it, and the state is not
    the one before (the flag is up, although the message ends the turn). *)
Lemma C7_counterexample :
  res (onmessage (sample_env 0) bad_chunk_message connected_world) <> Ret tt /\
  isSpeaking (ui (world (onmessage (sample_env 0) bad_chunk_message connected_world)))
    = true.
Proof. split; [vm_compute; discriminate | vm_compute; reflexivity]. Qed.

(** ** Session start and forced teardown *)

Lemma throws_throw {A} e w : throws (throw e : M A) w e w [].
Proof. reflexivity. Qed.

Lemma throws_bind {A B} (m : M A) (f : A -> M B) w e w1 e1 :
  throws m w e w1 e1 -> throws (m ≫= f) w e w1 e1.
Proof. unfold throws. intros H. rewrite bind_out, H. reflexivity. Qed.

Lemma runs_then_throws {A B} (m : M A) (f : A -> M B) w a w1 e1 e w2 e2 :
  runs m w a w1 e1 -> throws (f a) w1 e w2 e2 -> throws (m ≫= f) w e w2 (e1 ++ e2).
Proof.
  unfold runs, throws. intros H1 H2. rewrite bind_out, H1. cbn. rewrite H2.
  reflexivity.
Qed.

Lemma runs_fresh w :
  runs fresh w (nextId w)
       {| refs := refs w; ui := ui w; storage := storage w; nextId := S (nextId w) |} [].
Proof. reflexivity. Qed.

Lemma try_catch_runs {A} (body : M A) handler w a w1 e1 :
  runs body w a w1 e1 -> runs (try_catch body handler) w a w1 e1.
Proof. unfold runs, try_catch. intros ->. reflexivity. Qed.

Lemma try_catch_throws {A} (body : M A) handler w e w1 e1 a w2 e2 :
  throws body w e w1 e1 -> runs (handler e) w1 a w2 e2 ->
  runs (try_catch body handler) w a w2 (e1 ++ e2).
Proof.
  unfold runs, throws, try_catch. intros -> H. cbn. rewrite H. reflexivity.
Qed.

Lemma try_finally_runs {A} (body : M A) fin w a w1 e1 w2 e2 :
  runs body w a w1 e1 -> runs fin w1 tt w2 e2 ->
  runs (try_finally body fin) w a w2 (e1 ++ e2).
Proof.
  unfold runs, try_finally. intros -> H. cbn. rewrite H. reflexivity.
Qed.

Lemma runs_events {A} (m : M A) w a w' evs evs' :
  runs m w a w' evs -> evs = evs' -> runs m w a w' evs'.
Proof. now intros H <-. Qed.

Lemma runs_onerror w : runs onerror w tt (errored w) (cleanup_calls (refs w)).
Proof. apply onerror_out. Qed.

(** One step of a straight-line callback. *)
Ltac atom :=
  first [ apply runs_ret | apply runs_emit | apply runs_get_refs
        | apply runs_modify_refs | apply runs_modify_ui | apply runs_fresh ].

Lemma startSession_failed env w :
  getUserMedia env = false \/ newGoogleGenAI env = false ->
  exists w1,
    runs (startSession env) w tt (errored w1)
         (EvGetUserMedia :: cleanup_calls (refs w1)) /\
    audioContextRef (refs w1) = Some (nextId w) /\
    inputContextRef (refs w1) = Some (S (nextId w)) /\
    (getUserMedia env = true -> streamRef (refs w1) = Some (S (S (nextId w)))).
Proof.
  intros Hfail. destruct w as [r u sto n]. unfold startSession, setStatus.
  destruct (getUserMedia env) eqn:Hmic.
  - destruct Hfail as [Hfail|Hapi]; [discriminate|].
    eexists. split.
    { eapply runs_events.
      - eapply try_catch_throws; [|apply runs_onerror].
        do 9 (eapply runs_then_throws; [atom | cbn]).
        apply throws_bind. unfold new_GoogleGenAI, throws. rewrite Hapi. reflexivity.
      - reflexivity. }
    cbn. repeat split; reflexivity.
  - eexists. split.
    { eapply runs_events.
      - eapply try_catch_throws; [|apply runs_onerror].
        do 7 (eapply runs_then_throws; [atom | cbn]).
        apply throws_bind, throws_throw.
      - reflexivity. }
    cbn. repeat split; [reflexivity..|discriminate].
Qed.

Lemma startSession_started env w :
  getUserMedia env = true -> newGoogleGenAI env = true ->
  exists w1,
    runs (startSession env) w tt w1 [EvGetUserMedia; EvLiveConnect (3 + nextId w)] /\
    status (ui w1) = Connecting /\
    sessionRef (refs w1) = Some (3 + nextId w)%nat /\
    streamRef (refs w1) = Some (2 + nextId w)%nat /\
    inputContextRef (refs w1) = Some (1 + nextId w)%nat /\
    audioContextRef (refs w1) = Some (nextId w) /\
    nextStartTimeRef (refs w1) = currentTime env.
Proof.
  intros Hmic Hapi. destruct w as [r u sto n].
  unfold startSession, setStatus, new_GoogleGenAI. rewrite Hmic, Hapi.
  eexists. split.
  { eapply runs_events.
    - apply try_catch_runs.
      do 12 (eapply runs_bind; [atom | cbn]).
      atom.
    - reflexivity. }
  cbn. repeat split; reflexivity.
Qed.

Lemma cleanup_calls_audio r h :
  audioContextRef r = Some h -> EvAudioContextClose h ∈ cleanup_calls r.
Proof.
  intros H. unfold cleanup_calls. rewrite H, !elem_of_app.
  do 5 right. left. constructor.
Qed.

Lemma cleanup_calls_input r h :
  inputContextRef r = Some h -> EvInputContextClose h ∈ cleanup_calls r.
Proof.
  intros H. unfold cleanup_calls. rewrite H, !elem_of_app.
  do 4 right. left. constructor.
Qed.

Lemma cleanup_calls_stream r h :
  streamRef r = Some h -> EvStreamStop h ∈ cleanup_calls r.
Proof.
  intros H. unfold cleanup_calls. rewrite H, !elem_of_app.
  do 3 right. left. constructor.
Qed.

Lemma filter_owned_cleanup_calls r :
  List.filter owned_release (cleanup_calls r) = held r.
Proof.
  unfold cleanup_calls, held. rewrite !List.filter_app, filter_owned_stops.
  rewrite !filter_owned_option by reflexivity.
  destruct (Nat.eqb (animRef r) 0); reflexivity.
Qed.

(** C8 (as the code has it). (1) The close callback runs the teardown and
    leaves the state torn down, status [Disconnected].  (2) The error
    callback runs the same teardown and leaves status [Error].  Both release
    exactly what was held.  (3) When the microphone is refused, or the client
    cannot be built, [startSession] returns normally with the teardown done
    and status [Error]; the audio contexts it had created, and the stream if
    it had got one, are released.  (4) Otherwise [startSession] returns with
    status [Connecting] and the session promise stored, having released
    nothing: it does not wait for the connection to open.  (5) A connection
    that does not open is dealt with after that, when the transport calls
    the error callback: then everything [startSession] had acquired is
    released and the status is [Error]. *)
Theorem C8_forced_teardown :
  (forall w,
     res (onclose w) = Ret tt /\ torn_down (world (onclose w)) /\
     List.filter owned_release (events (onclose w)) = held (refs w)) /\
  (forall w,
     res (onerror w) = Ret tt /\ released (refs (world (onerror w))) /\
     status (ui (world (onerror w))) = Error /\
     isConnected (ui (world (onerror w))) = false /\
     List.filter owned_release (events (onerror w)) = held (refs w)) /\
  (forall env w,
     getUserMedia env = false \/ newGoogleGenAI env = false ->
     let o := startSession env w in
     res o = Ret tt /\ released (refs (world o)) /\
     status (ui (world o)) = Error /\ isConnected (ui (world o)) = false /\
     EvAudioContextClose (nextId w) ∈ events o /\
     EvInputContextClose (S (nextId w)) ∈ events o /\
     (getUserMedia env = true -> EvStreamStop (S (S (nextId w))) ∈ events o)) /\
  (forall env w,
     getUserMedia env = true -> newGoogleGenAI env = true ->
     let o := startSession env w in
     res o = Ret tt /\ status (ui (world o)) = Connecting /\
     sessionRef (refs (world o)) = Some (3 + nextId w)%nat /\
     List.filter owned_release (events o) = []) /\
  (forall env w,
     getUserMedia env = true -> newGoogleGenAI env = true ->
     transportOpens env = false ->
     let o := (startSession env ;; connection_settles env) w in
     res o = Ret tt /\ released (refs (world o)) /\
     status (ui (world o)) = Error /\
     List.filter owned_release (events o) = held (refs (world (startSession env w)))).
Proof.
  split; [|split; [|split; [|split]]].
  - intros w. unfold onclose. destruct (cleanup_spec w) as (-> & -> & _ & ->).
    repeat split.
  - intros w. rewrite onerror_out. cbn [res world events].
    rewrite filter_owned_cleanup_calls. repeat split.
  - intros env w Hfail. cbv zeta.
    destruct (startSession_failed env w Hfail) as (w1 & Hrun & Ha & Hi & Hs).
    unfold runs in Hrun. rewrite Hrun. cbn [res world events].
    repeat split.
    + right. now apply cleanup_calls_audio.
    + right. now apply cleanup_calls_input.
    + intros Hmic. right. now apply cleanup_calls_stream, Hs.
  - intros env w Hmic Hapi. cbv zeta.
    destruct (startSession_started env w Hmic Hapi) as (w1 & Hrun & Hst & Hse & _).
    unfold runs in Hrun. rewrite Hrun. cbn [res world events].
    repeat split; assumption.
  - intros env w Hmic Hapi Hopen. cbv zeta.
    destruct (startSession_started env w Hmic Hapi) as (w1 & Hrun & _).
    unfold runs in Hrun. rewrite bind_out, Hrun. cbn [res world events].
    unfold connection_settles. rewrite Hopen, onerror_out. cbn [res world events].
    rewrite List.filter_app, filter_owned_cleanup_calls. repeat split.
Qed.

Lemma C8_forced_teardown_witness :
  status (ui (world (startSession no_microphone_env initial_world))) = Error /\
  released (refs (world (startSession no_microphone_env initial_world))) /\
  status (ui (world (startSession (sample_env 0) initial_world))) = Connecting /\
  status (ui (world ((startSession transport_fails_env ;;
                      connection_settles transport_fails_env) initial_world))) = Error.
Proof.
  destruct C8_forced_teardown as (_ & _ & Hfail & Hok & Hlate).
  destruct (Hfail no_microphone_env initial_world) as (_ & Hrel & Hst & _);
    [left; reflexivity|].
  destruct (Hok (sample_env 0) initial_world) as (_ & Hconn & _);
    [reflexivity | reflexivity |].
  destruct (Hlate transport_fails_env initial_world) as (_ & _ & Herr & _);
    [reflexivity | reflexivity | reflexivity |].
  repeat split; try assumption; apply Hrel.
Defined.

(** C8, the claim as stated, fails for the transport: with a connection that
    does not open, [startSession] returns in status [Connecting], not
    [Error], and without teardown: the session promise and the stream are
    still held when it returns. *)
Lemma C8_counterexample :
  transportOpens transport_fails_env = false /\
  res (startSession transport_fails_env initial_world) = Ret tt /\
  status (ui (world (startSession transport_fails_env initial_world))) <> Error /\
  ~ released (refs (world (startSession transport_fails_env initial_world))).
Proof.
  repeat split; try (vm_compute; congruence).
  intros (H & _). vm_compute in H. discriminate H.
Qed.

(** ** The file merge *)

Section MapFacts.
Context {V : Type}.
Implicit Types (m : list (string * V)) (k : string) (v : V).

Lemma Map_get_set k k' v m :
  Map_get k' (Map_set k v m) = if String.eqb k' k then Some v else Map_get k' m.
Proof.
  unfold Map_get. induction m as [|[k0 v0] m IH]; cbn.
  - now destruct (String.eqb k' k).
  - destruct (String.eqb k k0) eqn:Hk; cbn.
    + apply String.eqb_eq in Hk as <-. now destruct (String.eqb k' k).
    + destruct (String.eqb k' k0) eqn:Hk'; cbn; [|exact IH].
      apply String.eqb_eq in Hk' as ->. rewrite String.eqb_sym, Hk. reflexivity.
Qed.

Lemma Map_set_elem k k' v m :
  k' ∈ fst <$> Map_set k v m <-> k' = k \/ k' ∈ fst <$> m.
Proof.
  induction m as [|[k0 v0] m IH]; cbn.
  - rewrite list_elem_of_singleton, elem_of_nil. tauto.
  - destruct (String.eqb k k0) eqn:Hk; cbn.
    + apply String.eqb_eq in Hk as <-. rewrite !elem_of_cons. tauto.
    + rewrite !elem_of_cons, IH. tauto.
Qed.

Lemma Map_set_NoDup k v m : NoDup (fst <$> m) -> NoDup (fst <$> Map_set k v m).
Proof.
  induction m as [|[k0 v0] m IH]; cbn; intros Hm.
  - apply NoDup_singleton.
  - apply NoDup_cons in Hm as [Hk0 Hm].
    destruct (String.eqb k k0) eqn:Hk; cbn.
    + apply String.eqb_eq in Hk as <-. now apply NoDup_cons.
    + apply NoDup_cons. split; [|auto].
      rewrite Map_set_elem. intros [->|Hin]; [|contradiction].
      now rewrite String.eqb_refl in Hk.
Qed.

End MapFacts.

Lemma Map_set_keyed f m :
  Forall (fun e => fst e = filename (snd e)) m ->
  Forall (fun e => fst e = filename (snd e)) (Map_set (filename f) f m).
Proof.
  induction 1 as [|[k0 f0] m He Hm IH]; cbn.
  - now repeat constructor.
  - destruct (String.eqb (filename f) k0); constructor; auto.
Qed.

Lemma fold_set_well_keyed files m :
  well_keyed m ->
  well_keyed (fold_left (fun m f => Map_set (filename f) f m) files m).
Proof.
  revert m. induction files as [|f files IH]; intros m Hm; [exact Hm|].
  cbn. apply IH. destruct Hm as [Hk Hn]. split.
  - now apply Map_set_keyed.
  - now apply Map_set_NoDup.
Qed.

Lemma file_named_app name l1 l2 :
  file_named name (l1 ++ l2) =
  match file_named name l1 with
  | Some f => Some f
  | None => file_named name l2
  end.
Proof.
  unfold file_named. induction l1 as [|f l1 IH]; cbn; [reflexivity|].
  now destruct (String.eqb name (filename f)).
Qed.

Lemma last_named_app name l1 l2 :
  last_named name (l1 ++ l2) =
  match last_named name l2 with
  | Some f => Some f
  | None => last_named name l1
  end.
Proof. unfold last_named. now rewrite rev_app_distr, file_named_app. Qed.

Lemma Map_get_fold name files m :
  Map_get name (fold_left (fun m f => Map_set (filename f) f m) files m) =
  match last_named name files with
  | Some f => Some f
  | None => Map_get name m
  end.
Proof.
  revert m. induction files as [|f files IH]; intros m; [reflexivity|].
  cbn [fold_left]. rewrite IH, Map_get_set.
  change (f :: files) with ([f] ++ files). rewrite last_named_app.
  destruct (last_named name files); [reflexivity|].
  unfold last_named, file_named. cbn. now destruct (String.eqb name (filename f)).
Qed.

Lemma file_named_values name m :
  Forall (fun e => fst e = filename (snd e)) m ->
  file_named name (Map_values m) = Map_get name m.
Proof.
  unfold file_named, Map_get, Map_values.
  induction 1 as [|[k f] m He _ IH]; cbn in *; [reflexivity|].
  subst k. now destruct (String.eqb name (filename f)).
Qed.

Lemma Map_new_files files :
  Map_new (map (fun f => (filename f, f)) files) =
  fold_left (fun m f => Map_set (filename f) f m) files [].
Proof.
  unfold Map_new. generalize (@nil (string * CodeFile)).
  induction files as [|f files IH]; intros m; cbn; [reflexivity | apply IH].
Qed.

(** The merge writes every name once, and under each name the last generated
    file of that name or, when none was generated, the stored one. *)
Lemma merge_files_spec existingFiles newFiles :
  NoDup (filename <$> merge_files existingFiles newFiles) /\
  forall name,
    file_named name (merge_files existingFiles newFiles) =
    match last_named name newFiles with
    | Some f => Some f
    | None => last_named name existingFiles
    end.
Proof.
  unfold merge_files. rewrite Map_new_files.
  assert (Hkeyed : well_keyed
            (fold_left (fun m f => Map_set (filename f) f m) newFiles
               (fold_left (fun m f => Map_set (filename f) f m) existingFiles []))).
  { do 2 apply fold_set_well_keyed. split; constructor. }
  destruct Hkeyed as [Hk Hn]. split.
  - unfold Map_values.
    replace (filename <$> map snd _) with
      (fst <$> fold_left (fun m f => Map_set (filename f) f m) newFiles
                 (fold_left (fun m f => Map_set (filename f) f m) existingFiles []));
      [exact Hn|].
    clear Hn. induction Hk as [|[k f] m He _ IH]; cbn in *; [reflexivity|].
    now rewrite IH, He.
  - intros name. rewrite (file_named_values _ _ Hk), !Map_get_fold.
    destruct (last_named name newFiles); [reflexivity|].
    now destruct (last_named name existingFiles).
Qed.

(** ** The code-generation handler *)

Lemma runs_new_genai env w :
  newGoogleGenAI env = true -> runs (new_GoogleGenAI env) w tt w [].
Proof. unfold runs, new_GoogleGenAI. now intros ->. Qed.

Lemma throws_new_genai env w :
  newGoogleGenAI env = false -> throws (new_GoogleGenAI env) w ExnApi w [].
Proof. unfold throws, new_GoogleGenAI. now intros ->. Qed.

Lemma runs_history_call env c w :
  historyThrows env c = false -> runs (history_call env c) w tt w [].
Proof. unfold runs, history_call. now intros ->. Qed.

Lemma throws_history_call env c w :
  historyThrows env c = true -> throws (history_call env c) w ExnStorage w [].
Proof. unfold throws, history_call. now intros ->. Qed.

Lemma runs_load_files env w :
  historyThrows env LoadFiles = false ->
  runs (loadFromHistory_files env) w (default [] (files_store (storage w))) w [].
Proof.
  intros Hok. unfold runs, loadFromHistory_files, history_call.
  rewrite bind_out, Hok. reflexivity.
Qed.

Lemma runs_load_chat env w :
  historyThrows env LoadChat = false ->
  runs (loadFromHistory_chat env) w (default [] (chat_store (storage w))) w [].
Proof.
  intros Hok. unfold runs, loadFromHistory_chat, history_call.
  rewrite bind_out, Hok. reflexivity.
Qed.

Lemma runs_save_files env v w :
  historyThrows env SaveFiles = false ->
  runs (saveToHistory_files env v) w tt
       {| refs := refs w; ui := ui w;
          storage := {| files_store := Some v; chat_store := chat_store (storage w) |};
          nextId := nextId w |} [].
Proof.
  intros Hok. unfold runs, saveToHistory_files, history_call.
  rewrite bind_out, Hok. reflexivity.
Qed.

Lemma runs_save_chat env v w :
  historyThrows env SaveChat = false ->
  runs (saveToHistory_chat env v) w tt
       {| refs := refs w; ui := ui w;
          storage := {| files_store := files_store (storage w); chat_store := Some v |};
          nextId := nextId w |} [].
Proof.
  intros Hok. unfold runs, saveToHistory_chat, history_call.
  rewrite bind_out, Hok. reflexivity.
Qed.

Lemma throws_load_files env w :
  historyThrows env LoadFiles = true ->
  throws (loadFromHistory_files env) w ExnStorage w [].
Proof. intros Hc. apply throws_bind, throws_history_call, Hc. Qed.

Lemma throws_load_chat env w :
  historyThrows env LoadChat = true ->
  throws (loadFromHistory_chat env) w ExnStorage w [].
Proof. intros Hc. apply throws_bind, throws_history_call, Hc. Qed.

Lemma throws_save_files env v w :
  historyThrows env SaveFiles = true ->
  throws (saveToHistory_files env v) w ExnStorage w [].
Proof. intros Hc. apply throws_bind, throws_history_call, Hc. Qed.

Lemma throws_save_chat env v w :
  historyThrows env SaveChat = true ->
  throws (saveToHistory_chat env v) w ExnStorage w [].
Proof. intros Hc. apply throws_bind, throws_history_call, Hc. Qed.

Lemma runs_generate env model prompt response w :
  generateContent env model prompt = Some response ->
  runs (models_generateContent env model prompt) w response w
       [EvGenerateContent model prompt].
Proof. unfold runs, models_generateContent. rewrite bind_out. cbn. now intros ->. Qed.

Lemma throws_generate env model prompt w :
  generateContent env model prompt = None ->
  throws (models_generateContent env model prompt) w ExnApi w
         [EvGenerateContent model prompt].
Proof. unfold throws, models_generateContent. rewrite bind_out. cbn. now intros ->. Qed.

Lemma runs_parse env jsonStr result w :
  JSON_parse env jsonStr = Some result -> runs (parse env jsonStr) w result w [].
Proof. unfold runs, parse. now intros ->. Qed.

Lemma throws_parse env jsonStr w :
  JSON_parse env jsonStr = None -> throws (parse env jsonStr) w ExnSyntax w [].
Proof. unfold throws, parse. now intros ->. Qed.

Lemma runs_get_files files explanation w :
  runs (get_files (ParsedValue files explanation)) w files w [].
Proof. reflexivity. Qed.

(** The handler around its [try] block, when the block returns. *)
Lemma codegen_returns env description w r w1 evs :
  runs (generateCode_try env description) (tool_started "Writing code..." w) r w1 evs ->
  runs (generateCodeFromVoice env description) w r (tool_finished w1) evs.
Proof.
  intros Hbody. unfold generateCodeFromVoice, setToolStatus, setIsProcessingTool.
  eapply runs_events.
  - eapply runs_bind; [apply runs_modify_ui|]. cbv beta.
    eapply runs_bind; [apply runs_modify_ui|]. cbv beta.
    eapply try_finally_runs; [|apply runs_modify_ui].
    apply try_catch_runs. exact Hbody.
  - cbn. apply app_nil_r.
Qed.

(** The handler around its [try] block, when the block throws. *)
Lemma codegen_catches env description w e w1 evs :
  throws (generateCode_try env description) (tool_started "Writing code..." w) e w1 evs ->
  runs (generateCodeFromVoice env description) w
       "Error occurred while generating code." (tool_finished w1) evs.
Proof.
  intros Hbody. unfold generateCodeFromVoice, setToolStatus, setIsProcessingTool.
  eapply runs_events.
  - eapply runs_bind; [apply runs_modify_ui|]. cbv beta.
    eapply runs_bind; [apply runs_modify_ui|]. cbv beta.
    eapply try_finally_runs; [|apply runs_modify_ui].
    eapply try_catch_throws; [exact Hbody | apply runs_ret].
  - cbn. now rewrite !app_nil_r.
Qed.

Lemma try_succeeds env description w newFiles result :
  codegen_succeeds env description (default [] (files_store (storage w))) newFiles result ->
  runs (generateCode_try env description) w (code_success description)
       (code_saved description newFiles result w)
       [EvGenerateContent "gemini-3-flash-preview"
          (Some (code_prompt description (default [] (files_store (storage w)))))].
Proof.
  intros ((response & jsonStr & explanation & Hc & Hl & Hg & Ht & Htr & Hp & ->)
          & Hsf & Hlc & Hsc).
  unfold generateCode_try. eapply runs_events.
  - eapply runs_bind; [apply runs_new_genai, Hc|]. cbv beta.
    eapply runs_bind; [apply runs_load_files, Hl|]. cbv beta.
    eapply runs_bind; [apply runs_generate, Hg|]. cbv beta. rewrite Ht, Htr.
    eapply runs_bind; [apply runs_parse, Hp|]. cbv beta.
    eapply runs_bind; [apply runs_get_files|]. cbv beta iota.
    eapply runs_bind; [apply runs_save_files, Hsf|]. cbv beta.
    eapply runs_bind; [apply runs_load_chat, Hlc|]. cbv beta.
    eapply runs_bind; [apply runs_save_chat, Hsc|]. cbv beta.
    apply runs_ret.
  - reflexivity.
Qed.

(** The read and the write of the chat log, when one of them throws. *)
Lemma throws_chat_steps env (entries : list ChatEntry) (text : string) w :
  historyThrows env LoadChat = true \/ historyThrows env SaveChat = true ->
  throws (existingChat ← loadFromHistory_chat env;
          saveToHistory_chat env (existingChat ++ entries) ;;
          mret text) w ExnStorage w [].
Proof.
  intros Hchat. destruct (historyThrows env LoadChat) eqn:Hlc.
  - apply throws_bind, throws_load_chat, Hlc.
  - destruct Hchat as [Hchat|Hsc]; [discriminate Hchat|].
    unfold throws. eapply eq_trans.
    + eapply runs_then_throws; [apply runs_load_chat, Hlc|]. cbv beta.
      apply throws_bind, throws_save_chat, Hsc.
    + reflexivity.
Qed.

(** A failure between the two writes leaves the [try] block by a throw,
    with the merged files saved and the chat log as it was. *)
Lemma try_fails_after_save env description w newFiles result :
  codegen_fails_after_save env description (default [] (files_store (storage w)))
    newFiles result ->
  throws (generateCode_try env description) w ExnStorage (files_saved newFiles w)
         [EvGenerateContent "gemini-3-flash-preview"
            (Some (code_prompt description (default [] (files_store (storage w)))))].
Proof.
  intros ((response & jsonStr & explanation & Hc & Hl & Hg & Ht & Htr & Hp & ->)
          & Hsf & Hchat).
  unfold generateCode_try. unfold throws. eapply eq_trans.
  - eapply runs_then_throws; [apply runs_new_genai, Hc|]. cbv beta.
    eapply runs_then_throws; [apply runs_load_files, Hl|]. cbv beta.
    eapply runs_then_throws; [apply runs_generate, Hg|]. cbv beta. rewrite Ht, Htr.
    eapply runs_then_throws; [apply runs_parse, Hp|]. cbv beta.
    eapply runs_then_throws; [apply runs_get_files|]. cbv beta iota.
    eapply runs_then_throws; [apply runs_save_files, Hsf|]. cbv beta.
    apply throws_chat_steps, Hchat.
  - reflexivity.
Qed.

(** Every failure before the first write leaves the [try] block, by return
    or by throw, in the state it was entered in. *)
Lemma try_fails env description w text :
  CodegenFailure env description (default [] (files_store (storage w))) text ->
  exists evs,
    (runs (generateCode_try env description) w text w evs) \/
    (text = "Error occurred while generating code." /\
     exists e, throws (generateCode_try env description) w e w evs).
Proof.
  intros Hfail. unfold generateCode_try.
  destruct Hfail as [Hc|Hc Hl|Hc Hl Hg|response Hc Hl Hg Ht|response jsonStr Hc Hl Hg Ht Htr
                    |response jsonStr Hc Hl Hg Ht Htr Hp|response jsonStr Hc Hl Hg Ht Htr Hp
                    |response jsonStr files explanation Hc Hl Hg Ht Htr Hp Hfiles
                    |newFiles result
                       (response & jsonStr & explanation & Hc & Hl & Hg & Ht & Htr & Hp & ->)
                       Hsf].
  - eexists. right. split; [reflexivity|]. eexists.
    apply throws_bind, throws_new_genai, Hc.
  - eexists. right. split; [reflexivity|]. eexists.
    eapply runs_then_throws; [apply runs_new_genai, Hc|]. cbv beta.
    apply throws_bind, throws_load_files, Hl.
  - eexists. right. split; [reflexivity|]. eexists.
    eapply runs_then_throws; [apply runs_new_genai, Hc|]. cbv beta.
    eapply runs_then_throws; [apply runs_load_files, Hl|]. cbv beta.
    apply throws_bind, throws_generate, Hg.
  - eexists. left.
    eapply runs_bind; [apply runs_new_genai, Hc|]. cbv beta.
    eapply runs_bind; [apply runs_load_files, Hl|]. cbv beta.
    eapply runs_bind; [apply runs_generate, Hg|]. cbv beta. rewrite Ht.
    apply runs_ret.
  - eexists. left.
    eapply runs_bind; [apply runs_new_genai, Hc|]. cbv beta.
    eapply runs_bind; [apply runs_load_files, Hl|]. cbv beta.
    eapply runs_bind; [apply runs_generate, Hg|]. cbv beta. rewrite Ht, Htr.
    apply runs_ret.
  - eexists. right. split; [reflexivity|]. eexists.
    eapply runs_then_throws; [apply runs_new_genai, Hc|]. cbv beta.
    eapply runs_then_throws; [apply runs_load_files, Hl|]. cbv beta.
    eapply runs_then_throws; [apply runs_generate, Hg|]. cbv beta. rewrite Ht, Htr.
    apply throws_bind, throws_parse, Hp.
  - eexists. right. split; [reflexivity|]. eexists.
    eapply runs_then_throws; [apply runs_new_genai, Hc|]. cbv beta.
    eapply runs_then_throws; [apply runs_load_files, Hl|]. cbv beta.
    eapply runs_then_throws; [apply runs_generate, Hg|]. cbv beta. rewrite Ht, Htr.
    eapply runs_then_throws; [apply runs_parse, Hp|]. cbv beta.
    apply throws_bind, throws_throw.
  - eexists. left.
    eapply runs_bind; [apply runs_new_genai, Hc|]. cbv beta.
    eapply runs_bind; [apply runs_load_files, Hl|]. cbv beta.
    eapply runs_bind; [apply runs_generate, Hg|]. cbv beta. rewrite Ht, Htr.
    eapply runs_bind; [apply runs_parse, Hp|]. cbv beta.
    eapply runs_bind; [apply runs_get_files|]. cbv beta iota.
    destruct files as [| |newFiles]; [apply runs_ret..|].
    now contradiction (Hfiles newFiles).
  - eexists. right. split; [reflexivity|]. eexists.
    eapply runs_then_throws; [apply runs_new_genai, Hc|]. cbv beta.
    eapply runs_then_throws; [apply runs_load_files, Hl|]. cbv beta.
    eapply runs_then_throws; [apply runs_generate, Hg|]. cbv beta. rewrite Ht, Htr.
    eapply runs_then_throws; [apply runs_parse, Hp|]. cbv beta.
    eapply runs_then_throws; [apply runs_get_files|]. cbv beta iota.
    apply throws_bind, throws_save_files, Hsf.
Qed.

(** Whatever the environment answers, the handler either meets the conditions
    of success, or fails before its first write in one of the listed ways, or
    fails between its two writes. *)
Lemma codegen_cases env description existingFiles :
  (exists newFiles result,
     codegen_succeeds env description existingFiles newFiles result) \/
  (exists text, CodegenFailure env description existingFiles text) \/
  (exists newFiles result,
     codegen_fails_after_save env description existingFiles newFiles result).
Proof.
  destruct (newGoogleGenAI env) eqn:Hc; [|right; left; eexists; eapply FailClient; eauto].
  destruct (historyThrows env LoadFiles) eqn:Hl;
    [right; left; eexists; eapply FailLoadFiles; eauto|].
  destruct (generateContent env "gemini-3-flash-preview"
              (Some (code_prompt description existingFiles))) as [response|] eqn:Hg;
    [|right; left; eexists; eapply FailRequest; eauto].
  destruct (resp_text response) as [jsonStr|] eqn:Ht;
    [|right; left; eexists; eapply FailNoText; eauto].
  destruct (truthy jsonStr) eqn:Htr;
    [|right; left; eexists; eapply FailEmptyText; eauto].
  destruct (JSON_parse env jsonStr) as [[|files explanation]|] eqn:Hp;
    [right; left; eexists; eapply FailNull; eauto | |
     right; left; eexists; eapply FailSyntax; eauto].
  destruct files as [| |newFiles].
  - right. left. eexists. eapply FailFormat; eauto; discriminate.
  - right. left. eexists. eapply FailFormat; eauto; discriminate.
  - assert (Hreach : codegen_reaches_save env description existingFiles newFiles
                       (ParsedValue (FilesArray newFiles) explanation)).
    { exists response, jsonStr, explanation. repeat split; assumption. }
    destruct (historyThrows env SaveFiles) eqn:Hsf;
      [right; left; eexists; eapply FailSaveFiles; eauto|].
    destruct (historyThrows env LoadChat) eqn:Hlc;
      [right; right; eexists _, _; repeat split; eauto|].
    destruct (historyThrows env SaveChat) eqn:Hsc;
      [right; right; eexists _, _; repeat split; eauto|].
    left. eexists _, _. repeat split; eauto.
Qed.

Lemma codegen_success_out env description w newFiles result :
  codegen_succeeds env description (default [] (files_store (storage w))) newFiles result ->
  runs (generateCodeFromVoice env description) w (code_success description)
       (tool_finished
          (code_saved description newFiles result (tool_started "Writing code..." w)))
       [EvGenerateContent "gemini-3-flash-preview"
          (Some (code_prompt description (default [] (files_store (storage w)))))].
Proof.
  intros Hok. apply codegen_returns.
  exact (try_succeeds env description (tool_started "Writing code..." w) newFiles result Hok).
Qed.

Lemma codegen_failure_out env description w text :
  CodegenFailure env description (default [] (files_store (storage w))) text ->
  exists evs,
    runs (generateCodeFromVoice env description) w text
         (tool_finished (tool_started "Writing code..." w)) evs.
Proof.
  intros Hfail.
  destruct (try_fails env description (tool_started "Writing code..." w) text Hfail)
    as (evs & [Hrun|(-> & e & Hthrow)]); exists evs.
  - now apply codegen_returns.
  - now apply codegen_catches with (e := e).
Qed.

Lemma codegen_after_save_out env description w newFiles result :
  codegen_fails_after_save env description (default [] (files_store (storage w)))
    newFiles result ->
  runs (generateCodeFromVoice env description) w
       "Error occurred while generating code."
       (tool_finished (files_saved newFiles (tool_started "Writing code..." w)))
       [EvGenerateContent "gemini-3-flash-preview"
          (Some (code_prompt description (default [] (files_store (storage w)))))].
Proof.
  intros Hfail. apply codegen_catches with (e := ExnStorage).
  exact (try_fails_after_save env description (tool_started "Writing code..." w)
           newFiles result Hfail).
Qed.

(** C9. File merge and chat log.  When the handler succeeds with the generated
    files [newFiles], it returns the success text; the stored files become
    the merge of the stored and the generated ones, which holds every
    filename once and under each name the last generated file of that name,
    or the stored one when none was generated; and the stored chat log grows
    by exactly one user entry and one model entry, at its end. *)
Theorem C9_code_merge env description w newFiles result :
  codegen_succeeds env description (default [] (files_store (storage w))) newFiles result ->
  let o := generateCodeFromVoice env description w in
  let existingFiles := default [] (files_store (storage w)) in
  res o = Ret (code_success description) /\
  files_store (storage (world o)) = Some (merge_files existingFiles newFiles) /\
  NoDup (filename <$> merge_files existingFiles newFiles) /\
  (forall name,
     file_named name (merge_files existingFiles newFiles) =
     match last_named name newFiles with
     | Some f => Some f
     | None => last_named name existingFiles
     end) /\
  chat_store (storage (world o)) =
    Some (default [] (chat_store (storage w)) ++
            [ {| role := "user"; text := description |};
              {| role := "model"; text := Some (explanation_or_default result) |} ]).
Proof.
  intros Hok. cbv zeta.
  pose proof (codegen_success_out env description w newFiles result Hok) as Hrun.
  unfold runs in Hrun. rewrite Hrun. cbn [res world].
  destruct (merge_files_spec (default [] (files_store (storage w))) newFiles)
    as [Hnodup Hnamed].
  repeat split; assumption.
Qed.

Lemma C9_code_merge_witness :
  files_store (storage (world (generateCodeFromVoice (sample_env 0) (Some "todo app")
                                 stored_world)))
    = Some [sample_file "a.js" "new"; sample_file "b.js" "keep"] /\
  chat_store (storage (world (generateCodeFromVoice (sample_env 0) (Some "todo app")
                                stored_world)))
    = Some [ {| role := "user"; text := Some "hi" |};
             {| role := "user"; text := Some "todo app" |};
             {| role := "model"; text := Some "Done." |} ].
Proof.
  destruct (C9_code_merge (sample_env 0) (Some "todo app") stored_world
              [sample_file "a.js" "new"]
              (ParsedValue (FilesArray [sample_file "a.js" "new"]) (Some "Done.")))
    as (_ & Hfiles & _ & _ & Hchat).
  - split; [eexists _, _, _|]; repeat split; reflexivity.
  - split; [exact Hfiles | exact Hchat].
Defined.

(** C10 (as the code has it). The handler never throws.  In each way of
    failing before its first write (client not built, stored files not
    read, request rejected, no or empty text, text that does not parse or
    parses to [null], [files] not an array, merged files not written) it
    returns the failure text of that case and both namespaces are as
    before.  But the two writes are not one step: when the read or the write
    of the chat log throws after the files have been saved, it returns the
    error text with the merged files stored and the chat log as before.  And
    these are all the cases: whenever it returns anything but the success
    text, the chat log is as before, and the stored files are as before or
    are the merged ones of a failure between the writes. *)
Theorem C10_code_failure env description w :
  let o := generateCodeFromVoice env description w in
  let existingFiles := default [] (files_store (storage w)) in
  (exists r, res o = Ret r) /\
  (forall text,
     CodegenFailure env description existingFiles text ->
     res o = Ret text /\ storage (world o) = storage w) /\
  (forall newFiles result,
     codegen_fails_after_save env description existingFiles newFiles result ->
     res o = Ret "Error occurred while generating code." /\
     files_store (storage (world o)) = Some (merge_files existingFiles newFiles) /\
     chat_store (storage (world o)) = chat_store (storage w)) /\
  (res o <> Ret (code_success description) ->
   chat_store (storage (world o)) = chat_store (storage w) /\
   (storage (world o) = storage w \/
    exists newFiles result,
      codegen_fails_after_save env description existingFiles newFiles result /\
      files_store (storage (world o)) = Some (merge_files existingFiles newFiles))).
Proof.
  cbv zeta.
  assert (Hfail : forall text,
            CodegenFailure env description (default [] (files_store (storage w))) text ->
            res (generateCodeFromVoice env description w) = Ret text /\
            storage (world (generateCodeFromVoice env description w)) = storage w).
  { intros text Hf. destruct (codegen_failure_out env description w text Hf) as [evs Hrun].
    unfold runs in Hrun. rewrite Hrun. split; reflexivity. }
  assert (Hbetween : forall newFiles result,
            codegen_fails_after_save env description
              (default [] (files_store (storage w))) newFiles result ->
            res (generateCodeFromVoice env description w)
              = Ret "Error occurred while generating code." /\
            files_store (storage (world (generateCodeFromVoice env description w)))
              = Some (merge_files (default [] (files_store (storage w))) newFiles) /\
            chat_store (storage (world (generateCodeFromVoice env description w)))
              = chat_store (storage w)).
  { intros newFiles result Hf.
    pose proof (codegen_after_save_out env description w newFiles result Hf) as Hrun.
    unfold runs in Hrun. rewrite Hrun. repeat split. }
  split; [apply total_generateCodeFromVoice|].
  split; [exact Hfail|]. split; [exact Hbetween|].
  intros Hres.
  destruct (codegen_cases env description (default [] (files_store (storage w))))
    as [(newFiles & result & Hok)|[(text & Hf)|(newFiles & result & Hf)]].
  - contradict Hres.
    pose proof (codegen_success_out env description w newFiles result Hok) as Hrun.
    unfold runs in Hrun. now rewrite Hrun.
  - destruct (Hfail text Hf) as [_ Hsame]. rewrite Hsame. split; [reflexivity | now left].
  - destruct (Hbetween newFiles result Hf) as (_ & Hfiles & Hchat).
    split; [exact Hchat|]. right. now exists newFiles, result.
Qed.

Lemma C10_code_failure_witness :
  res (generateCodeFromVoice bad_json_env (Some "todo app") stored_world)
    = Ret "Error occurred while generating code." /\
  storage (world (generateCodeFromVoice bad_json_env (Some "todo app") stored_world))
    = storage stored_world.
Proof.
  destruct (C10_code_failure bad_json_env (Some "todo app") stored_world)
    as (_ & Hfail & _).
  apply Hfail.
  apply FailSyntax with (response := {| resp_parts := None; resp_text := Some "not json" |})
                        (jsonStr := "not json"); reflexivity.
Defined.

(** C10, the claim as stated, fails: when the write of the chat log throws,
    the handler returns the error text, and yet the files namespace has been
    written. *)
Lemma C10_counterexample :
  res (generateCodeFromVoice chat_save_fails_env (Some "todo app") stored_world)
    = Ret "Error occurred while generating code." /\
  files_store
    (storage (world (generateCodeFromVoice chat_save_fails_env (Some "todo app")
                       stored_world)))
    = Some [sample_file "a.js" "new"; sample_file "b.js" "keep"] /\
  ~ (storage (world (generateCodeFromVoice chat_save_fails_env (Some "todo app")
                       stored_world))
     = storage stored_world).
Proof.
  split; [vm_compute; reflexivity|]. split; [vm_compute; reflexivity|].
  intros H. apply (f_equal files_store) in H. vm_compute in H. discriminate H.
Qed.

(** ** The scenarios of the specification, run *)

Example merge_last_write_wins :
  merge_files [sample_file "a.js" "old"; sample_file "b.js" "keep"]
              [sample_file "a.js" "new"; sample_file "c.js" "add";
               sample_file "c.js" "again"]
  = [sample_file "a.js" "new"; sample_file "b.js" "keep"; sample_file "c.js" "again"].
Proof. reflexivity. Qed.

Example scenario_C_back_to_back :
  starts (snd (run [InMessage (sample_env 0) (audio_message "pcm1");
                    InMessage (sample_env 0) (audio_message "pcm2")] connected_world))
  = [(0, 12000)%Z; (12000, 12000)%Z].
Proof. vm_compute. reflexivity. Qed.

Example scenario_late_chunk :
  starts (snd (run [InMessage (sample_env 0) (audio_message "pcm1");
                    InMessage (sample_env 30000) (audio_message "pcm2")] connected_world))
  = [(0, 12000)%Z; (30000, 12000)%Z].
Proof. vm_compute. reflexivity. Qed.

Example scenario_E_session_error :
  status (ui (world (onerror playing_world))) = Error /\
  scheduledSources (refs (world (onerror playing_world))) = ∅ /\
  List.filter owned_release (events (onerror playing_world))
  = [EvSessionClose 3; EvProcessorDisconnect 5; EvSourceDisconnect 4; EvStreamStop 2;
     EvInputContextClose 1; EvAudioContextClose 0; EvPlaybackStop 6; EvPlaybackStop 7].
Proof. repeat split; vm_compute; reflexivity. Qed.

(** * Further properties *)

(** ** Messages without a playable chunk, stray ['ended'] events *)

(** X1. A message that carries no audio data, or empty data, or that arrives
    when the output context is gone (after a teardown), is handled without
    decoding anything: the handler returns, starts no source, leaves every
    ref as it is, does not touch status or connection flag, and changes the
    speaking flag only by lowering it when the message ends the turn. *)
Theorem no_chunk_no_playback env msg w :
  audioData msg = None \/ audioData msg = Some EmptyString \/
  audioContextRef (refs w) = None ->
  let o := onmessage env msg w in
  res o = Ret tt /\ starts (events o) = [] /\ refs (world o) = refs w /\
  isSpeaking (ui (world o)) = (if turnComplete msg then false else isSpeaking (ui w)) /\
  status (ui (world o)) = status (ui w) /\
  isConnected (ui (world o)) = isConnected (ui w).
Proof. intros Hnone. apply onmessage_without_chunk, chunk_of_none, Hnone. Qed.

Lemma no_chunk_no_playback_witness :
  res (onmessage (sample_env 0) bad_chunk_message (world (cleanup playing_world)))
    = Ret tt /\
  starts (events (onmessage (sample_env 0) bad_chunk_message
                    (world (cleanup playing_world)))) = [].
Proof.
  destruct (no_chunk_no_playback (sample_env 0) bad_chunk_message
              (world (cleanup playing_world))) as (Hres & Hstarts & _).
  - right. right. reflexivity.
  - split; assumption.
Defined.

(** X2. An ['ended'] event for a source that is not in the scheduled set
    leaves the refs alone, and after a teardown it changes nothing at all:
    the listeners of the sources that [cleanup] stopped may fire late
    without any effect. *)
Theorem stray_ended_harmless :
  (forall src w,
     src ∉ scheduledSources (refs w) ->
     res (onended src w) = Ret tt /\ events (onended src w) = [] /\
     refs (world (onended src w)) = refs w /\
     status (ui (world (onended src w))) = status (ui w) /\
     isConnected (ui (world (onended src w))) = isConnected (ui w)) /\
  (forall src w,
     onended src (world (cleanup w)) = MkOut (Ret tt) (world (cleanup w)) []).
Proof.
  split.
  - intros src w Hsrc. rewrite onended_out. cbn [res world events].
    assert (Hset : scheduledSources (refs w) ∖ {[src]} = scheduledSources (refs w))
      by now apply difference_disjoint_L, disjoint_singleton_r.
    unfold after_ended. cbn [refs ui]. rewrite Hset.
    repeat split.
    + now destruct (refs w).
    + now destruct (bool_decide _).
    + now destruct (bool_decide _).
  - intros src w. rewrite onended_out. f_equal.
    rewrite (proj1 (proj2 (cleanup_spec w))).
    unfold after_ended, cleaned. cbn [refs ui scheduledSources set_scheduledSources].
    rewrite empty_difference_L, size_empty. reflexivity.
Qed.

Lemma stray_ended_harmless_witness :
  refs (world (onended 99 playing_world)) = refs playing_world.
Proof.
  destruct stray_ended_harmless as [Hstray _].
  apply (Hstray 99%nat playing_world). vm_compute. discriminate.
Defined.

(** ** More on the playback cursor *)

Lemma onmessage_played env msg w data b :
  chunk_of msg w = Some data ->
  decodeAudioData env data = Some b ->
  let s := Z.max (nextStartTimeRef (refs w)) (currentTime env) in
  res (onmessage env msg w) = Ret tt /\
  starts (events (onmessage env msg w)) = [(s, duration b)] /\
  nextStartTimeRef (refs (world (onmessage env msg w))) = (s + duration b)%Z /\
  audioContextRef (refs (world (onmessage env msg w))) = audioContextRef (refs w).
Proof.
  intros Hchunk Hb. cbv zeta.
  destruct (onmessage_out env msg w) as (w1 & evs & _ & Hv & He & ->).
  rewrite (chunk_of_view _ _ _ Hv), Hchunk, Hb. cbn [res world events].
  apply session_view_refs in Hv as Hr. apply starts_tool_events in He.
  rewrite finish_turn_refs, <- Hr. unfold starts in *. rewrite omap_app, He.
  repeat split.
Qed.

Lemma onopen_out w :
  onopen w =
  MkOut (Ret tt) (opened w)
    match inputContextRef (refs w) with
    | None => []
    | Some _ => [EvCaptureArmed (nextId w) (S (nextId w))]
    end.
Proof.
  destruct w as [r u sto n]. unfold opened. cbn [refs ui storage nextId].
  destruct (inputContextRef r) as [ictx|] eqn:Hin;
    change (?m ?w = MkOut (Ret tt) ?w' ?evs) with (runs m w tt w' evs);
    unfold onopen, setStatus, setIsConnected; eapply runs_events.
  - do 3 (eapply runs_bind; [atom | cbn]). rewrite Hin.
    do 4 (eapply runs_bind; [atom | cbn]). atom.
  - reflexivity.
  - do 3 (eapply runs_bind; [atom | cbn]). rewrite Hin. atom.
  - reflexivity.
Qed.



(** X4. Two chunks played one after the other: the second starts exactly at
    the end of the first when the clock has not passed that end (no gap, no
    overlap), and at the clock when it has (the gap is the lateness). *)
Theorem in_time_chunk_is_gapless env1 msg1 env2 msg2 w data1 b1 data2 b2 :
  chunk_of msg1 w = Some data1 -> decodeAudioData env1 data1 = Some b1 ->
  audioData msg2 = Some data2 -> truthy data2 = true ->
  decodeAudioData env2 data2 = Some b2 ->
  let end1 :=
    (Z.max (nextStartTimeRef (refs w)) (currentTime env1) + duration b1)%Z in
  let second := starts (events (onmessage env2 msg2 (world (onmessage env1 msg1 w)))) in
  ((currentTime env2 <= end1)%Z -> second = [(end1, duration b2)]) /\
  ((end1 < currentTime env2)%Z -> second = [(currentTime env2, duration b2)]).
Proof.
  intros Hchunk1 Hb1 Hdata2 Htruthy2 Hb2. cbv zeta.
  destruct (onmessage_played env1 msg1 w data1 b1 Hchunk1 Hb1) as (_ & _ & Hcur & Hctx).
  assert (Hchunk2 : chunk_of msg2 (world (onmessage env1 msg1 w)) = Some data2).
  { unfold chunk_of in *. rewrite Hdata2, Hctx, Htruthy2.
    destruct (audioData msg1); [|discriminate].
    now destruct (audioContextRef (refs w)). }
  destruct (onmessage_played env2 msg2 _ data2 b2 Hchunk2 Hb2) as (_ & -> & _).
  rewrite Hcur. split; intros Hclock; do 2 f_equal; lia.
Qed.

Lemma in_time_chunk_is_gapless_witness :
  starts (events (onmessage (sample_env 100) (audio_message "pcm2")
                    (world (onmessage (sample_env 0) (audio_message "pcm1")
                              connected_world))))
  = [(12000, 12000)%Z].
Proof.
  destruct (in_time_chunk_is_gapless (sample_env 0) (audio_message "pcm1")
              (sample_env 100) (audio_message "pcm2") connected_world
              "pcm1" {| duration := 12000 |} "pcm2" {| duration := 12000 |})
    as [Hintime _]; [reflexivity..|].
  apply Hintime. vm_compute. discriminate.
Defined.

Lemma deliver_cursor_sound i w :
  sound_durations i ->
  let o := deliver i w in
  let c := nextStartTimeRef (refs w) in
  (c <= nextStartTimeRef (refs (world o)))%Z /\
  Forall (fun sd => (0 <= snd sd)%Z) (starts (events o)).
Proof.
  intros Hsound. destruct i as [env msg|source| | |]; cbn [deliver]; cbv zeta.
  - cbn in Hsound.
    destruct (onmessage_out env msg w) as (w1 & evs & _ & Hv & He & ->).
    apply session_view_refs in Hv as Hr. rewrite <- Hr.
    apply starts_tool_events in He.
    destruct (chunk_of msg w1) as [data|];
      [destruct (decodeAudioData env data) as [b|] eqn:Hb|]; cbn [events world].
    + rewrite finish_turn_refs. unfold starts in *. rewrite omap_app, He. cbn.
      specialize (Hsound data b Hb). split; [lia|].
      repeat constructor. exact Hsound.
    + rewrite He. cbn. split; [lia | constructor].
    + rewrite He, finish_turn_refs. split; [lia | constructor].
  - rewrite onended_out. cbn. split; [lia | constructor].
  - unfold onclose. pose proof (cleanup_runs w) as Hc. unfold runs in Hc.
    rewrite Hc. cbn. rewrite starts_cleanup_calls. split; [lia | constructor].
  - rewrite onerror_out. cbn. rewrite starts_cleanup_calls. split; [lia | constructor].
  - pose proof (cleanup_runs w) as Hc. unfold runs in Hc.
    rewrite Hc. cbn. rewrite starts_cleanup_calls. split; [lia | constructor].
Qed.

Lemma run_cursor_sound inbound w :
  Forall sound_durations inbound ->
  (nextStartTimeRef (refs w) <= nextStartTimeRef (refs (fst (run inbound w))))%Z /\
  Forall (fun sd => (0 <= snd sd)%Z) (starts (snd (run inbound w))).
Proof.
  intros Hsound. revert w.
  induction Hsound as [|i rest Hi _ IH]; intros w; [split; [reflexivity | constructor]|].
  cbn [run fst snd]. destruct (deliver_cursor_sound i w Hi) as [Hc Hd].
  destruct (IH (world (deliver i w))) as [Hc' Hd']. split; [lia|].
  unfold starts in *. rewrite omap_app. apply Forall_app. now split.
Qed.

(** X5. While the decoded buffers have durations that are not negative, the
    cursor never moves back over a run of events, and the start times are in
    non-decreasing order: a later chunk never starts before an earlier one. *)
Theorem cursor_never_moves_back inbound w :
  Forall sound_durations inbound ->
  (nextStartTimeRef (refs w) <= nextStartTimeRef (refs (fst (run inbound w))))%Z /\
  (forall i s d s' d',
     starts (snd (run inbound w)) !! i = Some (s, d) ->
     starts (snd (run inbound w)) !! S i = Some (s', d') ->
     (s <= s')%Z).
Proof.
  intros Hsound. destruct (run_cursor_sound inbound w Hsound) as [Hc Hd].
  split; [exact Hc|]. intros i s d s' d' Hi Hj.
  pose proof (gapless_lookup _ _ _ _ _ _ _ (run_gapless inbound w) Hi Hj) as Hgap.
  rewrite Forall_lookup in Hd. specialize (Hd i (s, d) Hi). cbn in Hd. lia.
Qed.

Lemma cursor_never_moves_back_witness :
  (nextStartTimeRef (refs connected_world) <=
   nextStartTimeRef (refs (fst (run turn_complete_then_ended connected_world))))%Z.
Proof.
  apply (cursor_never_moves_back turn_complete_then_ended connected_world).
  repeat constructor; intros data b; cbn;
    destruct (String.eqb data "bad"); intros [= <-]; cbn; lia.
Defined.

(** ** No scheduled source is lost *)

Lemma started_tool_events evs :
  Forall (fun e => tool_event e = true) evs -> omap started_source evs = [].
Proof.
  induction 1 as [|e evs He _ IH]; [reflexivity|].
  cbn. rewrite IH. now destruct e.
Qed.

Lemma started_cleanup_calls r : omap started_source (cleanup_calls r) = [].
Proof.
  unfold cleanup_calls. rewrite !omap_app, !omap_option_list.
  destruct (sessionRef r), (processorRef r), (sourceRef r), (streamRef r),
    (inputContextRef r), (audioContextRef r), (Nat.eqb (animRef r) 0); cbn;
    induction (elements (scheduledSources r)); auto.
Qed.

Lemma stopped_cleanup_calls r src :
  src ∈ scheduledSources r -> src ∈ omap stopped_source (cleanup_calls r).
Proof.
  intros Hsrc. apply list_elem_of_omap. exists (EvPlaybackStop src).
  split; [|reflexivity]. unfold cleanup_calls. rewrite !elem_of_app.
  do 7 right. apply list_elem_of_fmap. exists src. split; [reflexivity|].
  now apply elem_of_elements.
Qed.

Lemma deliver_sources i w src :
  src ∈ scheduledSources (refs w) \/ src ∈ omap started_source (events (deliver i w)) ->
  src ∈ scheduledSources (refs (world (deliver i w))) \/
  src ∈ omap stopped_source (events (deliver i w)) \/
  ended_source i = Some src.
Proof.
  destruct i as [env msg|source| | |]; cbn [deliver ended_source].
  - destruct (onmessage_out env msg w) as (w1 & evs & _ & Hv & He & ->).
    apply session_view_refs in Hv as Hr. rewrite <- Hr.
    apply started_tool_events in He.
    destruct (chunk_of msg w1) as [data|];
      [destruct (decodeAudioData env data) as [b|]|]; cbn [events world].
    + rewrite finish_turn_refs, omap_app, He. cbn.
      rewrite list_elem_of_singleton. intros [Hin| ->]; left; set_solver.
    + rewrite He, elem_of_nil. cbn. tauto.
    + rewrite He, finish_turn_refs, elem_of_nil. tauto.
  - rewrite onended_out. cbn. rewrite elem_of_nil.
    intros [Hin|[]]. destruct (decide (src = source)) as [->|Hne]; [auto|].
    left. set_solver.
  - unfold onclose. pose proof (cleanup_runs w) as Hc. unfold runs in Hc.
    rewrite Hc. cbn [events world]. rewrite started_cleanup_calls, elem_of_nil.
    intros [Hin|[]]. right. left. now apply stopped_cleanup_calls.
  - rewrite onerror_out. cbn [events world].
    rewrite started_cleanup_calls, elem_of_nil.
    intros [Hin|[]]. right. left. now apply stopped_cleanup_calls.
  - pose proof (cleanup_runs w) as Hc. unfold runs in Hc.
    rewrite Hc. cbn [events world]. rewrite started_cleanup_calls, elem_of_nil.
    intros [Hin|[]]. right. left. now apply stopped_cleanup_calls.
Qed.

Lemma run_sources inbound w src :
  src ∈ scheduledSources (refs w) \/ src ∈ omap started_source (snd (run inbound w)) ->
  src ∈ scheduledSources (refs (fst (run inbound w))) \/
  src ∈ omap stopped_source (snd (run inbound w)) \/
  InEnded src ∈ inbound.
Proof.
  revert w. induction inbound as [|i rest IH]; intros w.
  - cbn. rewrite elem_of_nil. tauto.
  - cbn [run fst snd]. rewrite !omap_app, !elem_of_app, elem_of_cons.
    intros Hsrc.
    assert (Hstep : src ∈ scheduledSources (refs (world (deliver i w))) \/
                    src ∈ omap stopped_source (events (deliver i w)) \/
                    ended_source i = Some src \/
                    src ∈ omap started_source (snd (run rest (world (deliver i w))))).
    { destruct Hsrc as [Hin|[Hin|Hin]]; [| |tauto];
        destruct (deliver_sources i w src) as [H|[H|H]]; auto. }
    destruct Hstep as [Hin|[Hin|[Hin|Hin]]].
    + destruct (IH (world (deliver i w))) as [H|[H|H]]; auto.
    + auto.
    + right. right. left. destruct i; try discriminate. now injection Hin as ->.
    + destruct (IH (world (deliver i w))) as [H|[H|H]]; auto.
Qed.

Lemma run_app l1 l2 w :
  run (l1 ++ l2) w =
  (fst (run l2 (fst (run l1 w))), snd (run l1 w) ++ snd (run l2 (fst (run l1 w)))).
Proof.
  revert w. induction l1 as [|i l1 IH]; intros w; cbn [run app fst snd].
  - now destruct (run l2 w).
  - rewrite IH. cbn [fst snd]. now rewrite app_assoc.
Qed.

(** X6. No scheduled source is lost.  Over any run of events, every source
    that was scheduled at the beginning or started during the run is at the
    end still in the scheduled set, or has been stopped by a teardown, or
    has been reported as ended.  So once the run ends with a stop, every
    source ever started has been stopped or has ended. *)
Theorem no_source_is_lost :
  (forall inbound w src,
     src ∈ scheduledSources (refs w) \/
     src ∈ omap started_source (snd (run inbound w)) ->
     src ∈ scheduledSources (refs (fst (run inbound w))) \/
     src ∈ omap stopped_source (snd (run inbound w)) \/
     InEnded src ∈ inbound) /\
  (forall inbound w src,
     src ∈ omap started_source (snd (run (inbound ++ [InStop]) w)) ->
     src ∈ omap stopped_source (snd (run (inbound ++ [InStop]) w)) \/
     InEnded src ∈ inbound).
Proof.
  split; [exact run_sources|].
  intros inbound w src Hsrc.
  destruct (run_sources (inbound ++ [InStop]) w src (or_intror Hsrc)) as [H|[H|H]].
  - exfalso. rewrite run_app in H. cbn [fst run deliver] in H.
    rewrite (proj1 (proj2 (cleanup_spec _))) in H. cbn in H. set_solver.
  - now left.
  - right. apply elem_of_app in H as [H|H]; [exact H|].
    apply list_elem_of_singleton in H. discriminate H.
Qed.

Lemma no_source_is_lost_witness :
  6%nat ∈ omap stopped_source
            (snd (run ([InMessage (sample_env 0) (audio_message "pcm1")] ++ [InStop])
                      connected_world)) \/
  InEnded 6 ∈ [InMessage (sample_env 0) (audio_message "pcm1")].
Proof.
  apply (proj2 no_source_is_lost
           [InMessage (sample_env 0) (audio_message "pcm1")] connected_world 6%nat).
  vm_compute. apply list_elem_of_here.
Defined.

(** ** The image handler *)

Lemma first_image_skips pre data post :
  Forall (fun p => inlineData p = None) pre ->
  first_image (pre ++ {| inlineData := Some data |} :: post)
  = "data:image/png;base64," +:+ data.
Proof. induction 1 as [|p pre Hp _ IH]; cbn; [reflexivity | now rewrite Hp]. Qed.

Lemma first_image_none parts :
  Forall (fun p => inlineData p = None) parts -> first_image parts = EmptyString.
Proof. induction 1 as [|p parts Hp _ IH]; cbn; [reflexivity | now rewrite Hp]. Qed.

Lemma first_image_shape parts :
  first_image parts = EmptyString \/
  exists data, first_image parts = "data:image/png;base64," +:+ data.
Proof.
  induction parts as [|p parts IH]; cbn; [now left|].
  destruct (inlineData p) as [data|]; [right; now exists data | exact IH].
Qed.

(** The state after [generateImageFromVoice], given the image it shows. *)
Lemma image_handler_out env prompt w :
  exists text shown,
    generateImageFromVoice env prompt w =
    MkOut (Ret text)
      (tool_finished
         (match shown with
          | Some url =>
              world (setLiveImage (Some {| url := url; prompt := prompt |})
                       (tool_started "Generating image..." w))
          | None => tool_started "Generating image..." w
          end))
      (if newGoogleGenAI env then [EvGenerateContent "gemini-2.5-flash-image" prompt]
       else []) /\
    match shown with
    | Some url =>
        text = image_success /\ newGoogleGenAI env = true /\
        exists response parts,
          generateContent env "gemini-2.5-flash-image" prompt = Some response /\
          resp_parts response = Some parts /\ first_image parts = url /\
          truthy url = true
    | None =>
        (text = image_error /\
         (newGoogleGenAI env = false \/
          generateContent env "gemini-2.5-flash-image" prompt = None)) \/
        (text = image_missing /\ newGoogleGenAI env = true /\
         exists response,
           generateContent env "gemini-2.5-flash-image" prompt = Some response /\
           truthy (match resp_parts response with
                   | Some parts => first_image parts
                   | None => EmptyString
                   end) = false)
    end.
Proof.
  assert (Hwrap : forall text w1 evs,
            (runs (new_GoogleGenAI env ;;
                   response ← models_generateContent env "gemini-2.5-flash-image" prompt;
                   let imageUrl :=
                     match resp_parts response with
                     | Some parts => first_image parts
                     | None => EmptyString
                     end in
                   if truthy imageUrl then
                     setLiveImage (Some {| url := imageUrl; prompt := prompt |}) ;;
                     mret "Image generated and displayed successfully."
                   else mret "Failed to generate image.")
                  (tool_started "Generating image..." w) text w1 evs \/
             (text = image_error /\
              exists e,
                throws (new_GoogleGenAI env ;;
                        response ← models_generateContent env "gemini-2.5-flash-image" prompt;
                        let imageUrl :=
                          match resp_parts response with
                          | Some parts => first_image parts
                          | None => EmptyString
                          end in
                        if truthy imageUrl then
                          setLiveImage (Some {| url := imageUrl; prompt := prompt |}) ;;
                          mret "Image generated and displayed successfully."
                        else mret "Failed to generate image.")
                       (tool_started "Generating image..." w) e w1 evs)) ->
            generateImageFromVoice env prompt w = MkOut (Ret text) (tool_finished w1) evs).
  { intros text w1 evs Hbody.
    change (runs (generateImageFromVoice env prompt) w text (tool_finished w1) evs).
    unfold generateImageFromVoice, setToolStatus, setIsProcessingTool.
    destruct Hbody as [Hrun|(-> & e & Hthrow)]; eapply runs_events.
    - eapply runs_bind; [apply runs_modify_ui|]. cbv beta.
      eapply runs_bind; [apply runs_modify_ui|]. cbv beta.
      eapply try_finally_runs; [|apply runs_modify_ui].
      apply try_catch_runs. exact Hrun.
    - cbn. now rewrite ?app_nil_r.
    - eapply runs_bind; [apply runs_modify_ui|]. cbv beta.
      eapply runs_bind; [apply runs_modify_ui|]. cbv beta.
      eapply try_finally_runs; [|apply runs_modify_ui].
      eapply try_catch_throws; [exact Hthrow | apply runs_ret].
    - cbn. now rewrite ?app_nil_r. }
  destruct (newGoogleGenAI env) eqn:Hc.
  - destruct (generateContent env "gemini-2.5-flash-image" prompt) as [response|] eqn:Hg.
    + destruct (truthy (match resp_parts response with
                        | Some parts => first_image parts
                        | None => EmptyString
                        end)) eqn:Htr.
      * destruct (resp_parts response) as [parts|] eqn:Hparts; [|discriminate Htr].
        exists image_success, (Some (first_image parts)). split.
        -- apply Hwrap. left. eapply runs_events.
           ++ eapply runs_bind; [apply runs_new_genai, Hc|]. cbv beta.
              eapply runs_bind; [apply runs_generate, Hg|]. cbv beta zeta.
              rewrite Hparts, Htr.
              eapply runs_bind; [apply runs_modify_ui|]. apply runs_ret.
           ++ reflexivity.
        -- repeat split. exists response, parts. auto.
      * exists image_missing, None. split.
        -- apply Hwrap. left. eapply runs_events.
           ++ eapply runs_bind; [apply runs_new_genai, Hc|]. cbv beta.
              eapply runs_bind; [apply runs_generate, Hg|]. cbv beta zeta.
              rewrite Htr. apply runs_ret.
           ++ reflexivity.
        -- right. repeat split. now exists response.
    + exists image_error, None. split.
      * apply Hwrap. right. split; [reflexivity|]. exists ExnApi.
        unfold throws. change [EvGenerateContent "gemini-2.5-flash-image" prompt]
          with ([] ++ [EvGenerateContent "gemini-2.5-flash-image" prompt]).
        eapply runs_then_throws; [apply runs_new_genai, Hc|]. cbv beta.
        apply throws_bind, throws_generate, Hg.
      * left. auto.
  - exists image_error, None. split.
    + apply Hwrap. right. split; [reflexivity|]. exists ExnApi.
      apply throws_bind, throws_new_genai, Hc.
    + left. auto.
Qed.

Lemma truthy_data_url data : truthy ("data:image/png;base64," +:+ data) = true.
Proof. reflexivity. Qed.

(** X7. The image handler never throws and always ends with the processing
    flag down, the storage and the refs untouched.  It returns one of three
    texts: the success text, and then the image shown is a PNG data URL
    together with the prompt of the call; or one of the two failure texts,
    and then the image shown before is still the one shown. *)
Theorem image_handler_outcome env prompt w :
  let o := generateImageFromVoice env prompt w in
  isProcessingTool (ui (world o)) = false /\
  storage (world o) = storage w /\ refs (world o) = refs w /\
  ((res o = Ret image_success /\
    exists data,
      liveImage (ui (world o)) =
      Some {| url := "data:image/png;base64," +:+ data; prompt := prompt |}) \/
   ((res o = Ret image_missing \/ res o = Ret image_error) /\
    liveImage (ui (world o)) = liveImage (ui w))).
Proof.
  cbv zeta. destruct (image_handler_out env prompt w) as (text & shown & -> & Hshown).
  cbn [res world]. destruct shown as [url|].
  - destruct Hshown as (-> & _ & response & parts & _ & _ & Hurl & Htr).
    repeat split. left. split; [reflexivity|].
    destruct (first_image_shape parts) as [Hempty|[data Hdata]].
    + rewrite <- Hurl, Hempty in Htr. discriminate Htr.
    + exists data. cbn. now rewrite <- Hurl, Hdata.
  - repeat split. right. split; [|reflexivity].
    destruct Hshown as [[-> _]|(-> & _)]; auto.
Qed.

(** X8. Of the parts of the model's answer, the first one with inline data is
    the image shown, whatever comes after it; and an answer without parts, or
    whose parts carry no inline data, gives the text [Failed to generate
    image.] *)
Theorem first_inline_part_is_shown env prompt w response :
  newGoogleGenAI env = true ->
  generateContent env "gemini-2.5-flash-image" prompt = Some response ->
  let o := generateImageFromVoice env prompt w in
  (forall pre data post,
     resp_parts response = Some (pre ++ {| inlineData := Some data |} :: post) ->
     Forall (fun p => inlineData p = None) pre ->
     res o = Ret image_success /\
     liveImage (ui (world o)) =
     Some {| url := "data:image/png;base64," +:+ data; prompt := prompt |}) /\
  (resp_parts response = None \/
   (exists parts, resp_parts response = Some parts /\
                  Forall (fun p => inlineData p = None) parts) ->
   res o = Ret image_missing).
Proof.
  intros Hc Hg. cbv zeta.
  destruct (image_handler_out env prompt w) as (text & shown & -> & Hshown).
  cbn [res world]. split.
  - intros pre data post Hparts Hpre.
    destruct shown as [url|].
    + destruct Hshown as (-> & _ & response' & parts & Hg' & Hparts' & Hurl & _).
      rewrite Hg in Hg'. injection Hg' as <-. rewrite Hparts in Hparts'.
      injection Hparts' as <-. rewrite first_image_skips in Hurl by assumption.
      subst url. split; reflexivity.
    + exfalso. destruct Hshown as [(_ & [Hc'|Hg'])|(_ & _ & response' & Hg' & Htr)];
        [congruence | congruence |].
      rewrite Hg in Hg'. injection Hg' as <-.
      rewrite Hparts, first_image_skips in Htr by assumption. discriminate Htr.
  - intros Hnone. destruct shown as [url|].
    + exfalso. destruct Hshown as (_ & _ & response' & parts & Hg' & Hparts' & Hurl & Htr).
      rewrite Hg in Hg'. injection Hg' as <-.
      destruct Hnone as [Hnone|(parts' & Hparts & Hall)]; [congruence|].
      rewrite Hparts in Hparts'. injection Hparts' as <-.
      rewrite <- Hurl, first_image_none in Htr by assumption. discriminate Htr.
    + destruct Hshown as [(_ & [Hc'|Hg'])|(-> & _)]; [congruence | congruence | reflexivity].
Qed.

Lemma first_inline_part_is_shown_witness :
  liveImage (ui (world (generateImageFromVoice (sample_env 0) (Some "a cat")
                          connected_world)))
  = Some {| url := "data:image/png;base64," +:+ "AAAA"; prompt := Some "a cat" |}.
Proof.
  destruct (first_inline_part_is_shown (sample_env 0) (Some "a cat") connected_world
              {| resp_parts := Some [ {| inlineData := Some "AAAA" |} ];
                 resp_text := Some "{...}" |}) as [Hfirst _]; [reflexivity..|].
  apply (Hfirst [] "AAAA" []); [reflexivity | constructor].
Defined.

(** ** Requests, isolation and the declared tools *)

Lemma silent_events {A} (m : M A) w : quiet (fun _ => false) m -> events (m w) = [].
Proof.
  intros Hq. destruct (Hq w) as [_ He].
  destruct (events (m w)) as [|e evs]; [reflexivity|].
  inversion He; discriminate.
Qed.

Lemma bind_runs_events {A B} (m : M A) (f : A -> M B) w a w1 e1 :
  runs m w a w1 e1 -> events ((m ≫= f) w) = e1 ++ events (f a w1).
Proof. unfold runs. intros H. rewrite bind_out, H. reflexivity. Qed.

Lemma bind_throws_events {A B} (m : M A) (f : A -> M B) w e w1 e1 :
  throws m w e w1 e1 -> events ((m ≫= f) w) = e1.
Proof. unfold throws. intros H. rewrite bind_out, H. reflexivity. Qed.

Lemma generateCode_try_events env description w :
  events (generateCode_try env description w) =
  if newGoogleGenAI env && negb (historyThrows env LoadFiles) then
    [EvGenerateContent "gemini-3-flash-preview"
       (Some (code_prompt description (default [] (files_store (storage w)))))]
  else [].
Proof.
  unfold generateCode_try. destruct (newGoogleGenAI env) eqn:Hc; cbn [andb].
  - destruct (historyThrows env LoadFiles) eqn:Hl; cbn [negb].
    { rewrite (bind_runs_events _ _ _ _ _ _ (runs_new_genai env w Hc)).
      now rewrite (bind_throws_events _ _ _ _ _ _ (throws_load_files env w Hl)). }
    rewrite (bind_runs_events _ _ _ _ _ _ (runs_new_genai env w Hc)).
    rewrite (bind_runs_events _ _ _ _ _ _ (runs_load_files env w Hl)).
    destruct (generateContent env "gemini-3-flash-preview"
                (Some (code_prompt description (default [] (files_store (storage w))))))
      as [response|] eqn:Hg.
    + rewrite (bind_runs_events _ _ _ _ _ _ (runs_generate env _ _ response w Hg)).
      rewrite silent_events; [reflexivity|].
      unfold parse, get_files, saveToHistory_files, saveToHistory_chat,
        loadFromHistory_chat, history_call. frame.
    + now rewrite (bind_throws_events _ _ _ _ _ _ (throws_generate env _ _ w Hg)).
  - now rewrite (bind_throws_events _ _ _ _ _ _ (throws_new_genai env w Hc)).
Qed.

Lemma generateCode_events env description w :
  events (generateCodeFromVoice env description w) =
  events (generateCode_try env description (tool_started "Writing code..." w)).
Proof.
  destruct (generateCode_try env description (tool_started "Writing code..." w))
    as [[r|e] w1 evs] eqn:Hbody; cbn [events].
  - pose proof (codegen_returns env description w r w1 evs Hbody) as Hrun.
    unfold runs in Hrun. now rewrite Hrun.
  - pose proof (codegen_catches env description w e w1 evs Hbody) as Hrun.
    unfold runs in Hrun. now rewrite Hrun.
Qed.

(** X9. A handler call makes exactly one request to its model when the client
    can be built (and, for the code handler, the stored files can be read),
    and none otherwise, whatever the model answers: the image request
    carries the prompt of the call as it is, the code request the prompt
    built from the description and the names of the stored files. *)
Theorem one_request_per_call env argument w :
  events (generateImageFromVoice env argument w) =
    (if newGoogleGenAI env then [EvGenerateContent "gemini-2.5-flash-image" argument]
     else []) /\
  events (generateCodeFromVoice env argument w) =
    (if newGoogleGenAI env && negb (historyThrows env LoadFiles) then
       [EvGenerateContent "gemini-3-flash-preview"
          (Some (code_prompt argument (default [] (files_store (storage w)))))]
     else []).
Proof.
  split.
  - destruct (image_handler_out env argument w) as (text & shown & -> & _). reflexivity.
  - rewrite generateCode_events, generateCode_try_events. reflexivity.
Qed.

Lemma code_success_not_default description :
  code_success description <> "Tool execution failed".
Proof. unfold code_success. cbn. discriminate. Qed.

(** The code handler, whatever happens: a text that is not the dispatcher's
    default, the image untouched, the processing flag down. *)
Lemma code_handler_out env description w :
  exists text w' evs,
    generateCodeFromVoice env description w = MkOut (Ret text) w' evs /\
    text <> "Tool execution failed" /\
    liveImage (ui w') = liveImage (ui w) /\ isProcessingTool (ui w') = false.
Proof.
  destruct (codegen_cases env description (default [] (files_store (storage w))))
    as [(newFiles & result & Hok)|[(text & Hf)|(newFiles & result & Hf)]].
  - pose proof (codegen_success_out env description w newFiles result Hok) as Hrun.
    unfold runs in Hrun. eexists _, _, _. split; [exact Hrun|].
    split; [apply code_success_not_default | split; reflexivity].
  - destruct (codegen_failure_out env description w text Hf) as [evs Hrun].
    unfold runs in Hrun. eexists _, _, _. split; [exact Hrun|].
    split; [destruct Hf; discriminate | split; reflexivity].
  - pose proof (codegen_after_save_out env description w newFiles result Hf) as Hrun.
    unfold runs in Hrun. eexists _, _, _. split; [exact Hrun|].
    split; [discriminate | split; reflexivity].
Qed.

(** One function call, by the name of the call. *)
Lemma handle_function_call_cases env fc w :
  (fc_name fc = "generate_image" /\
   handle_function_call env fc w =
   (generateImageFromVoice env (fc_args fc !! "prompt") ≫= fun result =>
      emit (EvSendToolResponse (fc_name fc) (fc_id fc) result)) w) \/
  (fc_name fc = "generate_code" /\
   handle_function_call env fc w =
   (generateCodeFromVoice env (fc_args fc !! "description") ≫= fun result =>
      emit (EvSendToolResponse (fc_name fc) (fc_id fc) result)) w) \/
  (fc_name fc <> "generate_image" /\ fc_name fc <> "generate_code" /\
   handle_function_call env fc w =
   MkOut (Ret tt) w
     [EvSendToolResponse (fc_name fc) (fc_id fc) "Tool execution failed"]).
Proof.
  unfold handle_function_call.
  destruct (String.eqb_spec (fc_name fc) "generate_image") as [Himg|Himg]; [now left|].
  destruct (String.eqb_spec (fc_name fc) "generate_code") as [Hcode|Hcode];
    [right; now left|].
  right. right. auto.
Qed.

(** ** One call at a time *)

(** One function call on its own: it always returns, and its calls are at
    most the request of its own handler, then the send of its result. *)
Lemma handle_function_call_segment env fc w :
  exists w1 seg,
    runs (handle_function_call env fc) w tt w1 seg /\ call_segment fc seg.
Proof.
  unfold runs.
  destruct (handle_function_call_cases env fc w)
    as [(Hname & ->)|[(Hname & ->)|(_ & _ & ->)]].
  - destruct (image_handler_out env (fc_args fc !! "prompt") w)
      as (text & shown & Hout & _).
    rewrite bind_out, Hout. cbn [res world events emit].
    eexists _, _. split; [reflexivity|]. exists text.
    destruct (newGoogleGenAI env); [right | now left].
    eexists. split; [left; split; [exact Hname | reflexivity] | reflexivity].
  - destruct (code_handler_out env (fc_args fc !! "description") w)
      as (text & w' & evs & Hout & _).
    pose proof (generateCode_events env (fc_args fc !! "description") w) as Hev.
    rewrite generateCode_try_events, Hout in Hev. cbn [events] in Hev. subst evs.
    rewrite bind_out, Hout. cbn [res world events emit].
    eexists _, _. split; [reflexivity|]. exists text.
    destruct (newGoogleGenAI env && negb (historyThrows env LoadFiles));
      [right | now left].
    eexists. split; [right; split; [exact Hname | eexists; reflexivity] | reflexivity].
  - eexists _, _. split; [reflexivity|]. eexists. now left.
Qed.

Lemma for_of_call_segments env calls w :
  exists w1 segs,
    runs (for_of calls (handle_function_call env)) w tt w1 (concat segs) /\
    Forall2 call_segment calls segs.
Proof.
  revert w. induction calls as [|fc calls IH]; intros w.
  - exists w, []. split; [reflexivity | constructor].
  - destruct (handle_function_call_segment env fc w) as (w1 & seg & Hrun & Hseg).
    destruct (IH w1) as (w2 & segs & Hrun' & Hsegs).
    exists w2, (seg :: segs). split.
    + cbn [for_of concat]. eapply runs_bind; eassumption.
    + now constructor.
Qed.

(** The calls of a whole message: for each function call in order its own
    segment, then at most the start of the chunk. *)
Lemma onmessage_call_segments env msg w :
  exists segs audio,
    events (onmessage env msg w) = concat segs ++ audio /\
    Forall2 call_segment (default [] (toolCall msg)) segs /\
    (audio = [] \/ exists src s d, audio = [EvPlaybackStart src s d]).
Proof.
  destruct (onmessage_out env msg w) as (w1 & evs & Hrun & _ & _ & ->).
  assert (Hsegs : exists w1' segs,
            runs (dispatch_tool_calls env msg) w tt w1' (concat segs) /\
            Forall2 call_segment (default [] (toolCall msg)) segs).
  { unfold dispatch_tool_calls. destruct (toolCall msg) as [calls|]; cbn [default].
    - apply for_of_call_segments.
    - exists w, []. split; [reflexivity | constructor]. }
  destruct Hsegs as (w1' & segs & Hrun' & Hsegs).
  destruct (runs_inj _ _ _ _ _ _ _ _ Hrun Hrun') as (_ & _ & ->).
  exists segs.
  destruct (chunk_of msg w1) as [data|]; [destruct (decodeAudioData env data) as [b|]|];
    cbn [events].
  - eexists. split; [reflexivity|]. split; [assumption|]. right. eauto.
  - exists []. rewrite app_nil_r. auto.
  - exists []. rewrite app_nil_r. auto.
Qed.

(** Segments of calls handled on their own never overlap: when a request is
    made, the result of every earlier request has been sent. *)
Lemma call_segments_apart calls segs rest :
  Forall2 call_segment calls segs ->
  handlers_overlap false (concat segs ++ rest) = handlers_overlap false rest.
Proof.
  induction 1 as [|fc seg calls segs Hseg _ IH]; [reflexivity|].
  cbn [concat]. rewrite <- app_assoc.
  destruct Hseg as (result & [->|(request & Hreq & ->)]).
  - cbn. exact IH.
  - destruct Hreq as [(_ & ->)|(_ & existingFiles & ->)]; cbn; exact IH.
Qed.

Lemma call_segments_tool_events calls segs :
  Forall2 call_segment calls segs ->
  Forall (fun e => tool_event e = true) (concat segs).
Proof.
  induction 1 as [|fc seg calls segs Hseg _ IH]; [constructor|].
  cbn [concat]. apply Forall_app. split; [|exact IH].
  destruct Hseg as (result & [->|(request & Hreq & ->)]); [now repeat constructor|].
  destruct Hreq as [(_ & ->)|(_ & existingFiles & ->)]; now repeat constructor.
Qed.

(** C3 (as the code has it). The function calls of a message are handled one
    at a time and in order, each to the send of its result, and only then is
    the chunk of the message played.  The calls of [onmessage] are, for each
    function call in order, the segment of that call alone (at most the one
    request of its own handler, then the send of its result), followed by at
    most the start of the chunk.  So no handler makes its request while an
    earlier one has not delivered its result, and no tool result is ever
    sent after the start of the chunk. *)
Theorem C3_tool_calls_then_chunk env msg w :
  exists segs audio,
    events (onmessage env msg w) = concat segs ++ audio /\
    Forall2 call_segment (default [] (toolCall msg)) segs /\
    (audio = [] \/ exists src s d, audio = [EvPlaybackStart src s d]) /\
    handlers_overlap false (events (onmessage env msg w)) = false /\
    result_after_start (events (onmessage env msg w)) = false.
Proof.
  destruct (onmessage_call_segments env msg w) as (segs & audio & Hev & Hsegs & Haudio).
  exists segs, audio. repeat split; try assumption; rewrite Hev.
  - rewrite (call_segments_apart _ _ audio Hsegs).
    destruct Haudio as [->|(src & s & d & ->)]; reflexivity.
  - apply result_after_start_tools; [|assumption].
    eapply call_segments_tool_events; eassumption.
Qed.

(** C3, the claim as stated, fails: with two image requests and a chunk in
    one message, the second handler's request is made only after the first
    result has been sent, and the chunk is started after both results. *)
Lemma C3_counterexample :
  events (onmessage (sample_env 0) calls_and_chunk connected_world) =
    [EvGenerateContent "gemini-2.5-flash-image" (Some "a cat");
     EvSendToolResponse "generate_image" "x1"
       "Image generated and displayed successfully.";
     EvGenerateContent "gemini-2.5-flash-image" (Some "a dog");
     EvSendToolResponse "generate_image" "x2"
       "Image generated and displayed successfully.";
     EvPlaybackStart 6 0 12000] /\
  ~ (handlers_overlap false
       (events (onmessage (sample_env 0) calls_and_chunk connected_world)) = true \/
     result_after_start
       (events (onmessage (sample_env 0) calls_and_chunk connected_world)) = true).
Proof.
  split; [vm_compute; reflexivity|].
  intros [H|H]; vm_compute in H; discriminate H.
Qed.

(** X10. Tool calls keep to themselves.  Whatever a function call does, the
    refs, the connection flag, the speaking flag and the status are as
    before; only the code tool can change the stored files and chat, only
    the image tool can change the image shown; and after a call of either
    tool the processing banner is gone. *)
Theorem tool_calls_keep_to_themselves env fc w :
  let o := handle_function_call env fc w in
  session_view (world o) = session_view w /\
  (fc_name fc <> "generate_code" -> storage (world o) = storage w) /\
  (fc_name fc <> "generate_image" -> liveImage (ui (world o)) = liveImage (ui w)) /\
  (fc_name fc = "generate_image" \/ fc_name fc = "generate_code" ->
   view_banner (render (ui (world o))) = None).
Proof.
  cbv zeta. split; [apply quiet_handle_function_call|].
  destruct (handle_function_call_cases env fc w)
    as [(Hname & ->)|[(Hname & ->)|(Himg & Hcode & ->)]].
  - destruct (image_handler_out env (fc_args fc !! "prompt") w)
      as (text & shown & Hout & _).
    rewrite bind_out, Hout. cbn [res world events emit].
    repeat split.
    + now destruct shown.
    + intros Hne. contradiction.
  - destruct (code_handler_out env (fc_args fc !! "description") w)
      as (text & w' & evs & Hout & _ & Himage & Hflag).
    rewrite bind_out, Hout. cbn [res world events emit].
    repeat split.
    + intros Hne. contradiction.
    + intros _. exact Himage.
    + intros _. unfold render. cbn [view_banner]. now rewrite Hflag.
  - cbn [world]. repeat split. intros [H|H]; contradiction.
Qed.

Lemma tool_calls_keep_to_themselves_witness :
  storage (world (handle_function_call (sample_env 0) (image_call "x1" "a cat")
                    stored_world)) = storage stored_world /\
  view_banner (render (ui (world (handle_function_call (sample_env 0)
                                    (image_call "x1" "a cat") stored_world)))) = None.
Proof.
  destruct (tool_calls_keep_to_themselves (sample_env 0) (image_call "x1" "a cat")
              stored_world) as (_ & Hstore & _ & Hbanner).
  split; [apply Hstore; discriminate | apply Hbanner; left; reflexivity].
Defined.

Lemma sent_result_requests reqs :
  Forall (fun e => request_event e = true) reqs -> omap sent_result reqs = [].
Proof.
  induction 1 as [|e reqs He _ IH]; [reflexivity|].
  cbn. rewrite IH. now destruct e.
Qed.

(** X11. The dispatcher and the declarations given to the model agree: the
    result sent for a function call is the text [Tool execution failed]
    exactly when the name of the call is not the name of a declared tool. *)
Theorem failure_text_iff_undeclared env fc w :
  omap sent_result (events (handle_function_call env fc w)) = ["Tool execution failed"]
  <-> fc_name fc ∉ decl_name <$> functionDeclarations.
Proof.
  assert (Hdecl : fc_name fc ∈ decl_name <$> functionDeclarations <->
                  fc_name fc = "generate_image" \/ fc_name fc = "generate_code").
  { cbn. rewrite !elem_of_cons, elem_of_nil. tauto. }
  rewrite Hdecl.
  destruct (handle_function_call_cases env fc w)
    as [(Hname & ->)|[(Hname & ->)|(Himg & Hcode & ->)]].
  - destruct (image_handler_out env (fc_args fc !! "prompt") w)
      as (text & shown & Hout & Hshown).
    destruct (quiet_generateImageFromVoice env (fc_args fc !! "prompt") w) as [_ Hreq].
    rewrite bind_out, Hout in *. cbn [res world events emit] in *.
    rewrite omap_app, (sent_result_requests _ Hreq). cbn. split; [|tauto].
    intros [= ->]. exfalso.
    destruct shown; [destruct Hshown as [Ht _]|destruct Hshown as [[Ht _]|[Ht _]]];
      discriminate Ht.
  - destruct (code_handler_out env (fc_args fc !! "description") w)
      as (text & w' & evs & Hout & Htext & _).
    destruct (quiet_generateCodeFromVoice env (fc_args fc !! "description") w) as [_ Hreq].
    rewrite bind_out, Hout in *. cbn [res world events emit] in *.
    rewrite omap_app, (sent_result_requests _ Hreq). cbn. split; [|tauto].
    intros [= ->]. contradiction.
  - cbn. split; [tauto | reflexivity].
Qed.

Lemma failure_text_iff_undeclared_witness :
  omap sent_result (events (handle_function_call (sample_env 0) (video_call "c1")
                              connected_world))
  = ["Tool execution failed"].
Proof.
  apply (proj2 (failure_text_iff_undeclared (sample_env 0) (video_call "c1")
                  connected_world)).
  cbn. rewrite !elem_of_cons, elem_of_nil. intros [H|[H|[]]]; discriminate H.
Defined.

(** X12. Of the arguments of a function call only the one its declaration
    requires is read: two calls with the same name and id that agree on the
    required parameters of the declared tool of that name are handled
    alike, whatever else their arguments hold. *)
Theorem only_required_arguments_matter env fc fc' w :
  fc_name fc = fc_name fc' -> fc_id fc = fc_id fc' ->
  (forall d k, d ∈ functionDeclarations -> decl_name d = fc_name fc ->
               k ∈ decl_required d -> fc_args fc !! k = fc_args fc' !! k) ->
  handle_function_call env fc w = handle_function_call env fc' w.
Proof.
  intros Hname Hid Hargs. unfold handle_function_call. rewrite <- Hname, <- Hid.
  destruct (String.eqb_spec (fc_name fc) "generate_image") as [Himg|Himg].
  - rewrite (Hargs generateImageTool "prompt"); [reflexivity | | now symmetry |].
    + apply list_elem_of_here.
    + apply list_elem_of_here.
  - destruct (String.eqb_spec (fc_name fc) "generate_code") as [Hcode|Hcode];
      [|reflexivity].
    rewrite (Hargs generateCodeTool "description"); [reflexivity | | now symmetry |].
    + apply list_elem_of_further, list_elem_of_here.
    + apply list_elem_of_here.
Qed.

Lemma only_required_arguments_matter_witness :
  handle_function_call (sample_env 0) (image_call "x1" "a cat") connected_world =
  handle_function_call (sample_env 0)
    {| fc_name := "generate_image"; fc_id := "x1";
       fc_args := {[ "prompt" := "a cat"; "style" := "oil" ]} |} connected_world.
Proof.
  apply only_required_arguments_matter; [reflexivity | reflexivity |].
  intros d k Hd Hname Hk. cbn in Hd.
  apply elem_of_cons in Hd as [->|Hd].
  - apply list_elem_of_singleton in Hk as ->. reflexivity.
  - apply list_elem_of_singleton in Hd as ->. discriminate Hname.
Defined.

(** ** The life cycle as the user drives it *)

Lemma onmessage_flags env msg w :
  status (ui (world (onmessage env msg w))) = status (ui w) /\
  isConnected (ui (world (onmessage env msg w))) = isConnected (ui w).
Proof.
  destruct (onmessage_out env msg w) as (w1 & evs & _ & Hv & _ & ->).
  apply session_view_inv in Hv as (_ & Hc & _ & Hst). rewrite <- Hc, <- Hst.
  destruct (chunk_of msg w1) as [data|];
    [destruct (decodeAudioData env data) as [b|]|]; cbn [world].
  - destruct (finish_turn_ui msg (after_play env b w1)) as [-> ->]. now split.
  - now split.
  - destruct (finish_turn_ui msg w1) as [-> ->]. now split.
Qed.

Lemma runs_to {A} (m : M A) w a w1 e1 w2 e2 :
  runs m w a w1 e1 -> w1 = w2 -> e1 = e2 -> runs m w a w2 e2.
Proof. now intros H <- <-. Qed.

Lemma startSession_out env w :
  getUserMedia env = true -> newGoogleGenAI env = true ->
  startSession env w =
  MkOut (Ret tt) (started env w) [EvGetUserMedia; EvLiveConnect (3 + nextId w)].
Proof.
  intros Hmic Hapi. destruct w as [r u sto n].
  change (?m ?w = MkOut (Ret tt) ?w' ?evs) with (runs m w tt w' evs).
  unfold startSession, setStatus, new_GoogleGenAI. rewrite Hmic, Hapi.
  eapply runs_to.
  - apply try_catch_runs. do 12 (eapply runs_bind; [atom | cbn]). atom.
  - reflexivity.
  - reflexivity.
Qed.


Lemma startSession_begin_out env w :
  startSession_begin env w = MkOut (Ret tt) (begun env w) [EvGetUserMedia].
Proof.
  destruct w as [r u sto n].
  change (?m ?w = MkOut (Ret tt) ?w' ?evs) with (runs m w tt w' evs).
  unfold startSession_begin, setStatus. eapply runs_to.
  - apply try_catch_runs. do 6 (eapply runs_bind; [atom | cbn]). atom.
  - reflexivity.
  - reflexivity.
Qed.

Lemma startSession_resume_out env w :
  getUserMedia env = true -> newGoogleGenAI env = true ->
  startSession_resume env w
  = MkOut (Ret tt) (resumed w) [EvLiveConnect (1 + nextId w)].
Proof.
  intros Hmic Hapi. destruct w as [r u sto n].
  change (?m ?w = MkOut (Ret tt) ?w' ?evs) with (runs m w tt w' evs).
  unfold startSession_resume, new_GoogleGenAI. rewrite Hmic, Hapi. eapply runs_to.
  - apply try_catch_runs. do 5 (eapply runs_bind; [atom | cbn]). atom.
  - reflexivity.
  - reflexivity.
Qed.

(** A start that fails after its [await] ends torn down, with status
    [Error]. *)
Lemma startSession_resume_failed env w :
  getUserMedia env = false \/ newGoogleGenAI env = false ->
  isConnected (ui (world (startSession_resume env w))) = false /\
  status (ui (world (startSession_resume env w))) = Error.
Proof.
  intros Hfail.
  assert (Hcatch : forall w1 e evs,
            throws (stream ← (if getUserMedia env then fresh else throw ExnCapture);
                    modify_refs (set_streamRef (Some stream)) ;;
                    new_GoogleGenAI env ;;
                    sessionPromise ← fresh;
                    emit (EvLiveConnect sessionPromise) ;;
                    modify_refs (set_sessionRef (Some sessionPromise))) w e w1 evs ->
            isConnected (ui (world (startSession_resume env w))) = false /\
            status (ui (world (startSession_resume env w))) = Error).
  { intros w1 e evs Hthrow. unfold startSession_resume, try_catch.
    unfold throws in Hthrow. rewrite Hthrow. cbn [res world].
    change ((cleanup ;; setStatus Error) w1) with (onerror w1).
    rewrite onerror_out. split; reflexivity. }
  destruct (getUserMedia env) eqn:Hmic.
  - destruct Hfail as [Hfail|Hapi]; [discriminate Hfail|].
    eapply Hcatch.
    eapply runs_then_throws; [atom|]. cbn.
    eapply runs_then_throws; [atom|]. cbn.
    apply throws_bind, throws_new_genai, Hapi.
  - eapply Hcatch. apply throws_bind, throws_throw.
Qed.

(** [startSession] is its two halves, one after the other. *)
Lemma startSession_split env w :
  startSession env w = (startSession_begin env ;; startSession_resume env) w.
Proof.
  rewrite (bind_out (startSession_begin env)), startSession_begin_out.
  cbn [res world events].
  destruct (getUserMedia env) eqn:Hmic; [destruct (newGoogleGenAI env) eqn:Hapi|].
  - rewrite (startSession_out env w Hmic Hapi),
      (startSession_resume_out env (begun env w) Hmic Hapi).
    reflexivity.
  - destruct w as [r u sto n].
    unfold startSession, startSession_resume, setStatus, new_GoogleGenAI, try_catch.
    rewrite Hmic, Hapi. reflexivity.
  - destruct w as [r u sto n].
    unfold startSession, startSession_resume, setStatus, new_GoogleGenAI, try_catch.
    rewrite Hmic. reflexivity.
Qed.

Lemma deliver_flags i w : flags_agree w -> flags_agree (world (deliver i w)).
Proof.
  unfold flags_agree. intros Hflag. destruct i as [env msg|source| | |]; cbn [deliver].
  - destruct (onmessage_flags env msg w) as [Hst Hc]. now rewrite Hst, Hc.
  - rewrite onended_out. unfold after_ended. cbn [ui]. now destruct (bool_decide _).
  - unfold onclose. rewrite (proj1 (proj2 (cleanup_spec w))). cbn.
    split; discriminate.
  - rewrite onerror_out. cbn. split; discriminate.
  - rewrite (proj1 (proj2 (cleanup_spec w))). cbn. split; discriminate.
Qed.

Lemma perform_flags a w : flags_agree w -> flags_agree (world (perform a w)).
Proof.
  intros Hflag. destruct a as [env|env| | |i]; cbn [perform].
  - unfold click_button, render. cbn [view_button].
    destruct (isConnected (ui w)) eqn:Hc; cbn [negb].
    + rewrite (proj1 (proj2 (cleanup_spec w))). unfold flags_agree. cbn.
      split; discriminate.
    + destruct (status (ui w)) eqn:Hst; try exact Hflag;
        rewrite startSession_begin_out; unfold flags_agree; cbn; rewrite Hc;
        split; discriminate.
  - destruct (getUserMedia env) eqn:Hmic; [destruct (newGoogleGenAI env) eqn:Hapi|].
    + rewrite (startSession_resume_out env w Hmic Hapi). exact Hflag.
    + destruct (startSession_resume_failed env w (or_intror Hapi)) as [Hc Hst].
      unfold flags_agree. rewrite Hc, Hst. split; discriminate.
    + destruct (startSession_resume_failed env w (or_introl Hmic)) as [Hc Hst].
      unfold flags_agree. rewrite Hc, Hst. split; discriminate.
  - unfold click_close_image, render. cbn [view_image].
    destruct (liveImage (ui w)); exact Hflag.
  - rewrite onopen_out. unfold flags_agree. cbn. split; reflexivity.
  - now apply deliver_flags.
Qed.

Lemma session_run_flags actions w :
  flags_agree w -> flags_agree (fst (session_run actions w)).
Proof.
  revert w. induction actions as [|a rest IH]; intros w Hflag; [exact Hflag|].
  cbn [session_run fst]. apply IH. now apply perform_flags.
Qed.

(** X13. The life cycle with the start suspended at its [await].  However
    the user clicks and whatever settles or calls back in between, the
    connection flag is up exactly when the status is [Connected].  But an
    enabled start button does not tell that nothing is held: when a close
    callback runs while a start waits for the microphone, the teardown
    closes the two contexts the start has made, and the start then goes on
    all the same; it stores the stream and the session in a state that
    shows the enabled start button, with status [Disconnected] and without
    contexts.  The next start puts a new stream and a new session in their
    place and releases nothing. *)
Theorem start_survives_teardown :
  (forall actions,
     flags_agree (fst (session_run actions initial_world))) /\
  (forall env env' w label,
     view_button (render (ui w)) = StartButton false label ->
     getUserMedia env' = true -> newGoogleGenAI env' = true ->
     let raced :=
       session_run [ClickButton env; Deliver InClose; MicrophoneSettles env'] w in
     view_button (render (ui (fst raced))) = StartButton false "Start Conversation" /\
     status (ui (fst raced)) = Disconnected /\
     streamRef (refs (fst raced)) = Some (2 + nextId w)%nat /\
     sessionRef (refs (fst raced)) = Some (3 + nextId w)%nat /\
     audioContextRef (refs (fst raced)) = None /\
     inputContextRef (refs (fst raced)) = None /\
     EvAudioContextClose (nextId w) ∈ snd raced /\
     EvInputContextClose (1 + nextId w)%nat ∈ snd raced /\
     EvLiveConnect (3 + nextId w)%nat ∈ snd raced /\
     forall env2,
       getUserMedia env2 = true -> newGoogleGenAI env2 = true ->
       let again :=
         session_run [ClickButton env2; MicrophoneSettles env2] (fst raced) in
       List.filter owned_release (snd again) = [] /\
       streamRef (refs (fst again)) = Some (6 + nextId w)%nat /\
       sessionRef (refs (fst again)) = Some (7 + nextId w)%nat).
Proof.
  split.
  - intros actions. apply session_run_flags. unfold flags_agree. cbn.
    split; discriminate.
  - intros env env' w label Hbutton Hmic Hapi. cbv zeta.
    assert (Hclick : click_button env w = MkOut (Ret tt) (begun env w) [EvGetUserMedia])
      by (unfold click_button; rewrite Hbutton; apply startSession_begin_out).
    cbn [session_run perform deliver fst snd]. rewrite !Hclick. cbn [world events].
    unfold onclose.
    destruct (cleanup_spec (begun env w)) as (_ & Hworld & Hevents & _).
    rewrite !Hworld, !Hevents, !(startSession_resume_out env' _ Hmic Hapi).
    cbn [world events]. rewrite !app_nil_r.
    assert (Hclick2 : forall env2,
              click_button env2 (resumed (cleaned (begun env w)))
              = MkOut (Ret tt) (begun env2 (resumed (cleaned (begun env w))))
                  [EvGetUserMedia])
      by (intros env2; apply startSession_begin_out).
    split_and!; try reflexivity.
    + unfold cleanup_calls. cbn.
      repeat first [rewrite elem_of_cons | rewrite elem_of_app]. auto 20.
    + unfold cleanup_calls. cbn.
      repeat first [rewrite elem_of_cons | rewrite elem_of_app]. auto 20.
    + repeat first [rewrite elem_of_cons | rewrite elem_of_app]. auto 20.
    + intros env2 Hmic2 Hapi2. rewrite !Hclick2. cbn [world events].
      rewrite !(startSession_resume_out env2 _ Hmic2 Hapi2).
      split_and!; reflexivity.
Qed.

Lemma start_survives_teardown_witness :
  view_button
    (render (ui (fst (session_run
                        [ClickButton (sample_env 0); Deliver InClose;
                         MicrophoneSettles (sample_env 0)] initial_world))))
  = StartButton false "Start Conversation" /\
  streamRef
    (refs (fst (session_run
                  [ClickButton (sample_env 0); Deliver InClose;
                   MicrophoneSettles (sample_env 0)] initial_world)))
  = Some 2%nat.
Proof.
  destruct start_survives_teardown as [_ Hrace].
  destruct (Hrace (sample_env 0) (sample_env 0) initial_world "Start Conversation")
    as (Hbutton & _ & Hstream & _); [reflexivity..|].
  split; [exact Hbutton | exact Hstream].
Defined.



(** X15. The close callback that follows an error callback (a transport
    error is followed by the close of the socket) runs the teardown again:
    it releases nothing a second time, but it puts the status back to
    [Disconnected], so the error notice is no longer rendered and the start
    button is enabled. *)
Theorem close_after_error_clears_error w :
  let w2 := world (onclose (world (onerror w))) in
  view_error (render (ui (world (onerror w)))) = true /\
  w2 = cleaned w /\
  List.filter owned_release (events (onclose (world (onerror w)))) = [] /\
  view_error (render (ui w2)) = false /\
  view_button (render (ui w2)) = StartButton false "Start Conversation".
Proof.
  cbv zeta. rewrite onerror_out. cbn [world]. unfold onclose.
  destruct (cleanup_spec (errored w)) as (_ & -> & _ & ->).
  repeat split.
Qed.

(** X16. Opening.  With the input context in place, [onopen] marks the
    session connected and arms the capture with a new source node and a new
    processor node, which differ.  When the teardown has already run (the
    open arrives late), it still marks the session connected, showing the
    End Session button, but arms nothing and holds nothing. *)
Theorem open_arms_capture_or_nothing :
  (forall w ictx,
     inputContextRef (refs w) = Some ictx ->
     events (onopen w) = [EvCaptureArmed (nextId w) (S (nextId w))] /\
     sourceRef (refs (world (onopen w))) = Some (nextId w) /\
     processorRef (refs (world (onopen w))) = Some (S (nextId w)) /\
     status (ui (world (onopen w))) = Connected /\
     isConnected (ui (world (onopen w))) = true) /\
  (forall w,
     events (onopen (world (cleanup w))) = [] /\
     released (refs (world (onopen (world (cleanup w))))) /\
     status (ui (world (onopen (world (cleanup w))))) = Connected /\
     view_button (render (ui (world (onopen (world (cleanup w)))))) = EndButton).
Proof.
  split.
  - intros w ictx Hin. rewrite onopen_out. cbn [events world]. unfold opened.
    rewrite Hin. repeat split.
  - intros w. rewrite (proj1 (proj2 (cleanup_spec w))), onopen_out.
    cbn [events world]. repeat split.
Qed.

Lemma open_arms_capture_or_nothing_witness :
  events (onopen (world (startSession (sample_env 0) initial_world)))
  = [EvCaptureArmed 4 5].
Proof.
  destruct open_arms_capture_or_nothing as [Harm _].
  destruct (Harm (world (startSession (sample_env 0) initial_world)) 1%nat)
    as (Hev & _); [reflexivity|]. exact Hev.
Defined.

(** X17. A whole session, from start to stop.  From a torn-down state, a
    start that gets the microphone and the client, the open of the
    transport, any events, and a stop lead back to a torn-down state; and
    with no events in between, the stop releases exactly the six handles
    that the start and the open acquired, each once. *)
Theorem session_round_trip env w :
  torn_down w -> getUserMedia env = true -> newGoogleGenAI env = true ->
  let opened_world := world (onopen (world (startSession env w))) in
  (forall inbound,
     torn_down (fst (run (inbound ++ [InStop]) opened_world))) /\
  List.filter owned_release (events (cleanup opened_world))
  = [EvSessionClose (3 + nextId w); EvProcessorDisconnect (5 + nextId w);
     EvSourceDisconnect (4 + nextId w); EvStreamStop (2 + nextId w);
     EvInputContextClose (1 + nextId w); EvAudioContextClose (nextId w)].
Proof.
  intros Hdown Hmic Hapi. cbv zeta. split.
  - intros inbound. rewrite run_app. cbn [fst run deliver].
    rewrite (proj1 (proj2 (cleanup_spec _))). apply cleaned_torn_down.
  - destruct Hdown as [(H1 & H2 & H3 & H4 & H5 & H6 & H7) _].
    rewrite (startSession_out env w Hmic Hapi), onopen_out. cbn [world].
    destruct (cleanup_spec (opened (started env w))) as (_ & _ & _ & ->).
    unfold held, opened, started. cbn. rewrite H7, elements_empty.
    reflexivity.
Qed.

Lemma session_round_trip_witness :
  List.filter owned_release
    (events (cleanup (world (onopen (world (startSession (sample_env 0)
                                              initial_world))))))
  = [EvSessionClose 3; EvProcessorDisconnect 5; EvSourceDisconnect 4;
     EvStreamStop 2; EvInputContextClose 1; EvAudioContextClose 0].
Proof.
  destruct (session_round_trip (sample_env 0) initial_world) as [_ Hrel];
    [repeat split | reflexivity | reflexivity |].
  exact Hrel.
Defined.

(** ** More on the file merge *)

Lemma first_occurrences_ext seen seen' names :
  (forall x, x ∈ seen <-> x ∈ seen') ->
  first_occurrences seen names = first_occurrences seen' names.
Proof.
  revert seen seen'. induction names as [|n names IH]; intros seen seen' Hext;
    [reflexivity|].
  cbn. rewrite (bool_decide_ext _ _ (Hext n)).
  destruct (bool_decide (n ∈ seen')); [now apply IH|].
  f_equal. apply IH. intros x. rewrite !elem_of_cons, Hext. tauto.
Qed.

Lemma first_occurrences_elem seen names x :
  x ∈ first_occurrences seen names <-> x ∈ names /\ x ∉ seen.
Proof.
  revert seen. induction names as [|n names IH]; intros seen; cbn.
  - rewrite elem_of_nil. tauto.
  - destruct (bool_decide_reflect (n ∈ seen)) as [Hin|Hout].
    + rewrite IH, elem_of_cons. split; [tauto|].
      intros [[->|Hx] Hnot]; [contradiction | tauto].
    + rewrite !elem_of_cons, IH, elem_of_cons.
      destruct (decide (x = n)) as [->|Hne]; tauto.
Qed.

Lemma first_occurrences_fresh seen names :
  NoDup names -> (forall x, x ∈ names -> x ∉ seen) ->
  first_occurrences seen names = names.
Proof.
  revert seen. induction names as [|n names IH]; intros seen Hnodup Hfresh;
    [reflexivity|].
  apply NoDup_cons in Hnodup as [Hn Hnodup]. cbn.
  rewrite bool_decide_eq_false_2 by (apply Hfresh; left).
  f_equal. apply IH; [assumption|].
  intros x Hx. rewrite elem_of_cons. intros [->|Hseen]; [contradiction|].
  apply (Hfresh x); [now right | assumption].
Qed.

Lemma first_occurrences_seen seen names :
  (forall x, x ∈ names -> x ∈ seen) -> first_occurrences seen names = [].
Proof.
  induction names as [|n names IH]; intros Hseen; [reflexivity|].
  cbn. rewrite bool_decide_eq_true_2 by (apply Hseen; left).
  apply IH. intros x Hx. apply Hseen. now right.
Qed.

Lemma Map_set_keys {V} k (v : V) m :
  fst <$> Map_set k v m =
  if bool_decide (k ∈ fst <$> m) then fst <$> m else (fst <$> m) ++ [k].
Proof.
  induction m as [|[k0 v0] m IH]; cbn; [reflexivity|].
  destruct (String.eqb_spec k k0) as [->|Hne]; cbn.
  - rewrite bool_decide_eq_true_2 by left. reflexivity.
  - rewrite IH. destruct (bool_decide_reflect (k ∈ fst <$> m)) as [Hin|Hout].
    + rewrite bool_decide_eq_true_2 by now right. reflexivity.
    + rewrite bool_decide_eq_false_2; [reflexivity|].
      rewrite elem_of_cons. tauto.
Qed.

Lemma fold_set_keys files m :
  fst <$> fold_left (fun m f => Map_set (filename f) f m) files m =
  (fst <$> m) ++ first_occurrences (fst <$> m) (filename <$> files).
Proof.
  revert m. induction files as [|f files IH]; intros m; cbn [fold_left].
  - cbn. now rewrite app_nil_r.
  - rewrite IH, Map_set_keys. cbn [fmap list_fmap first_occurrences].
    destruct (bool_decide (filename f ∈ fst <$> m)); [reflexivity|].
    rewrite <- app_assoc. cbn. do 2 f_equal.
    apply first_occurrences_ext. intros x.
    rewrite elem_of_app, !elem_of_cons, elem_of_nil. tauto.
Qed.

Lemma values_names m :
  Forall (fun e => fst e = filename (snd e)) m ->
  filename <$> Map_values m = fst <$> m.
Proof.
  unfold Map_values. induction 1 as [|[k f] m He _ IH]; cbn in *; [reflexivity|].
  now rewrite IH, He.
Qed.

Lemma merge_files_names existingFiles newFiles :
  filename <$> merge_files existingFiles newFiles =
  first_occurrences [] (filename <$> existingFiles)
  ++ first_occurrences (filename <$> existingFiles) (filename <$> newFiles).
Proof.
  unfold merge_files. rewrite Map_new_files, values_names.
  - rewrite !fold_set_keys. cbn [fmap list_fmap app]. f_equal.
    apply first_occurrences_ext. intros x.
    rewrite first_occurrences_elem, elem_of_nil. tauto.
  - apply fold_set_well_keyed, fold_set_well_keyed. split; constructor.
Qed.

(** X18. The merge keeps the order of a [Map]: first the names of the stored
    files in their stored order (a name stored twice counted where it first
    occurs), then the names that are new, in the order in which the
    generated files first bring them.  With stored names that differ, the
    stored files keep their places and new ones go to the end. *)
Theorem merge_keeps_order existingFiles newFiles :
  filename <$> merge_files existingFiles newFiles =
    first_occurrences [] (filename <$> existingFiles)
    ++ first_occurrences (filename <$> existingFiles) (filename <$> newFiles) /\
  (NoDup (filename <$> existingFiles) ->
   filename <$> merge_files existingFiles newFiles =
     (filename <$> existingFiles)
     ++ first_occurrences (filename <$> existingFiles) (filename <$> newFiles)).
Proof.
  split; [apply merge_files_names|].
  intros Hnodup. rewrite merge_files_names. f_equal.
  apply first_occurrences_fresh; [assumption|]. intros x _. apply not_elem_of_nil.
Qed.

Lemma merge_keeps_order_witness :
  filename <$> merge_files [sample_file "a.js" "old"; sample_file "b.js" "keep"]
                 [sample_file "c.js" "add"; sample_file "a.js" "new"]
  = ["a.js"; "b.js"] ++ first_occurrences ["a.js"; "b.js"] ["c.js"; "a.js"].
Proof.
  apply (proj2 (merge_keeps_order
                  [sample_file "a.js" "old"; sample_file "b.js" "keep"]
                  [sample_file "c.js" "add"; sample_file "a.js" "new"])).
  repeat constructor; rewrite ?elem_of_cons, ?elem_of_nil; intros H;
    repeat (destruct H as [H|H]; try discriminate H); exact H.
Defined.

Lemma file_named_absent name files :
  name ∉ filename <$> files -> file_named name files = None.
Proof.
  unfold file_named. induction files as [|f files IH]; cbn; [reflexivity|].
  rewrite elem_of_cons. intros Hout.
  destruct (String.eqb_spec name (filename f)) as [->|Hne]; [tauto|].
  apply IH. tauto.
Qed.

Lemma last_named_nodup name files :
  NoDup (filename <$> files) -> last_named name files = file_named name files.
Proof.
  induction files as [|f files IH]; [reflexivity|].
  cbn [fmap list_fmap]. intros Hnodup. apply NoDup_cons in Hnodup as [Hf Hnodup].
  change (f :: files) with ([f] ++ files). rewrite last_named_app, (IH Hnodup).
  unfold last_named, file_named at 2 3. cbn.
  destruct (String.eqb_spec name (filename f)) as [->|Hne].
  - now rewrite (file_named_absent _ _ Hf).
  - fold (file_named name files). now destruct (file_named name files).
Qed.

(** A list of files with different names is determined by its names and by
    the file found under each name. *)
Lemma files_ext l1 l2 :
  NoDup (filename <$> l1) -> filename <$> l1 = filename <$> l2 ->
  (forall name, file_named name l1 = file_named name l2) -> l1 = l2.
Proof.
  revert l2. induction l1 as [|f1 l1 IH]; intros [|f2 l2] Hnodup Hnames Hfind;
    try discriminate Hnames; [reflexivity|].
  cbn [fmap list_fmap] in *. injection Hnames as Hname Hnames.
  apply NoDup_cons in Hnodup as [Hf1 Hnodup].
  assert (Hhead : f1 = f2).
  { specialize (Hfind (filename f1)). unfold file_named in Hfind. cbn in Hfind.
    rewrite <- Hname, String.eqb_refl in Hfind. now injection Hfind. }
  subst f2. f_equal. apply IH; [assumption | assumption |].
  intros name. destruct (decide (name = filename f1)) as [Heq|Hne].
  - rewrite Heq, !file_named_absent; [reflexivity | now rewrite <- Hnames | assumption].
  - specialize (Hfind name). unfold file_named in *. cbn in Hfind.
    apply String.eqb_neq in Hne. now rewrite Hne in Hfind.
Qed.

(** X19. Merging is stable.  With stored files whose names differ, merging
    no generated files gives back the stored list as it is; and merging the
    same generated files a second time changes nothing any more. *)
Theorem merge_is_stable existingFiles newFiles :
  (NoDup (filename <$> existingFiles) -> merge_files existingFiles [] = existingFiles) /\
  merge_files (merge_files existingFiles newFiles) newFiles
  = merge_files existingFiles newFiles.
Proof.
  split.
  - intros Hnodup.
    destruct (merge_files_spec existingFiles []) as [Hmerged Hfind].
    apply files_ext; [exact Hmerged | |].
    + rewrite merge_files_names. cbn. rewrite app_nil_r.
      apply first_occurrences_fresh; [assumption|]. intros x _. apply not_elem_of_nil.
    + intros name. rewrite Hfind. cbn. now apply last_named_nodup.
  - destruct (merge_files_spec existingFiles newFiles) as [Hmerged Hfind].
    destruct (merge_files_spec (merge_files existingFiles newFiles) newFiles)
      as [Hagain Hfind'].
    apply files_ext; [exact Hagain | |].
    + rewrite (merge_files_names (merge_files existingFiles newFiles)).
      rewrite first_occurrences_fresh;
        [|assumption|intros x _; apply not_elem_of_nil].
      rewrite first_occurrences_seen; [apply app_nil_r|].
      intros x Hx. rewrite merge_files_names, elem_of_app, !first_occurrences_elem.
      destruct (decide (x ∈ filename <$> existingFiles)) as [Hin|Hout].
      * left. split; [assumption | apply not_elem_of_nil].
      * right. now split.
    + intros name. rewrite Hfind', (last_named_nodup _ _ Hmerged), Hfind.
      now destruct (last_named name newFiles).
Qed.

Lemma merge_is_stable_witness :
  merge_files [sample_file "a.js" "old"; sample_file "b.js" "keep"] []
  = [sample_file "a.js" "old"; sample_file "b.js" "keep"].
Proof.
  apply (proj1 (merge_is_stable [sample_file "a.js" "old"; sample_file "b.js" "keep"] [])).
  repeat constructor; rewrite ?elem_of_cons, ?elem_of_nil; intros H;
    repeat (destruct H as [H|H]; try discriminate H); exact H.
Defined.

Lemma Map_set_absent {V} k (v : V) m :
  k ∉ fst <$> m -> Map_set k v m = m ++ [(k, v)].
Proof.
  induction m as [|[k0 v0] m IH]; cbn; [reflexivity|].
  rewrite elem_of_cons. intros Hout.
  destruct (String.eqb_spec k k0) as [->|Hne]; [tauto|].
  rewrite IH; [reflexivity | tauto].
Qed.

Lemma fold_set_fresh files m :
  NoDup ((fst <$> m) ++ (filename <$> files)) ->
  fold_left (fun m f => Map_set (filename f) f m) files m
  = m ++ ((fun f => (filename f, f)) <$> files).
Proof.
  revert m. induction files as [|f files IH]; intros m Hnodup; cbn [fold_left].
  - cbn. now rewrite app_nil_r.
  - cbn [fmap list_fmap] in *.
    apply NoDup_app in Hnodup as (Hm & Hdisj & Hfiles).
    apply NoDup_cons in Hfiles as [Hf Hfiles].
    rewrite Map_set_absent by (intros Hin; apply (Hdisj _ Hin); left).
    rewrite IH.
    + now rewrite <- app_assoc.
    + rewrite fmap_app. cbn. rewrite <- app_assoc. cbn.
      apply NoDup_app. repeat split; [assumption| |now apply NoDup_cons].
      intros x Hx. apply Hdisj. exact Hx.
Qed.

(** A well-keyed map is the map built anew from its own values. *)
Lemma Map_new_values m :
  well_keyed m -> Map_new (map (fun f => (filename f, f)) (Map_values m)) = m.
Proof.
  intros [Hk Hn]. rewrite Map_new_files, fold_set_fresh.
  - cbn. unfold Map_values. clear Hn.
    induction Hk as [|[k f] m He _ IH]; cbn in *; [reflexivity|].
    now rewrite IH, He.
  - cbn. now rewrite values_names.
Qed.

(** The merged list, read back into a [Map], is the map the merge built. *)
Lemma merge_files_map existingFiles newFiles :
  Map_new (map (fun f => (filename f, f)) (merge_files existingFiles newFiles))
  = fold_left (fun m f => Map_set (filename f) f m) newFiles
      (Map_new (map (fun f => (filename f, f)) existingFiles)).
Proof.
  unfold merge_files. apply Map_new_values.
  rewrite Map_new_files. apply fold_set_well_keyed, fold_set_well_keyed.
  split; constructor.
Qed.

(** X20. Merging composes: merging one lot of generated files and then
    another into the store gives the same list as merging both lots at
    once, the second after the first. *)
Theorem merge_composes existingFiles files1 files2 :
  merge_files (merge_files existingFiles files1) files2
  = merge_files existingFiles (files1 ++ files2).
Proof.
  unfold merge_files at 1 3. now rewrite fold_left_app, merge_files_map.
Qed.

(** X21. Two code generations in a row.  When both succeed, the second one
    being asked with the files the first one left, the store ends up with
    the merge of the stored files with both lots, and the chat log with the
    two user and model pairs after the old entries, in the order of the
    calls. *)
Theorem two_generations_in_a_row env1 d1 env2 d2 w files1 result1 files2 result2 :
  codegen_succeeds env1 d1 (default [] (files_store (storage w))) files1 result1 ->
  codegen_succeeds env2 d2
    (merge_files (default [] (files_store (storage w))) files1) files2 result2 ->
  let w2 := world (generateCodeFromVoice env2 d2
                     (world (generateCodeFromVoice env1 d1 w))) in
  files_store (storage w2)
    = Some (merge_files (default [] (files_store (storage w))) (files1 ++ files2)) /\
  chat_store (storage w2)
    = Some (default [] (chat_store (storage w)) ++
              [ {| role := "user"; text := d1 |};
                {| role := "model"; text := Some (explanation_or_default result1) |};
                {| role := "user"; text := d2 |};
                {| role := "model"; text := Some (explanation_or_default result2) |} ]).
Proof.
  intros Hfirst Hsecond. cbv zeta.
  pose proof (codegen_success_out env1 d1 w files1 result1 Hfirst) as Hrun1.
  unfold runs in Hrun1. rewrite Hrun1. cbn [world].
  pose proof (codegen_success_out env2 d2
                (tool_finished (code_saved d1 files1 result1
                                  (tool_started "Writing code..." w)))
                files2 result2 Hsecond) as Hrun2.
  unfold runs in Hrun2. rewrite Hrun2. cbn. rewrite <- app_assoc.
  split; [|reflexivity].
  unfold merge_files at 1 3. now rewrite fold_left_app, merge_files_map.
Qed.

Lemma two_generations_in_a_row_witness :
  files_store (storage (world (generateCodeFromVoice (sample_env 0) (Some "again")
                 (world (generateCodeFromVoice (sample_env 0) (Some "todo app")
                           stored_world)))))
  = Some (merge_files [sample_file "a.js" "old"; sample_file "b.js" "keep"]
            ([sample_file "a.js" "new"] ++ [sample_file "a.js" "new"])).
Proof.
  apply (two_generations_in_a_row (sample_env 0) (Some "todo app") (sample_env 0)
           (Some "again") stored_world
           [sample_file "a.js" "new"]
           (ParsedValue (FilesArray [sample_file "a.js" "new"]) (Some "Done."))
           [sample_file "a.js" "new"]
           (ParsedValue (FilesArray [sample_file "a.js" "new"]) (Some "Done.")));
    (split; [eexists _, _, _|]; repeat split; reflexivity).
Defined.

(** ** Only the code tool writes the store *)

Section Preserves.
Context {A B C : Type} (part : World -> C).

Lemma preserves_ret (a : A) : preserves part (mret a : M A).
Proof. intros w. reflexivity. Qed.

Lemma preserves_throw (e : Exn) : preserves part (throw e : M A).
Proof. intros w. reflexivity. Qed.

Lemma preserves_bind (m : M A) (f : A -> M B) :
  preserves part m -> (forall a, preserves part (f a)) -> preserves part (m ≫= f).
Proof.
  intros Hm Hf w. rewrite bind_out. specialize (Hm w).
  destruct (res (m w)) as [a|e]; cbn [world]; [|exact Hm].
  now rewrite Hf.
Qed.

Lemma preserves_try_catch (body : M A) (handler : Exn -> M A) :
  preserves part body -> (forall e, preserves part (handler e)) ->
  preserves part (try_catch body handler).
Proof.
  intros Hm Hf w. unfold try_catch. specialize (Hm w).
  destruct (res (body w)) as [a|e]; cbn [world]; [exact Hm|].
  now rewrite Hf.
Qed.

Lemma preserves_try_finally (body : M A) (fin : M unit) :
  preserves part body -> preserves part fin -> preserves part (try_finally body fin).
Proof. intros Hm Hf w. unfold try_finally. cbn [world]. now rewrite Hf. Qed.

End Preserves.

Lemma preserves_for_of {A C} (part : World -> C) (l : list A) (body : A -> M unit) :
  (forall x, preserves part (body x)) -> preserves part (for_of l body).
Proof.
  intros Hb. induction l as [|x l IH]; cbn [for_of]; [apply preserves_ret|].
  apply preserves_bind; auto.
Qed.

Lemma storage_emit e : preserves storage (emit e).
Proof. intros w. reflexivity. Qed.

Lemma storage_get_refs : preserves storage get_refs.
Proof. intros w. reflexivity. Qed.

Lemma storage_fresh : preserves storage fresh.
Proof. intros w. reflexivity. Qed.

Lemma storage_modify_refs f : preserves storage (modify_refs f).
Proof. intros w. reflexivity. Qed.

Lemma storage_modify_ui f : preserves storage (modify_ui f).
Proof. intros w. reflexivity. Qed.

Lemma storage_cleanup : preserves storage cleanup.
Proof. intros w. now rewrite (proj1 (proj2 (cleanup_spec w))). Qed.

Create HintDb store.
#[local] Hint Resolve preserves_ret preserves_throw storage_emit storage_get_refs
  storage_fresh storage_modify_refs storage_modify_ui storage_cleanup : store.

(** Walk through a callback that does not write the store. *)
Ltac store_step :=
  match goal with
  | |- forall _, _ => intro
  | |- preserves _ (_ ≫= _) => apply preserves_bind
  | |- preserves _ (try_catch _ _) => apply preserves_try_catch
  | |- preserves _ (try_finally _ _) => apply preserves_try_finally
  | |- preserves _ (match ?x with _ => _ end) => destruct x
  | |- _ => solve [auto with store]
  end.

Ltac store := cbv zeta; repeat store_step.

Lemma storage_startSession_begin env : preserves storage (startSession_begin env).
Proof. unfold startSession_begin, setStatus. store. Qed.

Lemma storage_startSession_resume env : preserves storage (startSession_resume env).
Proof. unfold startSession_resume, setStatus, new_GoogleGenAI. store. Qed.

Lemma storage_onopen : preserves storage onopen.
Proof. intros w. now rewrite onopen_out. Qed.

Lemma storage_onended src : preserves storage (onended src).
Proof. intros w. now rewrite onended_out. Qed.

Lemma storage_play env data : preserves storage (play env data).
Proof. unfold play, setIsSpeaking, decode. store. Qed.

Lemma storage_handle_function_call env fc :
  fc_name fc <> "generate_code" -> preserves storage (handle_function_call env fc).
Proof.
  intros Hname w.
  destruct (handle_function_call_cases env fc w)
    as [(_ & ->)|[(Hcode & _)|(_ & _ & ->)]]; [|contradiction|reflexivity].
  destruct (image_handler_out env (fc_args fc !! "prompt") w) as (text & shown & Hout & _).
  rewrite bind_out, Hout. cbn [res world emit]. now destruct shown.
Qed.

Lemma storage_onmessage env msg :
  (forall fc, fc ∈ default [] (toolCall msg) -> fc_name fc <> "generate_code") ->
  preserves storage (onmessage env msg).
Proof.
  intros Hcalls. unfold onmessage. apply preserves_bind; [|intros _; apply preserves_bind].
  - unfold dispatch_tool_calls. destruct (toolCall msg) as [calls|];
      [|apply preserves_ret]. cbn [default] in Hcalls.
    induction calls as [|fc calls IH]; cbn [for_of]; [apply preserves_ret|].
    apply preserves_bind.
    + apply storage_handle_function_call, Hcalls. left.
    + intros _. apply IH. intros fc' Hfc'. apply Hcalls. now right.
  - unfold schedule_audio. store. apply storage_play.
  - intros _. unfold finish_turn, setIsSpeaking. store.
Qed.

Lemma storage_onerror : preserves storage onerror.
Proof. unfold onerror, setStatus. store. Qed.

Lemma storage_perform a w :
  ~ calls_code_tool a -> storage (world (perform a w)) = storage w.
Proof.
  intros Hnot. destruct a as [env|env| | |[env msg|src| | |]]; cbn [perform deliver].
  - unfold click_button. destruct (view_button (render (ui w))) as [[|] label|];
      [reflexivity | apply storage_startSession_begin | apply storage_cleanup].
  - apply storage_startSession_resume.
  - unfold click_close_image. now destruct (view_image (render (ui w))).
  - apply storage_onopen.
  - apply storage_onmessage. intros fc Hfc Hname. apply Hnot. now exists fc.
  - apply storage_onended.
  - apply storage_cleanup.
  - apply storage_onerror.
  - apply storage_cleanup.
Qed.

(** X22. Only the code tool writes the store.  Over any sequence of clicks,
    transport callbacks and events in which no message carries a call
    named [generate_code], the stored files and the stored chat are at the
    end what they were at the beginning: starting, stopping, errors, audio
    and image generation never touch them. *)
Theorem only_code_tool_writes_store actions w :
  Forall (fun a => ~ calls_code_tool a) actions ->
  storage (fst (session_run actions w)) = storage w.
Proof.
  intros Hnone. revert w. induction Hnone as [|a rest Ha _ IH]; intros w;
    [reflexivity|].
  cbn [session_run fst]. now rewrite IH, storage_perform.
Qed.

Lemma only_code_tool_writes_store_witness :
  storage (fst (session_run
                  [ClickButton (sample_env 0); MicrophoneSettles (sample_env 0);
                   TransportOpen;
                   Deliver (InMessage (sample_env 0) image_only_message);
                   Deliver InError] stored_world))
  = storage stored_world.
Proof.
  apply (only_code_tool_writes_store
           [ClickButton (sample_env 0); MicrophoneSettles (sample_env 0);
            TransportOpen;
            Deliver (InMessage (sample_env 0) image_only_message);
            Deliver InError] stored_world).
  repeat constructor; cbn; try tauto.
  intros (fc & Hfc & Hname). apply list_elem_of_singleton in Hfc as ->.
  discriminate Hname.
Defined.
